(** * A verified model of the hytale-name query engine

    The development follows the two source files of the package:
    [index.js] (the orchestrator: input pipeline, sharding, result
    aggregation, retry ledger) and [worker.js] (the worker: concurrency
    limiter, single and batched queries, retry controller, result emission).

    The definitions of the first part transcribe the source, function by
    function, and keep its names.  The second part states and proves the
    properties.

    Conventions.  A JavaScript string is a [string] whose characters stand
    for code units below 256.  A number that the code only counts with is a
    [nat]; a status code or a clock reading is a [Z]; a delay in
    milliseconds is a rational [Q], the arithmetic on it taken exact.
    Exceptions are values of the monad, [None] or [Thrown]. *)

From Stdlib Require Import QArith Lqa Ascii String.
From stdpp Require Import base tactics option list sorting strings pretty.

Set Warnings "-register-all".

Local Open Scope Q_scope.
Local Open Scope Z_scope.
Local Open Scope string_scope.
Local Open Scope list_scope.
Local Open Scope nat_scope.

(** ** index.js: [shardArray] *)

Module Shard.

(** [arr.forEach((v, i) => out[i % n].push(v))], started at index [i].
    [out[i % n]] is [undefined] when the index is out of range (or [NaN],
    for [n = 0]); calling [push] on it raises a TypeError, rendered [None]. *)
Fixpoint forEach_push {A : Type} (n : nat) (out : list (list A)) (i : nat)
    (arr : list A) : option (list (list A)) :=
  match arr with
  | [] => Some out
  | v :: rest =>
      match out !! (i mod n) with
      | Some _ => forEach_push n (alter (λ bucket, bucket ++ [v]) (i mod n) out) (S i) rest
      | None => None
      end
  end.

(** [Array.from({ length: n }, () => [])] followed by the loop. *)
Definition shardArray {A : Type} (arr : list A) (n : nat) : option (list (list A)) :=
  forEach_push n (replicate n []) 0 arr.

End Shard.

(** ** worker.js: [pLimit] *)

Module Limiter.

Section limiter.
Context {T : Type} `{EqDecision T}.

(** The closure state of [pLimit(max)]: the counter [active] and the [queue]
    of submitted functions that have not been started. *)
Record limiter := Limiter { active : nat; queue : list T }.

(** [next]: starts the head of the queue unless [active >= max] or the queue
    is empty.  The second component lists the tasks whose [fn()] was called. *)
Definition next (max : nat) (l : limiter) : limiter * list T :=
  if decide (max ≤ active l) then (l, [])
  else match queue l with
       | [] => (l, [])
       | t :: q => (Limiter (S (active l)) q, [t])
       end.

(** [fn => new Promise((res, rej) => { queue.push({ fn, res, rej }); next(); })] *)
Definition submit (max : nat) (t : T) (l : limiter) : limiter * list T :=
  next max (Limiter (active l) (queue l ++ [t])).

(** [.finally(() => { active--; next(); })], run when a started task settles. *)
Definition settle (max : nat) (l : limiter) : limiter * list T :=
  next max (Limiter (active l - 1) (queue l)).

(** What a client of the limiter does: it submits a task, or one of the
    tasks that are running settles. *)
Inductive event := Submit (t : T) | Settled (t : T).

(** The limiter together with the history of one execution: the tasks
    submitted so far, the tasks started so far (both in order) and the tasks
    that are started and not settled. *)
Record exec_state := ExecState {
  lim : limiter;
  submitted : list T;
  started : list T;
  running : list T;
}.

(** [pLimit(max)]: the state the closure starts in, [active = 0] and an
    empty queue. *)
Definition pLimit : limiter := Limiter 0 [].

Definition init : exec_state := ExecState pLimit [] [] [].

Fixpoint remove_first (t : T) (l : list T) : list T :=
  match l with
  | [] => []
  | x :: l' => if decide (x = t) then l' else x :: remove_first t l'
  end.

(** One event; [None] when a task settles that is not running. *)
Definition step (max : nat) (s : exec_state) (e : event) : option exec_state :=
  match e with
  | Submit t =>
      let '(l', new) := submit max t (lim s) in
      Some (ExecState l' (submitted s ++ [t]) (started s ++ new) (running s ++ new))
  | Settled t =>
      if decide (t ∈ running s) then
        let '(l', new) := settle max (lim s) in
        Some (ExecState l' (submitted s) (started s ++ new)
                (remove_first t (running s) ++ new))
      else None
  end.

Fixpoint exec_from (max : nat) (s : exec_state) (tr : list event) : option exec_state :=
  match tr with
  | [] => Some s
  | e :: tr' => match step max s e with
                | Some s' => exec_from max s' tr'
                | None => None
                end
  end.

Definition exec (max : nat) (tr : list event) : option exec_state :=
  exec_from max init tr.

End limiter.

Global Arguments limiter : clear implicits.
Global Arguments event : clear implicits.
Global Arguments exec_state : clear implicits.

End Limiter.

(** ** Strings as the code uses them *)

Module Str.

Definition code (a : ascii) : nat := nat_of_ascii a.

(** [toLowerCase] on one code unit below 256: the letters A to Z, and the
    capital letters of Latin-1, 192 to 222 without the multiplication sign
    215, go 32 up; every other code unit stays.  The patterns that the code
    matches with the [i] flag hold letters of A to Z only, so that a text
    matches one of them exactly when its lower-case form holds the
    lower-case form of the pattern. *)
Definition lower_char (a : ascii) : ascii :=
  if ((65 <=? code a) && (code a <=? 90)) ||
     ((192 <=? code a) && (code a <=? 222) && negb (code a =? 215))
  then ascii_of_nat (code a + 32) else a.

Fixpoint toLowerCase (s : string) : string :=
  match s with
  | EmptyString => EmptyString
  | String a s' => String (lower_char a) (toLowerCase s')
  end.

Definition is_digit (a : ascii) : bool := (48 <=? code a) && (code a <=? 57).

(** White space and line terminators, as [trim] strips them. *)
Definition is_js_space (a : ascii) : bool :=
  ((9 <=? code a) && (code a <=? 13)) || (code a =? 32) || (code a =? 160).

Fixpoint starts_with (p s : string) : bool :=
  match p, s with
  | EmptyString, _ => true
  | String a p', String b s' => if decide (a = b) then starts_with p' s' else false
  | String _ _, EmptyString => false
  end.

(** [s.includes(p)]; also the search of a literal alternative of a regular
    expression. *)
Fixpoint includes (p s : string) : bool :=
  starts_with p s ||
  match s with
  | EmptyString => false
  | String _ s' => includes p s'
  end.

(** The alternative [5\d\d]. *)
Fixpoint includes_5dd (s : string) : bool :=
  match s with
  | String a ((String b (String c _)) as s') =>
      (bool_decide (a = "5"%char) && is_digit b && is_digit c) || includes_5dd s'
  | _ => false
  end.

Fixpoint drop_space (s : string) : string :=
  match s with
  | String a s' => if is_js_space a then drop_space s' else s
  | EmptyString => EmptyString
  end.

Definition trim (s : string) : string :=
  String.rev (drop_space (String.rev (drop_space s))).

(** [s.split('\t')[0]] *)
Fixpoint before_tab (s : string) : string :=
  match s with
  | EmptyString => EmptyString
  | String a s' => if decide (code a = 9) then EmptyString else String a (before_tab s')
  end.

(** [s.split(/\r?\n/)] *)
Fixpoint split_lines (s : string) : list string :=
  match s with
  | EmptyString => [EmptyString]
  | String a s' =>
      if decide (code a = 10) then EmptyString :: split_lines s'
      else
        match s' with
        | String b s'' =>
            if bool_decide (code a = 13) && bool_decide (code b = 10)
            then EmptyString :: split_lines s''
            else match split_lines s' with
                 | [] => [String a EmptyString]
                 | l :: ls => String a l :: ls
                 end
        | EmptyString => [String a EmptyString]
        end
  end.

Definition nl : string := String (ascii_of_nat 10) EmptyString.
Definition tab : string := String (ascii_of_nat 9) EmptyString.

(** [lines.join('\n')] *)
Fixpoint join_lines (ls : list string) : string :=
  match ls with
  | [] => EmptyString
  | [l] => l
  | l :: ls' => l +:+ nl +:+ join_lines ls'
  end.

(** [Boolean(s)] for a string. *)
Definition nonempty (s : string) : bool :=
  match s with EmptyString => false | _ => true end.

End Str.

(** ** JavaScript values *)

Module JS.

(** The values [JSON.parse] returns, and [undefined], which reading a
    missing property gives.  A number is kept when it is an integer. *)
Inductive value :=
| VUndef
| VNull
| VBool (b : bool)
| VNum (n : Z)
| VStr (s : string)
| VArr (items : list value)
| VObj (fields : list (string * value)).

Fixpoint assoc (name : string) (fields : list (string * value)) : value :=
  match fields with
  | [] => VUndef
  | (k, v) :: fields' => if decide (k = name) then v else assoc name fields'
  end.

(** [v.name] and [v[name]] for the names the code reads ([results],
    [username], [available], [error], a key of the batch).  Reading a
    property of [null] or [undefined] raises a TypeError ([None]); a
    property that the value does not own reads [undefined] (what an object
    inherits is never [true] or [false], the only values the code tells
    from the rest there). *)
Definition get_prop (v : value) (name : string) : option value :=
  match v with
  | VUndef | VNull => None
  | VObj fields => Some (assoc name fields)
  | _ => Some VUndef
  end.

Definition truthy (v : value) : bool :=
  match v with
  | VUndef | VNull => false
  | VBool b => b
  | VNum n => negb (n =? 0)%Z
  | VStr s => Str.nonempty s
  | VArr _ | VObj _ => true
  end.

(** [a || b] *)
Definition or_else (a b : value) : value := if truthy a then a else b.

Definition isArray (v : value) : bool :=
  match v with VArr _ => true | _ => false end.

(** [typeof v === 'object'] *)
Definition typeof_object (v : value) : bool :=
  match v with VNull | VArr _ | VObj _ => true | _ => false end.

(** The key equality of [Set] and [Map].  An array or an object is equal to
    itself only, and every message the orchestrator receives is a fresh
    copy: two of them are never the same key. *)
Definition same_key (a b : value) : bool :=
  match a, b with
  | VUndef, VUndef | VNull, VNull => true
  | VBool x, VBool y => bool_decide (x = y)
  | VNum x, VNum y => bool_decide (x = y)
  | VStr x, VStr y => bool_decide (x = y)
  | _, _ => false
  end.

Definition join_with (sep : string) (parts : list string) : string :=
  match parts with
  | [] => EmptyString
  | p :: ps => p +:+ String.concat EmptyString (map (λ q, sep +:+ q) ps)
  end.

(** [String(v)], what a template literal and [+] with a string print. *)
Fixpoint to_string (v : value) : string :=
  match v with
  | VUndef => "undefined"
  | VNull => "null"
  | VBool true => "true"
  | VBool false => "false"
  | VNum n => pretty n
  | VStr s => s
  | VArr items =>
      join_with ","
        (map (λ x, match x with VUndef | VNull => EmptyString | _ => to_string x end) items)
  | VObj _ => "[object Object]"
  end.

End JS.

(** ** worker.js *)

Module Worker.
Import JS.

(** *** The world of a worker

    A worker talks to the lookup service through [pool.request], draws
    numbers from [Math.random], reads the clock and sleeps.  What the world
    answers is an [oracle]: the answer to the n-th request, the n-th random
    number, the n-th clock reading, each an arbitrary function of n.  The
    headers of a request have no part in the control flow and are left out. *)

Inductive request :=
| GET (username : string)            (* GET /check/<username> *)
| POST (usernames : list string).    (* POST /check/batch { usernames } *)

(** The text of a response body, as [JSON.parse] reads it: a value, or a
    SyntaxError with its message. *)
Inductive body :=
| NotJson (msg : string)
| Json (v : value).

(** [pool.request] followed by [body.text()]: a status code and a body, or
    an error of the connection (with its message). *)
Inductive response :=
| NetError (msg : string)
| Response (statusCode : Z) (b : body).

Record oracle := Oracle {
  reply : nat → request → response;
  random : nat → Q;
  clock : nat → Z;
}.

Inductive event :=
| EvRequest (r : request)
| EvSleep (ms : Q).

(** What [push] stores and [postMessage] sends. *)
Record CheckResult := Result {
  username : value;
  available : value;
  ttc : Z;
  error : value;
}.

Inductive message :=
| MsgResult (r : CheckResult)            (* { type: 'result', ...r } *)
| MsgBatch (results : list CheckResult). (* { type: 'batch', results } *)

(** The state of a worker: how much of the oracle is used up, what it did
    ([trace]), the module variable [batch] and the messages posted. *)
Record world := World {
  n_req : nat;
  n_rand : nat;
  n_clock : nat;
  trace : list event;
  batch : list CheckResult;
  posted : list message;
}.

Definition start : world := World 0 0 0 [] [] [].

Inductive outcome (A : Type) :=
| Val (a : A)
| Thrown (msg : string).
Global Arguments Val {A} a.
Global Arguments Thrown {A} msg.

(** Code that awaits: a function of the oracle and the world. *)
Definition M (A : Type) : Type := oracle → world → outcome A * world.

Definition ret {A} (a : A) : M A := λ _ w, (Val a, w).

Definition throw {A} (msg : string) : M A := λ _ w, (Thrown msg, w).

Definition bind {A B} (m : M A) (k : A → M B) : M B :=
  λ o w, match m o w with
         | (Val a, w') => k a o w'
         | (Thrown msg, w') => (Thrown msg, w')
         end.

(** [try { m } catch (e) { h(e.message) }] *)
Definition try_catch {A} (m : M A) (h : string → M A) : M A :=
  λ o w, match m o w with
         | (Val a, w') => (Val a, w')
         | (Thrown msg, w') => h msg o w'
         end.

Notation "'let*' x ':=' m 'in' k" := (bind m (λ x, k))
  (at level 10, x binder, m at level 200, k at level 200).

Definition pool_request (r : request) : M response :=
  λ o w, (Val (reply o (n_req w) r),
          World (S (n_req w)) (n_rand w) (n_clock w) (trace w ++ [EvRequest r])
                (batch w) (posted w)).

Definition Math_random : M Q :=
  λ o w, (Val (random o (n_rand w)),
          World (n_req w) (S (n_rand w)) (n_clock w) (trace w) (batch w) (posted w)).

Definition Date_now : M Z :=
  λ o w, (Val (clock o (n_clock w)),
          World (n_req w) (n_rand w) (S (n_clock w)) (trace w) (batch w) (posted w)).

(** [await new Promise(r => setTimeout(r, ms))] *)
Definition sleep (ms : Q) : M unit :=
  λ _ w, (Val tt,
          World (n_req w) (n_rand w) (n_clock w) (trace w ++ [EvSleep ms])
                (batch w) (posted w)).

Fixpoint for_each {A} (l : list A) (f : A → M unit) : M unit :=
  match l with
  | [] => ret tt
  | x :: l' => let* _ := f x in for_each l' f
  end.

(** [Promise.all(l.map(f))] for an [f] that cannot reject; the calls are
    taken one after the other, in the order of the list.  The calls side
    by side, under any schedule, are [checkBatch_scheduled] below. *)
Fixpoint map_all {A B} (l : list A) (f : A → M B) : M (list B) :=
  match l with
  | [] => ret []
  | x :: l' => let* y := f x in let* ys := map_all l' f in ret (y :: ys)
  end.

(** [workerData] *)
Record config := Config {
  usernames : list string;
  concurrency : nat;
  verbose : bool;
  workerId : nat;
  sleepMs : Q;
  batchSize : nat;
  httpBatchSize : nat;
}.

(** [randomDelay(min, max)] *)
Definition randomDelay (min max : Q) : M unit :=
  let* r := Math_random in sleep (min + r * (max - min))%Q.

(** The delay before a request: [sleepMs] when it is positive, a random
    delay otherwise. *)
Definition delay (cfg : config) : M unit :=
  if Qlt_le_dec 0 (sleepMs cfg) then sleep (sleepMs cfg) else randomDelay 5 30.

Definition type_error (name : string) : string :=
  "Cannot read properties of null (reading '" +:+ name +:+ "')".

(** [v.name], raising the TypeError. *)
Definition prop (v : value) (name : string) : M value :=
  match get_prop v name with
  | Some x => ret x
  | None => throw (type_error name)
  end.

(** *** [checkSingle] *)
Definition checkSingle (cfg : config) (username : string) : M bool :=
  let* _ := delay cfg in
  let* resp := pool_request (GET username) in
  match resp with
  | NetError msg => throw msg
  | Response statusCode b =>
      if (statusCode =? 429)%Z then throw "Rate limited"
      else if (500 <=? statusCode)%Z then
        throw ("Server error (" +:+ pretty statusCode +:+ ")")
      else if (statusCode <? 200)%Z || (300 <=? statusCode)%Z then
        throw ("HTTP " +:+ pretty statusCode)
      else
        match b with
        | NotJson msg => throw msg
        | Json json =>
            let* a := prop json "available" in
            match a with
            | VBool x => ret x
            | _ => throw "Invalid response"
            end
        end
  end.

(** *** [checkBatch] *)

(** [{ username, available }] and [{ username, available, error }] *)
Definition record2 (u : string) (a : value) : value :=
  VObj [("username", VStr u); ("available", a)].
Definition record3 (u : string) (a : value) (e : string) : value :=
  VObj [("username", VStr u); ("available", a); ("error", VStr e)].

(** [json[u] === true || json[u] === false ? json[u] : null] *)
Definition bool_or_null (v : value) : value :=
  match v with VBool _ => v | _ => VNull end.

(** The [try] block of [checkBatch]: the results it returns, or [None] when
    control falls through to the fallback (an exception included). *)
Definition try_post (cfg : config) (usernameBatch : list string)
    : M (option (list value)) :=
  let* _ := delay cfg in
  let* resp := pool_request (POST usernameBatch) in
  match resp with
  | NetError _ => ret None
  | Response statusCode b =>
      if (statusCode =? 200)%Z || (statusCode =? 201)%Z then
        match b with
        | NotJson _ => ret None
        | Json json =>
            match get_prop json "results" with
            | None => ret None
            | Some (VArr results) => ret (Some results)
            | Some _ =>
                if typeof_object json && negb (isArray json) then
                  ret (Some (map (λ u, record2 u (bool_or_null (assoc u
                          match json with VObj fields => fields | _ => [] end)))
                        usernameBatch))
                else ret None
            end
        end
      else ret None
  end.

(** One element of the fallback. *)
Definition fallback_one (cfg : config) (username : string) : M value :=
  try_catch (let* a := checkSingle cfg username in ret (record2 username (VBool a)))
            (λ msg, ret (record3 username VNull msg)).

Definition checkBatch (cfg : config) (usernameBatch : list string) : M (list value) :=
  match usernameBatch with
  | [u] => let* a := checkSingle cfg u in ret [record2 u (VBool a)]
  | _ =>
      let* r := try_post cfg usernameBatch in
      match r with
      | Some results => ret results
      | None => map_all usernameBatch (fallback_one cfg)
      end
  end.

(** *** [withRetry] *)

(** [/rate|429/i.test(msg)] *)
Definition isRateLimit (msg : string) : bool :=
  let m := Str.toLowerCase msg in
  Str.includes "rate" m || Str.includes "429" m.

(** [/rate|429|5\d\d|timeout|ECONN|ENOTFOUND|EAI_AGAIN|UND_ERR|ETIMEDOUT/i.test(msg)] *)
Definition isRetryable (msg : string) : bool :=
  let m := Str.toLowerCase msg in
  Str.includes "rate" m || Str.includes "429" m || Str.includes_5dd m ||
  Str.includes "timeout" m || Str.includes "econn" m || Str.includes "enotfound" m ||
  Str.includes "eai_again" m || Str.includes "und_err" m || Str.includes "etimedout" m.

(** [{ ok: true, val }] and [{ ok: false, err }] *)
Inductive retried (A : Type) :=
| Ok (val : A)
| Failed (err : string).
Global Arguments Ok {A} val.
Global Arguments Failed {A} err.

Definition baseDelay (rateLimit : bool) : Q := if rateLimit then 1000 else 300.

(** [baseDelay * Math.pow(2, i) + Math.random() * 500] *)
Definition backoff (rateLimit : bool) (i : nat) (r : Q) : Q :=
  (baseDelay rateLimit * inject_Z (2 ^ Z.of_nat i) + r * 500)%Q.

(** The loop [for (let i = 0; i <= retries; i++)], entered at [i] with [n]
    iterations left and the last error in [err]. *)
Fixpoint withRetry_loop {A} (fn : M A) (retries n i : nat) (err : option string)
    : M (retried A) :=
  match n with
  | 0 =>
      ret (Failed (match err with
                   | Some msg => if Str.nonempty msg then msg else "Max retries"
                   | None => "Max retries"
                   end))
  | S n' =>
      try_catch (let* a := fn in ret (Ok a))
        (λ msg,
           if negb (isRetryable msg) || bool_decide (i = retries) then ret (Failed msg)
           else
             let* r := Math_random in
             let* _ := sleep (backoff (isRateLimit msg) i r) in
             withRetry_loop fn retries n' (S i) (Some msg))
  end.

Definition withRetry {A} (fn : M A) (retries : nat) : M (retried A) :=
  withRetry_loop fn retries (S retries) 0 None.

(** The default of the parameter [retries], which the one call uses. *)
Definition default_retries : nat := 5.

(** *** [flush], [push] and [run] *)

(** [const BATCH = verbose ? 1 : batchSize] *)
Definition BATCH (cfg : config) : nat := if verbose cfg then 1 else batchSize cfg.

Definition flush : M unit :=
  λ _ w,
    match batch w with
    | [] => (Val tt, w)
    | [r] => (Val tt, World (n_req w) (n_rand w) (n_clock w) (trace w) []
                            (posted w ++ [MsgResult r]))
    | rs => (Val tt, World (n_req w) (n_rand w) (n_clock w) (trace w) []
                           (posted w ++ [MsgBatch rs]))
    end.

Definition push (cfg : config) (r : CheckResult) : M unit :=
  λ o w,
    let w' := World (n_req w) (n_rand w) (n_clock w) (trace w) (batch w ++ [r])
                    (posted w) in
    if decide (BATCH cfg ≤ length (batch w')) then flush o w' else (Val tt, w').

(** The loop that cuts [usernames] into HTTP batches, entered at index [i].
    [None] when it is not over after [fuel] rounds (it never is for a batch
    size of 0). *)
Fixpoint httpBatches_from (fuel : nat) (size i : nat) (us : list string)
    : option (list (list string)) :=
  match fuel with
  | 0 => None
  | S fuel' =>
      if decide (i < length us) then
        (take size (drop i us) ::.) <$> httpBatches_from fuel' size (i + size) us
      else Some []
  end.

Definition httpBatches (cfg : config) : option (list (list string)) :=
  httpBatches_from (S (length (usernames cfg))) (httpBatchSize cfg) 0 (usernames cfg).

(** The function that [run] hands to the limiter for one HTTP batch. *)
Definition task (cfg : config) (b : list string) : M unit :=
  let* startTime := Date_now in
  let* results := withRetry (checkBatch cfg b) default_retries in
  let* endTime := Date_now in
  let ttc := (endTime - startTime)%Z in
  match results with
  | Ok val =>
      for_each val (λ r,
        let* u := prop r "username" in
        let* a := prop r "available" in
        let* e := prop r "error" in
        push cfg (Result u a (ttc / Z.of_nat (length b))%Z (or_else e VNull)))
  | Failed err =>
      for_each b (λ u, push cfg (Result (VStr u) VNull ttc (VStr err)))
  end.

(** [run].  The limiter starts every task when [concurrency] is at least 1
    and none otherwise; a task pushes its results in one piece when its
    query is settled, so the tasks take effect one after the other, in the
    order [order] in which they settle: a permutation of the positions in
    the list of batches.  [None]: the worker never exits (or [order] is no
    such permutation).  [Some (code, w)]: it exits with [code] in the world
    [w]. *)
Definition run (cfg : config) (order : list nat) (o : oracle) : option (Z * world) :=
  match httpBatches cfg with
  | None => None
  | Some [] => let '(_, w) := flush o start in Some (0%Z, w)
  | Some batches =>
      if decide (concurrency cfg = 0) then None
      else if decide (order ≡ₚ seq 0 (length batches)) then
        match (let* _ := for_each (omap (λ i, batches !! i) order) (task cfg) in flush)
                o start with
        | (Val _, w) => Some (0%Z, w)
        | (Thrown _, w) => Some (1%Z, w)
        end
      else None
  end.

(** The results a list of messages carries, in order. *)
Definition results_of (m : message) : list CheckResult :=
  match m with
  | MsgResult r => [r]
  | MsgBatch rs => rs
  end.

End Worker.


(** ** worker.js: the headers of a request *)

Module Headers.

(** Rotating user agents. *)
Definition USER_AGENTS : list string := [
  "Mozilla/5.0 (Macintosh; Intel Mac OS X 10_15_7) AppleWebKit/537.36 (KHTML, like Gecko) Chrome/120.0.0.0 Safari/537.36";
  "Mozilla/5.0 (Windows NT 10.0; Win64; x64) AppleWebKit/537.36 (KHTML, like Gecko) Chrome/120.0.0.0 Safari/537.36";
  "Mozilla/5.0 (Macintosh; Intel Mac OS X 10_15_7) AppleWebKit/605.1.15 (KHTML, like Gecko) Version/17.2 Safari/605.1.15";
  "Mozilla/5.0 (Windows NT 10.0; Win64; x64; rv:121.0) Gecko/20100101 Firefox/121.0";
  "Mozilla/5.0 (Macintosh; Intel Mac OS X 10.15; rv:121.0) Gecko/20100101 Firefox/121.0";
  "Mozilla/5.0 (Windows NT 10.0; Win64; x64) AppleWebKit/537.36 (KHTML, like Gecko) Chrome/120.0.0.0 Safari/537.36 Edg/120.0.0.0";
  "Mozilla/5.0 (X11; Linux x86_64) AppleWebKit/537.36 (KHTML, like Gecko) Chrome/120.0.0.0 Safari/537.36";
  "Mozilla/5.0 (iPhone; CPU iPhone OS 17_2 like Mac OS X) AppleWebKit/605.1.15 (KHTML, like Gecko) Version/17.2 Mobile/15E148 Safari/604.1"
].

Definition ACCEPT_LANGS : list string := [
  "en-US,en;q=0.9";
  "en-GB,en;q=0.9";
  "en-US,en;q=0.9,es;q=0.8";
  "en,en-US;q=0.9"
].

(** The object that [getHeaders] returns.  An index past the end of an
    array reads [undefined] ([None]). *)
Record headers := Build {
  accept : string;
  accept_language : option string;
  user_agent : option string;
  cache_control : string;
  pragma : string;
}.

(** [getHeaders], with the module variable [reqCount] passed in and out. *)
Definition getHeaders (workerId : nat) (reqCount : nat) : headers * nat :=
  let reqCount := S reqCount in
  let ua := USER_AGENTS !! ((reqCount + workerId) mod length USER_AGENTS) in
  let lang := ACCEPT_LANGS !! (reqCount mod length ACCEPT_LANGS) in
  (Build "application/json, text/plain, */*" lang ua "no-cache" "no-cache", reqCount).

(** The headers of [n] calls in a row.  Every request of a worker calls
    [getHeaders] once, and nothing else does. *)
Fixpoint calls (workerId : nat) (n : nat) (reqCount : nat) : list headers :=
  match n with
  | 0 => []
  | S n' =>
      let '(h, reqCount') := getHeaders workerId reqCount in
      h :: calls workerId n' reqCount'
  end.

End Headers.
(** ** index.js: the orchestrator *)

Module Main.
Import JS.

(** Username constraints. *)
Definition MIN_LEN : nat := 3.
Definition MAX_LEN : nat := 10.

(** [u.length >= MIN_LEN && u.length <= MAX_LEN] *)
Definition valid_length (u : string) : bool :=
  bool_decide (MIN_LEN ≤ String.length u) && bool_decide (String.length u ≤ MAX_LEN).

(** *** The input of a run *)

(** The options of the command line that the engine reads. *)
Record args := Args {
  workers : nat;          (* args.workers || Math.min(8, cpus) *)
  conc : nat;             (* args.conc || 200 *)
  verbose : bool;
  sleep : Q;              (* seconds; 0 when absent *)
  batch : nat;            (* args.batch || 1 *)
  start : Z;              (* 0 when absent *)
  from : option string;
}.

(** [errContent.split(/\r?\n/).map(l => l.split('\t')[0].trim()).filter(Boolean)] *)
Definition retryUsers (errContent : string) : list string :=
  filter (λ u, Str.nonempty u = true)
         (map (λ l, Str.trim (Str.before_tab l)) (Str.split_lines errContent)).

(** [[...new Set(l)]]: the first occurrence of every element, in order. *)
Fixpoint dedupe (seen l : list string) : list string :=
  match l with
  | [] => []
  | x :: l' => if decide (x ∈ seen) then dedupe seen l' else x :: dedupe (x :: seen) l'
  end.

(** [[...new Set(content.split(/\r?\n/).map(s => s.trim()).filter(Boolean))]] *)
Definition raw (content : string) : list string :=
  dedupe [] (filter (λ u, Str.nonempty u = true) (map Str.trim (Str.split_lines content))).

(** [usernames.sort((a, b) => a.toLowerCase().localeCompare(b.toLowerCase()))]:
    a stable sort by the comparison [localeCompare] of the platform, which
    is a parameter.  [x], which stood before the names of [l], goes behind
    those that the comparison puts strictly before it. *)
Fixpoint insert_sorted (localeCompare : string → string → Z) (x : string)
    (l : list string) : list string :=
  match l with
  | [] => [x]
  | y :: l' =>
      if (0 <? localeCompare (Str.toLowerCase x) (Str.toLowerCase y))%Z
      then y :: insert_sorted localeCompare x l'
      else x :: y :: l'
  end.

Definition sort (localeCompare : string → string → Z) (l : list string) : list string :=
  foldr (insert_sorted localeCompare) [] l.

(** [usernames.findIndex(u => u.toLowerCase() === from.toLowerCase())] *)
Fixpoint findIndex (name : string) (l : list string) : option nat :=
  match l with
  | [] => None
  | u :: l' =>
      if decide (Str.toLowerCase u = Str.toLowerCase name) then Some 0
      else S <$> findIndex name l'
  end.

(** From the content of the input file to the list that is sharded: the
    length filter, the sort, [--start] and [--from].  [None]: the run ends
    before any worker is started. *)
Definition usernames (localeCompare : string → string → Z) (a : args)
    (content : string) : option (list string) :=
  let us := sort localeCompare (filter (λ u, valid_length u = true) (raw content)) in
  let us :=
    if (1 <? start a)%Z
    then drop (Z.to_nat (Z.min (start a - 1) (Z.of_nat (length us)))) us
    else us in
  match
    match from a with
    | Some name =>
        if Str.nonempty name then
          match findIndex name us with
          | Some idx => Some (drop idx us)
          | None => None
          end
        else Some us
    | None => Some us
    end
  with
  | Some [] => None
  | r => r
  end.

(** *** [processResult] *)

(** The variables that [processResult] updates. *)
Record state := State {
  checked : nat;
  avail : nat;
  taken : nat;
  errs : nat;
  lastUser : value;
  availStream : list string;
  takenStream : list string;
  errStream : list string;
  resolvedUsers : list value;           (* a Set *)
  newErrors : list (value * value);     (* a Map, in insertion order *)
}.

Definition init : state := State 0 0 0 0 (VStr EmptyString) [] [] [] [] [].

(** [set.has(k)] *)
Definition has (set : list value) (k : value) : bool := existsb (same_key k) set.

(** [set.add(k)] *)
Definition add (set : list value) (k : value) : list value :=
  if has set k then set else set ++ [k].

(** [map.has(k)] *)
Definition has_key (map : list (value * value)) (k : value) : bool :=
  existsb (λ kv, same_key k (fst kv)) map.

(** [map.set(k, v)]: a key that is present keeps its place. *)
Fixpoint set (map : list (value * value)) (k v : value) : list (value * value) :=
  match map with
  | [] => [(k, v)]
  | (k', v') :: map' =>
      if same_key k k' then (k', v) :: map' else (k', v') :: set map' k v
  end.

Definition processResult (isRetryMode : bool) (s : state) (r : Worker.CheckResult)
    : state :=
  let u := Worker.username r in
  match Worker.available r with
  | VBool true =>
      State (S (checked s)) (S (avail s)) (taken s) (errs s) u
            (availStream s ++ [to_string u +:+ Str.nl]) (takenStream s) (errStream s)
            (add (resolvedUsers s) u) (newErrors s)
  | VBool false =>
      State (S (checked s)) (avail s) (S (taken s)) (errs s) u
            (availStream s) (takenStream s ++ [to_string u +:+ Str.nl]) (errStream s)
            (add (resolvedUsers s) u) (newErrors s)
  | _ =>
      let reason := or_else (Worker.error r) (VStr "Unknown") in
      if isRetryMode then
        State (S (checked s)) (avail s) (taken s) (S (errs s)) u
              (availStream s) (takenStream s) (errStream s)
              (resolvedUsers s) (set (newErrors s) u reason)
      else
        State (S (checked s)) (avail s) (taken s) (S (errs s)) u
              (availStream s) (takenStream s)
              (errStream s ++ [to_string u +:+ Str.tab +:+ to_string reason +:+ Str.nl])
              (resolvedUsers s) (newErrors s)
  end.

(** [w.on('message', ...)] *)
Definition on_message (isRetryMode : bool) (s : state) (msg : Worker.message) : state :=
  match msg with
  | Worker.MsgResult r => processResult isRetryMode s r
  | Worker.MsgBatch results => foldl (processResult isRetryMode) s results
  end.

(** *** The rewrite of [errors.txt] at the end of a retry run *)

(** [fs.readFileSync(originalErrFile, 'utf8').split(/\r?\n/).filter(Boolean)] *)
Definition originalErrors (errContent : string) : list string :=
  filter (λ l, Str.nonempty l = true) (Str.split_lines errContent).

(** [line.split('\t')[0].trim()] *)
Definition key_of (line : string) : string := Str.trim (Str.before_tab line).

Definition kept (s : state) (line : string) : bool :=
  negb (has (resolvedUsers s) (VStr (key_of line))) &&
  negb (has_key (newErrors s) (VStr (key_of line))).

Definition error_line (entry : value * value) : string :=
  to_string (fst entry) +:+ Str.tab +:+ to_string (snd entry).

Definition finalErrors (errContent : string) (s : state) : list string :=
  filter (λ line, kept s line = true) (originalErrors errContent) ++
  map error_line (newErrors s).

(** [finalErrors.join('\n') + (finalErrors.length ? '\n' : '')] *)
Definition rewritten (errContent : string) (s : state) : string :=
  Str.join_lines (finalErrors errContent s) +:+
  match finalErrors errContent s with [] => EmptyString | _ => Str.nl end.

(** *** A retry run, end to end *)

(** The messages of the workers as they arrive: [schedule] names, one
    message at a time, the worker whose next message is taken; the messages
    of one worker arrive in the order in which it posted them.  [None] when
    the schedule does not deliver exactly the messages posted. *)
Fixpoint deliver (schedule : list nat) (queues : list (list Worker.message))
    : option (list Worker.message) :=
  match schedule with
  | [] => if forallb (λ q, bool_decide (q = [])) queues then Some [] else None
  | i :: schedule' =>
      match queues !! i with
      | Some (m :: q) => (m ::.) <$> deliver schedule' (<[i := q]> queues)
      | _ => None
      end
  end.

(** What decides a run besides the file: the comparison of the platform,
    the options, and for every worker its service and the order in which
    its tasks settle; and the order in which messages arrive. *)
Record environment := Environment {
  localeCompare : string → string → Z;
  options : args;
  service : nat → Worker.oracle;
  settle_order : nat → list nat;
  schedule : list nat;
}.

Definition workerData (a : args) (idx : nat) (shard : list string) : Worker.config :=
  Worker.Config shard (conc a) (verbose a) idx (sleep a * 1000)%Q 1 (batch a).

(** The workers of a run: for each shard, how its worker ends. *)
Definition workers_of (env : environment) (shards : list (list string))
    : list (option (Z * Worker.world)) :=
  imap (λ idx shard,
          Worker.run (workerData (options env) idx shard) (settle_order env idx)
                     (service env idx))
       shards.

(** The shards of a retry run. *)
Definition retry_shards (env : environment) (errContent : string)
    : option (list (list string)) :=
  match retryUsers errContent with
  | [] => None
  | us =>
      us ← usernames (localeCompare env) (options env) (Str.join_lines us +:+ Str.nl);
      Shard.shardArray us (workers (options env))
  end.

(** A retry run on the ledger [errContent], the content of [errors.txt],
    which is read at the start and again at the end (nothing writes to it in
    between: a retry run opens no error stream).  [None]: the run does not
    complete and [errors.txt] is not rewritten (there is nothing to retry,
    the input is refused, a worker never exits or exits with a code other
    than 0).  [Some content]: it completes, and [content] is the new
    [errors.txt]. *)
Definition retry_run (env : environment) (errContent : string) : option string :=
  shards ← retry_shards env errContent;
  ends ← mapM id (workers_of env shards);
  if forallb (λ e, bool_decide (fst e = 0%Z)) ends then
    msgs ← deliver (schedule env) (map (λ e, Worker.posted (snd e)) ends);
    Some (rewritten errContent (foldl (on_message true) init msgs))
  else None.

End Main.


(** ** index.js: the input on the command line *)

Module Input.
Import Str Main.

(** [s.endsWith(p)] *)
Definition ends_with (p s : string) : bool :=
  starts_with (String.rev p) (String.rev s).

(** [s.split(c)] for a separator of one character. *)
Fixpoint split_at (c : ascii) (s : string) : list string :=
  match s with
  | EmptyString => [EmptyString]
  | String a s' =>
      if decide (a = c) then EmptyString :: split_at c s'
      else match split_at c s' with
           | [] => [String a EmptyString]
           | l :: ls => String a l :: ls
           end
  end.

(** [s.split(/[\s\t]+/)]: the pieces between the runs of white space.
    [gap] tells that the character before was white space, so that a run
    separates once. *)
Fixpoint split_spaces_from (gap : bool) (s : string) : list string :=
  match s with
  | EmptyString => [EmptyString]
  | String a s' =>
      if is_js_space a then
        if gap then split_spaces_from true s'
        else EmptyString :: split_spaces_from true s'
      else match split_spaces_from false s' with
           | [] => [String a EmptyString]
           | l :: ls => String a l :: ls
           end
  end.

Definition split_spaces (s : string) : list string := split_spaces_from false s.

(** [l.map(u => u.trim()).filter(Boolean)] *)
Definition names (l : list string) : list string :=
  filter (λ u, nonempty u = true) (map trim l).

(** [parseUsernames].  [JSON_names input] stands for [JSON.parse(input)]
    followed by [Array.isArray] and [String] on every element: [None] when
    the text is no JSON or its value no array. *)
Definition parseUsernames (JSON_names : string → option (list string)) (input : string)
    : list string :=
  match
    if starts_with "[" (trim input) && ends_with "]" (trim input)
    then JSON_names input else None
  with
  | Some parsed => names parsed
  | None =>
      if includes "," input then names (split_at ","%char input)
      else if includes " " input || includes tab input then names (split_spaces input)
      else names [input]
  end.

(** What the platform decides: how a JSON text reads, whether
    [fs.existsSync(path.resolve(list))] holds, and [path.sep]. *)
Record platform := Platform {
  JSON_names : string → option (list string);
  existsSync : string → bool;
  sep : string;
}.

Definition word_char (a : ascii) : bool :=
  ((97 <=? code a) && (code a <=? 122)) || ((65 <=? code a) && (code a <=? 90)) ||
  is_digit a || (code a =? 95).

(** [/^[a-zA-Z0-9_]+\./] *)
Fixpoint word_dot_from (seen : bool) (s : string) : bool :=
  match s with
  | EmptyString => false
  | String a s' =>
      if word_char a then word_dot_from true s'
      else seen && bool_decide (a = "."%char)
  end.

Definition word_dot (s : string) : bool := word_dot_from false s.

Definition looksLikeFile (p : platform) (list : string) : bool :=
  includes (sep p) list || (includes "." list && negb (word_dot list)) ||
  bool_decide (MAX_LEN < String.length list).

(** Where the names of a run that is no retry come from. *)
Inductive selection :=
| Names (file content : string)   (* a temporary file, written with [content] *)
| File (list : string)            (* the file at [path.resolve(list)] *)
| Refused.                        (* [process.exit(1)] *)

(** The branch [else if (args.list) ... else ...] of [main], for the text
    [list] of the command line (the empty text for none). *)
Definition select_input (p : platform) (list : string) : selection :=
  if nonempty list then
    match parseUsernames (JSON_names p) list with
    | [] => if existsSync p list then File list else Refused
    | [potentialUsername] =>
        if valid_length potentialUsername && negb (looksLikeFile p list) &&
           negb (existsSync p list)
        then Names ".single-check-temp.txt" (potentialUsername +:+ nl)
        else if existsSync p list then File list else Refused
    | parsedUsernames =>
        match filter (λ u, valid_length u = true) parsedUsernames with
        | [] => Refused
        | validUsernames =>
            Names ".multi-check-temp.txt" (join_lines validUsernames +:+ nl)
        end
    end
  else Refused.

End Input.

(** ** index.js: the arguments of the command line *)

Module Cli.
Import Str.

Section parseArgs.

(** The numbers of JavaScript, and [Number] on a text or on [undefined]
    ([None]). *)
Context {number : Type} (Number : option string → number).

(** The object [r].  [None] stands for [null]; the text that follows an
    option is [args[++i]], which is [undefined] ([Some None]) past the end
    of the arguments. *)
Record parsed := Parsed {
  list : option string;
  workers : option number;
  conc : option number;
  verbose : option bool;
  append : bool;
  retry : bool;
  tag : option (option string);
  from : option (option string);
  start : option number;
  sleep : option number;
  local : bool;
  batch : option number;
}.

Definition initial : parsed :=
  Parsed None None None None false false None None None None false None.

(** The options that stand alone. *)
Inductive switch := Verbose | Append | Retry | Local.

(** The options that take the next argument. *)
Inductive setting := Tag | Workers | Concurrency | Batch | From | Start | Sleep.

Inductive kind :=
| Switch (s : switch)
| Setting (s : setting)
| Name             (* no leading dash *)
| Unknown.         (* a leading dash, and none of the options: skipped *)

Definition is_one_of (a : string) (names : Datatypes.list string) : bool :=
  bool_decide (a ∈ names).

(** The chain of comparisons in the loop. *)
Definition classify (a : string) : kind :=
  if is_one_of a ["-v"; "--verbose"] then Switch Verbose
  else if is_one_of a ["-a"; "--append"] then Switch Append
  else if is_one_of a ["-r"; "--retry"] then Switch Retry
  else if is_one_of a ["-l"; "--local"] then Switch Local
  else if is_one_of a ["-t"; "--tag"] then Setting Tag
  else if is_one_of a ["-w"; "--workers"] then Setting Workers
  else if is_one_of a ["-c"; "--concurrency"] then Setting Concurrency
  else if is_one_of a ["-b"; "--batch"] then Setting Batch
  else if is_one_of a ["-f"; "--from"] then Setting From
  else if is_one_of a ["--start"] then Setting Start
  else if is_one_of a ["-s"; "--sleep"] then Setting Sleep
  else if negb (starts_with "-" a) then Name
  else Unknown.

Definition turn_on (s : switch) (r : parsed) : parsed :=
  match s with
  | Verbose =>
      Parsed (list r) (workers r) (conc r) (Some true) (append r) (retry r) (tag r)
             (from r) (start r) (sleep r) (local r) (batch r)
  | Append =>
      Parsed (list r) (workers r) (conc r) (verbose r) true (retry r) (tag r)
             (from r) (start r) (sleep r) (local r) (batch r)
  | Retry =>
      Parsed (list r) (workers r) (conc r) (verbose r) (append r) true (tag r)
             (from r) (start r) (sleep r) (local r) (batch r)
  | Local =>
      Parsed (list r) (workers r) (conc r) (verbose r) (append r) (retry r) (tag r)
             (from r) (start r) (sleep r) true (batch r)
  end.

Definition assign (s : setting) (v : option string) (r : parsed) : parsed :=
  match s with
  | Tag =>
      Parsed (list r) (workers r) (conc r) (verbose r) (append r) (retry r) (Some v)
             (from r) (start r) (sleep r) (local r) (batch r)
  | Workers =>
      Parsed (list r) (Some (Number v)) (conc r) (verbose r) (append r) (retry r) (tag r)
             (from r) (start r) (sleep r) (local r) (batch r)
  | Concurrency =>
      Parsed (list r) (workers r) (Some (Number v)) (verbose r) (append r) (retry r) (tag r)
             (from r) (start r) (sleep r) (local r) (batch r)
  | Batch =>
      Parsed (list r) (workers r) (conc r) (verbose r) (append r) (retry r) (tag r)
             (from r) (start r) (sleep r) (local r) (Some (Number v))
  | From =>
      Parsed (list r) (workers r) (conc r) (verbose r) (append r) (retry r) (tag r)
             (Some v) (start r) (sleep r) (local r) (batch r)
  | Start =>
      Parsed (list r) (workers r) (conc r) (verbose r) (append r) (retry r) (tag r)
             (from r) (Some (Number v)) (sleep r) (local r) (batch r)
  | Sleep =>
      Parsed (list r) (workers r) (conc r) (verbose r) (append r) (retry r) (tag r)
             (from r) (start r) (Some (Number v)) (local r) (batch r)
  end.

(** The loop over the arguments, from the argument at [i] on. *)
Fixpoint scan (r : parsed) (nonFlagArgs : Datatypes.list string)
    (args : Datatypes.list string) : parsed * Datatypes.list string :=
  match args with
  | [] => (r, nonFlagArgs)
  | a :: rest =>
      match classify a with
      | Switch s => scan (turn_on s r) nonFlagArgs rest
      | Setting s =>
          match rest with
          | [] => (assign s None r, nonFlagArgs)
          | v :: rest' => scan (assign s (Some v) r) nonFlagArgs rest'
          end
      | Name => scan r (nonFlagArgs ++ [a]) rest
      | Unknown => scan r nonFlagArgs rest
      end
  end.

(** [nonFlagArgs.join(' ')] *)
Definition join_spaces (l : Datatypes.list string) : string := JS.join_with " " l.

Definition parseArgs (args : Datatypes.list string) : parsed :=
  let '(r, nonFlagArgs) := scan initial [] args in
  match nonFlagArgs with
  | [] => r
  | _ =>
      Parsed (Some (join_spaces nonFlagArgs)) (workers r) (conc r) (verbose r) (append r)
             (retry r) (tag r) (from r) (start r) (sleep r) (local r) (batch r)
  end.

End parseArgs.

End Cli.

(** ** index.js: a run that is no retry *)

Module Check.
Import Main.

(** A run on the content of the input file, from the list of names to the
    end of the last worker.  [None]: the run does not complete (the input is
    refused, a worker never exits or exits with a code other than 0).
    [Some s]: it completes, and [s] holds the counters and what was written
    to the three output files. *)
Definition check_run (env : environment) (content : string) : option state :=
  us ← usernames (localeCompare env) (options env) content;
  shards ← Shard.shardArray us (workers (options env));
  ends ← mapM id (workers_of env shards);
  if forallb (λ e, bool_decide (fst e = 0%Z)) ends then
    msgs ← deliver (schedule env) (map (λ e, Worker.posted (snd e)) ends);
    Some (foldl (on_message false) init msgs)
  else None.

End Check.
(** * Properties *)

(** ** Sharding *)

Section shard_facts.
Import Shard.
Context {A : Type}.
Implicit Types (arr : list A) (out : list (list A)) (n i j k : nat).

Example shardArray_5_2 :
  shardArray ["a"; "b"; "c"; "d"; "e"] 2 = Some [["a"; "c"; "e"]; ["b"; "d"]].
Proof. reflexivity. Qed.

Example shardArray_no_worker : shardArray ["a"] 0 = None.
Proof. reflexivity. Qed.

Lemma forEach_push_app n out i arr1 arr2 :
  forEach_push n out i (arr1 ++ arr2) =
  forEach_push n out i arr1 ≫= λ out', forEach_push n out' (i + length arr1) arr2.
Proof.
  revert out i. induction arr1 as [|v arr1 IH]; intros out i; simpl.
  - by rewrite Nat.add_0_r.
  - destruct (out !! (i mod n)); [|done].
    rewrite IH. by replace (S i + length arr1) with (i + S (length arr1)) by lia.
Qed.

(** What the buckets hold once the elements of [arr] have been distributed. *)
Record distributed n arr out : Prop := {
  dist_length : length out = n;
  dist_lookup : ∀ k j, k < n → out !! k ≫= (.!! j) = arr !! (j * n + k);
  dist_perm : concat out ≡ₚ arr;
  dist_sublist : Forall (λ s, s `sublist_of` arr) out;
}.

Lemma concat_alter_snoc out k v :
  k < length out → concat (alter (λ b, b ++ [v]) k out) ≡ₚ concat out ++ [v].
Proof.
  revert k. induction out as [|b out IH]; intros [|k] Hk; simpl in *; try lia.
  - rewrite <-!(assoc_L (++)). by rewrite (comm (++) [v]).
  - change (list_alter ?f k out) with (alter f k out).
    rewrite IH; [|lia]. by rewrite (assoc_L (++)).
Qed.

Lemma distributed_nil n : distributed n [] (replicate n []).
Proof.
  split.
  - by rewrite length_replicate.
  - intros k j Hk. by rewrite lookup_replicate_2.
  - induction n; simpl; auto.
  - apply Forall_replicate. constructor.
Qed.

(** The length of a bucket is forced by its contents. *)
Lemma distributed_bucket_length n arr out b :
  0 < n → distributed n arr out → out !! (length arr mod n) = Some b →
  length b = length arr / n.
Proof.
  intros Hn [Hlen Hlk _ _] Hb. set (m := length arr) in *.
  assert (Hm : m mod n < n) by (apply Nat.mod_upper_bound; lia).
  assert (Hdiv : m = m / n * n + m mod n).
  { rewrite (Nat.mul_comm (m / n)). apply Nat.div_mod_eq. }
  assert (H1 : b !! (m / n) = None).
  { pose proof (Hlk (m mod n) (m / n) Hm) as H1. rewrite Hb in H1. simpl in H1.
    rewrite H1, <-Hdiv. by apply lookup_ge_None_2. }
  assert (H2 : arr !! (length b * n + m mod n) = None).
  { rewrite <-(Hlk (m mod n) (length b) Hm), Hb. simpl. by apply lookup_ge_None_2. }
  apply lookup_ge_None in H1, H2. fold m in H2. nia.
Qed.

Lemma distributed_snoc n arr out v :
  0 < n → distributed n arr out →
  distributed n (arr ++ [v]) (alter (λ b, b ++ [v]) (length arr mod n) out).
Proof.
  intros Hn Hd. pose proof Hd as [Hlen Hlk Hperm Hsub].
  set (m := length arr) in *.
  assert (Hm : m mod n < n) by (apply Nat.mod_upper_bound; lia).
  assert (Hdiv : m = m / n * n + m mod n).
  { rewrite (Nat.mul_comm (m / n)). apply Nat.div_mod_eq. }
  assert (is_Some (out !! (m mod n))) as [b Hb].
  { apply lookup_lt_is_Some. lia. }
  pose proof (distributed_bucket_length n arr out b Hn Hd Hb) as Hbl. fold m in Hbl.
  split.
  - by rewrite length_alter.
  - intros k j Hk. destruct (decide (k = m mod n)) as [->|Hne].
    + rewrite list_lookup_alter_eq, Hb. simpl.
      specialize (Hlk (m mod n) j Hm). rewrite Hb in Hlk. simpl in Hlk.
      destruct (decide (j = m / n)) as [->|Hj].
      * rewrite <-Hdiv. rewrite lookup_app_r by lia. rewrite Hbl, Nat.sub_diag.
        rewrite lookup_app_r by done. by rewrite Nat.sub_diag.
      * destruct (decide (j < m / n)).
        -- rewrite lookup_app_l by lia. rewrite (lookup_app_l arr) by (fold m; nia).
           done.
        -- rewrite lookup_ge_None_2 by (rewrite length_app; simpl; lia).
           symmetry. apply lookup_ge_None_2. rewrite length_app. simpl. fold m. nia.
    + rewrite list_lookup_alter_ne by done. rewrite Hlk by done.
      assert (j * n + k ≠ m).
      { intros Heq. apply Hne. rewrite <-Heq. rewrite Nat.add_comm, Nat.Div0.mod_add.
        symmetry. by apply Nat.mod_small. }
      destruct (decide (j * n + k < m)).
      * by rewrite lookup_app_l.
      * rewrite !lookup_ge_None_2; [done| |]; [rewrite length_app; simpl|]; fold m; lia.
  - rewrite concat_alter_snoc by lia. by rewrite Hperm.
  - apply Forall_forall. intros s Hs.
    apply list_elem_of_lookup in Hs as [k Hk].
    destruct (decide (k = m mod n)) as [->|Hne].
    + rewrite list_lookup_alter_eq, Hb in Hk. simplify_eq/=.
      apply sublist_app; [|done].
      by eapply Forall_lookup_1 in Hsub.
    + rewrite list_lookup_alter_ne in Hk by done.
      eapply Forall_lookup_1 in Hsub; [|done].
      by apply sublist_inserts_r.
Qed.

Lemma shardArray_distributed arr n :
  0 < n → ∃ shards, shardArray arr n = Some shards ∧ distributed n arr shards.
Proof.
  intros Hn. unfold shardArray.
  induction arr as [|v arr IH] using rev_ind.
  - eexists; split; [done|]. apply distributed_nil.
  - destruct IH as (out & Hrun & Hd).
    rewrite forEach_push_app, Hrun. simpl.
    assert (is_Some (out !! (length arr mod n))) as [b Hb].
    { apply lookup_lt_is_Some. rewrite (dist_length _ _ _ Hd).
      apply Nat.mod_upper_bound. lia. }
    rewrite Hb. eexists; split; [done|]. by apply distributed_snoc.
Qed.

Lemma sublist_Forall_keep (P : A → Prop) (l1 l2 : list A) :
  l1 `sublist_of` l2 → Forall P l2 → Forall P l1.
Proof.
  induction 1 as [|x l1 l2 _ IH|x l1 l2 _ IH]; intros HP; [done| |].
  - apply Forall_cons in HP as [??]. constructor; auto.
  - apply Forall_cons in HP as [??]. auto.
Qed.

Lemma sublist_StronglySorted (R : relation A) (l1 l2 : list A) :
  l1 `sublist_of` l2 → StronglySorted R l2 → StronglySorted R l1.
Proof.
  induction 1 as [|x l1 l2 Hsub IH|x l1 l2 Hsub IH]; intros Hs; [done| |].
  - apply StronglySorted_inv in Hs as [Hs Hx]. constructor; [auto|].
    by eapply sublist_Forall_keep.
  - apply StronglySorted_inv in Hs as [Hs Hx]. auto.
Qed.

(** C7. Sharding is a function of the sorted key list and the worker count:
    [shardArray] returns [n] shards; the key at index [i] sits in shard
    [i mod n] (at position [i / n]); conversely position [j] of shard [k]
    holds the key of index [j * n + k], so every key is in exactly one shard
    (the shards together are a permutation of the input); and a shard lists
    its keys in the order of the input, hence sorted when the input is. *)
Theorem shardArray_round_robin (arr : list A) (n : nat) :
  0 < n →
  ∃ shards,
    shardArray arr n = Some shards ∧
    length shards = n ∧
    (∀ i v, arr !! i = Some v →
       ∃ s, shards !! (i mod n) = Some s ∧ s !! (i / n) = Some v) ∧
    (∀ k s j v, shards !! k = Some s → s !! j = Some v →
       arr !! (j * n + k) = Some v ∧ (j * n + k) mod n = k) ∧
    concat shards ≡ₚ arr ∧
    (∀ R : relation A, StronglySorted R arr → Forall (StronglySorted R) shards).
Proof.
  intros Hn. destruct (shardArray_distributed arr n Hn) as (shards & Hrun & Hd).
  destruct Hd as [Hlen Hlk Hperm Hsub].
  exists shards. repeat split; try done.
  - intros i v Hi.
    assert (Hm : i mod n < n) by (apply Nat.mod_upper_bound; lia).
    assert (is_Some (shards !! (i mod n))) as [s Hs].
    { apply lookup_lt_is_Some. lia. }
    exists s. split; [done|].
    pose proof (Hlk (i mod n) (i / n) Hm) as H1. rewrite Hs in H1. simpl in H1.
    rewrite H1, <-Hi. f_equal. rewrite (Nat.mul_comm (i / n)).
    symmetry. apply Nat.div_mod_eq.
  - assert (Hk : k < n) by (apply lookup_lt_Some in H; lia).
    rewrite <-(Hlk k j Hk), H. done.
  - assert (Hk : k < n) by (apply lookup_lt_Some in H; lia).
    rewrite Nat.add_comm, Nat.Div0.mod_add. by apply Nat.mod_small.
  - intros R HR. eapply Forall_impl; [exact Hsub|]. simpl.
    intros s Hs. by eapply sublist_StronglySorted.
Qed.

End shard_facts.

Lemma shardArray_round_robin_witness :
  0 < 2 ∧
  ∃ shards,
    Shard.shardArray ["amber"; "Birch"; "cedar"; "dove"; "elm"] 2 = Some shards ∧
    length shards = 2 ∧
    (∀ i v, ["amber"; "Birch"; "cedar"; "dove"; "elm"] !! i = Some v →
       ∃ s, shards !! (i mod 2) = Some s ∧ s !! (i / 2) = Some v) ∧
    (∀ k s j v, shards !! k = Some s → s !! j = Some v →
       ["amber"; "Birch"; "cedar"; "dove"; "elm"] !! (j * 2 + k) = Some v ∧
       (j * 2 + k) mod 2 = k) ∧
    concat shards ≡ₚ ["amber"; "Birch"; "cedar"; "dove"; "elm"] ∧
    (∀ R : relation string,
       StronglySorted R ["amber"; "Birch"; "cedar"; "dove"; "elm"] →
       Forall (StronglySorted R) shards).
Proof.
  split; [lia|].
  apply (shardArray_round_robin ["amber"; "Birch"; "cedar"; "dove"; "elm"] 2). lia.
Defined.

(** ** The concurrency limiter *)

Section limiter_facts.
Import Limiter.
Context {T : Type} `{EqDecision T}.
Implicit Types (s : exec_state T) (l : limiter T) (tr : list (event T)).

(** The invariant of an execution. *)
Record limiter_inv (max : nat) s : Prop := {
  inv_count : length (running s) = active (lim s);
  inv_bound : active (lim s) ≤ max;
  inv_fifo : started s ++ queue (lim s) = submitted s;
  inv_busy : queue (lim s) ≠ [] → active (lim s) = max;
}.

Lemma limiter_inv_init max : limiter_inv max (@init T).
Proof. split; simpl; [done|lia|done|done]. Qed.

Lemma length_remove_first (t : T) (ts : list T) :
  t ∈ ts → S (length (remove_first t ts)) = length ts.
Proof.
  induction ts as [|x ts IH]; intros Hin; [by apply elem_of_nil in Hin|].
  simpl. destruct (decide (x = t)); [done|].
  apply elem_of_cons in Hin as [->|Hin]; [done|]. simpl. by rewrite IH.
Qed.

Lemma limiter_inv_step max s e s' :
  limiter_inv max s → step max s e = Some s' → limiter_inv max s'.
Proof.
  intros [Hc Hb Hf Hq] Hstep. destruct s as [[a q] sub st run]. simpl in *.
  destruct e as [t|t]; simpl in Hstep.
  - unfold submit, next in Hstep. simpl in Hstep.
    destruct (decide (max ≤ a)).
    + injection Hstep as <-. split; simpl; rewrite ?app_nil_r.
      * done.
      * done.
      * by rewrite (assoc_L (++)), Hf.
      * intros _. lia.
    + destruct q as [|t' q]; [|exfalso; specialize (Hq ltac:(done)); lia].
      simpl in Hstep. injection Hstep as <-. split; simpl.
      * rewrite length_app. simpl. lia.
      * lia.
      * rewrite app_nil_r in *. by rewrite Hf.
      * done.
  - destruct (decide (t ∈ run)) as [Hin|]; [|done].
    pose proof (length_remove_first t run Hin) as Hlen.
    unfold settle, next in Hstep. simpl in Hstep.
    destruct (decide (max ≤ a - 1)); [lia|].
    destruct q as [|t' q]; injection Hstep as <-; split; simpl;
      rewrite ?app_nil_r in *.
    + lia.
    + lia.
    + done.
    + done.
    + rewrite length_app. simpl. lia.
    + lia.
    + by rewrite <-(assoc_L (++)).
    + intros _. specialize (Hq ltac:(done)). lia.
Qed.

Lemma limiter_inv_exec_from max s tr s' :
  limiter_inv max s → exec_from max s tr = Some s' → limiter_inv max s'.
Proof.
  revert s. induction tr as [|e tr IH]; intros s Hinv Hexec; simpl in Hexec.
  - by simplify_eq.
  - destruct (step max s e) as [s1|] eqn:Hstep; [|done].
    eapply IH; [|done]. by eapply limiter_inv_step.
Qed.

(** C4. After any sequence of submissions and completions, with any bound
    [max]: the tasks running are exactly [active] many and at most [max];
    the tasks started so far followed by the queue are the tasks submitted,
    in submission order; tasks wait only while [max] are running; and a
    completion starts exactly the head of the queue, if there is one. *)
Theorem pLimit_bounded_fifo (max : nat) tr s :
  exec max tr = Some s →
  length (running s) = active (lim s) ∧
  length (running s) ≤ max ∧
  started s ++ queue (lim s) = submitted s ∧
  (queue (lim s) ≠ [] → length (running s) = max) ∧
  (∀ t s', step max s (Settled t) = Some s' →
     match queue (lim s) with
     | [] => started s' = started s ∧ queue (lim s') = []
     | t' :: q => started s' = started s ++ [t'] ∧ queue (lim s') = q ∧
                  length (running s') = length (running s)
     end).
Proof.
  intros Hexec.
  assert (Hinv : limiter_inv max s).
  { eapply limiter_inv_exec_from; [apply limiter_inv_init|exact Hexec]. }
  pose proof Hinv as [Hc Hb Hf Hq].
  repeat split; try done; try lia.
  - intros Hne. rewrite Hc. auto.
  - intros t s' Hstep.
    pose proof (limiter_inv_step _ _ _ _ Hinv Hstep) as [Hc' _ _ _].
    simpl in Hstep. destruct (decide (t ∈ running s)) as [Hin|]; [|done].
    unfold settle, next in Hstep. simpl in Hstep.
    assert (0 < active (lim s)).
    { rewrite <-Hc. destruct (running s); [by apply elem_of_nil in Hin|simpl; lia]. }
    destruct (decide (max ≤ active (lim s) - 1)); [lia|].
    destruct (queue (lim s)) as [|t' q] eqn:Hqueue; simplify_eq; simpl in *.
    + by rewrite app_nil_r.
    + repeat split; try done. rewrite Hc', Hc. lia.
Qed.

End limiter_facts.

(** A burst of four submissions against a bound of two, then a completion,
    a late submission and another completion. *)
Definition burst : list (Limiter.event nat) :=
  [Limiter.Submit 1; Limiter.Submit 2; Limiter.Submit 3; Limiter.Submit 4;
   Limiter.Settled 2; Limiter.Submit 5; Limiter.Settled 1].

Example burst_exec :
  Limiter.exec 2 burst =
  Some (Limiter.ExecState (Limiter.Limiter 2 [5]) [1; 2; 3; 4; 5] [1; 2; 3; 4] [3; 4]).
Proof. vm_compute. reflexivity. Qed.

Lemma pLimit_bounded_fifo_witness :
  ∃ s, Limiter.exec 2 burst = Some s ∧
       length (Limiter.running s) = Limiter.active (Limiter.lim s) ∧
       length (Limiter.running s) ≤ 2 ∧
       Limiter.started s ++ Limiter.queue (Limiter.lim s) = Limiter.submitted s.
Proof.
  eexists. split; [vm_compute; reflexivity|].
  destruct (pLimit_bounded_fifo 2 burst _ burst_exec) as (H1 & H2 & H3 & _).
  exact (conj H1 (conj H2 H3)).
Defined.

(** ** The retry controller *)

Section retry_facts.
Import JS Worker.
Context {A : Type}.
Implicit Types (fn : M A) (o : oracle) (w : world) (msg : string).

(** The world after the pause that follows a failed attempt number [i]. *)
Definition after_backoff (o : oracle) (w : world) (msg : string) (i : nat) : world :=
  snd ((let* r := Math_random in sleep (backoff (isRateLimit msg) i r)) o w).

(** The world in which attempt number [k] (from 0) starts, when every
    attempt before it failed with an error that [withRetry] retries. *)
Fixpoint attempt_world (fn : M A) (o : oracle) (w : world) (k : nat) : option world :=
  match k with
  | 0 => Some w
  | S k' =>
      match attempt_world fn o w k' with
      | Some wk =>
          match fn o wk with
          | (Thrown msg, w1) =>
              if isRetryable msg then Some (after_backoff o w1 msg k') else None
          | (Val _, _) => None
          end
      | None => None
      end
  end.

Lemma after_backoff_trace o w msg i :
  trace (after_backoff o w msg i) =
  trace w ++ [EvSleep (backoff (isRateLimit msg) i (random o (n_rand w)))].
Proof. reflexivity. Qed.

(** An iteration of the loop, by the outcome of the attempt. *)
Lemma withRetry_loop_ok fn R n i err o w a w1 :
  fn o w = (Val a, w1) →
  withRetry_loop fn R (S n) i err o w = (Val (Ok a), w1).
Proof. intros Hfn. simpl. unfold try_catch, bind. by rewrite Hfn. Qed.

Lemma withRetry_loop_stop fn R n i err o w msg w1 :
  fn o w = (Thrown msg, w1) → isRetryable msg = false ∨ i = R →
  withRetry_loop fn R (S n) i err o w = (Val (Failed msg), w1).
Proof.
  intros Hfn Hstop. simpl. unfold try_catch, bind. rewrite Hfn.
  destruct Hstop as [->| ->]; [done|].
  rewrite bool_decide_eq_true_2 by done. by rewrite orb_true_r.
Qed.

Lemma withRetry_loop_again fn R n i err o w msg w1 :
  fn o w = (Thrown msg, w1) → isRetryable msg = true → i ≠ R →
  withRetry_loop fn R (S n) i err o w =
  withRetry_loop fn R n (S i) (Some msg) o (after_backoff o w1 msg i).
Proof.
  intros Hfn Hre Hne. simpl. unfold try_catch at 1. unfold bind at 1. rewrite Hfn.
  rewrite Hre, bool_decide_eq_false_2 by done. reflexivity.
Qed.



End retry_facts.

Section classification.
Import JS Worker.

(** The messages [checkSingle] throws for a status code. *)
Definition server_error (statusCode : Z) : string :=
  "Server error (" +:+ pretty statusCode +:+ ")".
Definition http_error (statusCode : Z) : string :=
  "HTTP " +:+ pretty statusCode.








End classification.


Section single_query.
Import JS Worker.

(** What [checkSingle] makes of an answer. *)
Definition single_outcome (resp : response) : outcome bool :=
  match resp with
  | NetError msg => Thrown msg
  | Response statusCode b =>
      if (statusCode =? 429)%Z then Thrown "Rate limited"
      else if (500 <=? statusCode)%Z then Thrown (server_error statusCode)
      else if (statusCode <? 200)%Z || (300 <=? statusCode)%Z then
        Thrown (http_error statusCode)
      else
        match b with
        | NotJson msg => Thrown msg
        | Json json =>
            match get_prop json "available" with
            | Some (VBool x) => Val x
            | Some _ => Thrown "Invalid response"
            | None => Thrown (type_error "available")
            end
        end
  end.

(** The world after the delay and the request [r]. *)
Definition after_request (cfg : config) (o : oracle) (w : world) (r : request) : world :=
  snd ((let* _ := delay cfg in pool_request r) o w).

Lemma after_request_n_req cfg o w r : n_req (after_request cfg o w r) = S (n_req w).
Proof.
  unfold after_request, delay, bind. destruct (Qlt_le_dec 0 (sleepMs cfg)); reflexivity.
Qed.

Lemma after_request_trace cfg o w r :
  ∃ ms, trace (after_request cfg o w r) = trace w ++ [EvSleep ms; EvRequest r].
Proof.
  unfold after_request, delay, bind.
  destruct (Qlt_le_dec 0 (sleepMs cfg)); simpl; eexists; by rewrite <-(assoc_L (++)).
Qed.

Lemma after_request_batch cfg o w r :
  batch (after_request cfg o w r) = batch w ∧ posted (after_request cfg o w r) = posted w.
Proof.
  unfold after_request, delay, bind. by destruct (Qlt_le_dec 0 (sleepMs cfg)).
Qed.

Lemma checkSingle_run cfg u o w :
  checkSingle cfg u o w =
  (single_outcome (reply o (n_req w) (GET u)), after_request cfg o w (GET u)).
Proof.
  unfold checkSingle, after_request, delay, bind.
  destruct (Qlt_le_dec 0 (sleepMs cfg)); simpl.
  all: destruct (reply o (n_req w) (GET u)) as [msg|s b]; simpl; [done|].
  all: destruct (s =? 429)%Z; [done|]; destruct (500 <=? s)%Z; [done|].
  all: destruct ((s <? 200)%Z || (300 <=? s)%Z); [done|].
  all: destruct b as [msg|json]; [done|]; unfold prop, bind.
  all: destruct (get_prop json "available") as [[]|]; done.
Qed.

End single_query.

Section retry_claims.
Import JS Worker.


End retry_claims.

(** A service that answers 429 to the first request and [available: true]
    to the second. *)
Definition once_limited : Worker.oracle :=
  Worker.Oracle
    (λ n _, if decide (n = 0) then Worker.Response 429 (Worker.NotJson "Unexpected token")
            else Worker.Response 200 (Worker.Json (JS.VObj [("available", JS.VBool true)])))
    (λ _, 1 # 2) (λ n, Z.of_nat n).

Definition plain : Worker.config := Worker.Config ["abc"] 200 true 0 0 1 1.

(** ** The batch requester *)

Section batch_facts.
Import JS Worker.
Implicit Types (cfg : config) (o : oracle) (w : world) (b : list string).

(** The requests of a trace, in order. *)
Definition requests (tr : list event) : list request :=
  omap (λ e, match e with EvRequest r => Some r | EvSleep _ => None end) tr.

Lemma requests_app tr1 tr2 : requests (tr1 ++ tr2) = requests tr1 ++ requests tr2.
Proof. apply omap_app. Qed.

Lemma after_request_requests cfg o w r :
  requests (trace (after_request cfg o w r)) = requests (trace w) ++ [r].
Proof.
  destruct (after_request_trace cfg o w r) as [ms ->]. by rewrite requests_app.
Qed.

(** The fields of the answer that [checkBatch] takes as a result: a
    response 200 or 201 whose body is a JSON object. *)
Definition accepted (resp : response) : option (list (string * value)) :=
  match resp with
  | Response statusCode (Json (VObj fields)) =>
      if (statusCode =? 200)%Z || (statusCode =? 201)%Z then Some fields else None
  | _ => None
  end.

(** What [checkBatch] returns for an accepted answer: the array [results]
    as it is, or else one record per key, read off the object. *)
Definition batch_results b (fields : list (string * value)) : list value :=
  match assoc "results" fields with
  | VArr results => results
  | _ => map (λ u, record2 u (bool_or_null (assoc u fields))) b
  end.

Lemma try_post_run cfg b o w :
  try_post cfg b o w =
  (Val (batch_results b <$> accepted (reply o (n_req w) (POST b))),
   after_request cfg o w (POST b)).
Proof.
  unfold try_post, after_request, delay, bind.
  destruct (Qlt_le_dec 0 (sleepMs cfg)); simpl.
  all: destruct (reply o (n_req w) (POST b)) as [msg|s [msg|json]]; simpl; [done| |].
  all: destruct ((s =? 200)%Z || (s =? 201)%Z); simpl; try done.
  all: destruct json as [| | | | | |fields]; simpl; try done.
  all: unfold batch_results; destruct (assoc "results" fields); done.
Qed.

(** The record of one key in the fallback: the answer to its own query, a
    success or an error of this key alone. *)
Definition fallback_record (u : string) (resp : response) : value :=
  match single_outcome resp with
  | Val a => record2 u (VBool a)
  | Thrown msg => record3 u VNull msg
  end.

Lemma fallback_one_run cfg u o w :
  fallback_one cfg u o w =
  (Val (fallback_record u (reply o (n_req w) (GET u))), after_request cfg o w (GET u)).
Proof.
  unfold fallback_one, try_catch, bind. rewrite checkSingle_run.
  unfold fallback_record. by destruct (single_outcome _).
Qed.

Lemma map_all_fallback cfg b o w :
  ∃ w',
    map_all b (fallback_one cfg) o w =
      (Val (imap (λ i u, fallback_record u (reply o (n_req w + i) (GET u))) b), w') ∧
    requests (trace w') = requests (trace w) ++ map GET b ∧
    n_req w' = n_req w + length b ∧
    batch w' = batch w ∧ posted w' = posted w.
Proof.
  revert w. induction b as [|u b IH]; intros w; simpl.
  - exists w. rewrite app_nil_r. unfold ret. repeat split; lia.
  - unfold bind at 1. rewrite fallback_one_run.
    destruct (IH (after_request cfg o w (GET u))) as (w' & Hrun & Hreq & Hn & Hb & Hp).
    exists w'. unfold bind at 1. rewrite Hrun. unfold ret.
    rewrite after_request_n_req in *.
    destruct (after_request_batch cfg o w (GET u)) as [Hb' Hp'].
    split; [|split; [|split; [lia|split; congruence]]].
    + rewrite Nat.add_0_r. do 3 f_equal. apply imap_ext. intros i x _. simpl.
      do 2 f_equal. lia.
    + rewrite Hreq, after_request_requests. by rewrite <-(assoc_L (++)).
Qed.

(** [checkBatch], case by case. *)
Lemma checkBatch_single cfg u o w :
  checkBatch cfg [u] o w =
  (match single_outcome (reply o (n_req w) (GET u)) with
   | Val a => Val [record2 u (VBool a)]
   | Thrown msg => Thrown msg
   end, after_request cfg o w (GET u)).
Proof.
  unfold checkBatch, bind. rewrite checkSingle_run. by destruct (single_outcome _).
Qed.

Lemma checkBatch_many cfg b o w :
  length b ≠ 1 →
  checkBatch cfg b o w =
  (let* r := try_post cfg b in
   match r with
   | Some results => ret results
   | None => map_all b (fallback_one cfg)
   end) o w.
Proof. destruct b as [|u [|u' b]]; simpl; done. Qed.

Lemma checkBatch_accepted cfg b o w fields :
  length b ≠ 1 → accepted (reply o (n_req w) (POST b)) = Some fields →
  checkBatch cfg b o w = (Val (batch_results b fields), after_request cfg o w (POST b)).
Proof.
  intros Hb Hacc. rewrite checkBatch_many by done.
  unfold bind. rewrite try_post_run, Hacc. reflexivity.
Qed.

Lemma checkBatch_fallback cfg b o w :
  length b ≠ 1 → accepted (reply o (n_req w) (POST b)) = None →
  ∃ w',
    checkBatch cfg b o w =
      (Val (imap (λ i u, fallback_record u (reply o (S (n_req w) + i) (GET u))) b), w') ∧
    requests (trace w') = requests (trace w) ++ POST b :: map GET b ∧
    n_req w' = S (n_req w) + length b ∧
    batch w' = batch w ∧ posted w' = posted w.
Proof.
  intros Hb Hacc. rewrite checkBatch_many by done.
  unfold bind. rewrite try_post_run, Hacc. simpl.
  destruct (map_all_fallback cfg b o (after_request cfg o w (POST b)))
    as (w' & Hrun & Hreq & Hn & Hbatch & Hposted).
  rewrite after_request_n_req in *.
  destruct (after_request_batch cfg o w (POST b)) as [Hb' Hp'].
  exists w'. split; [done|]. split; [|split; [done|split; congruence]].
  rewrite Hreq, after_request_requests. by rewrite <-(assoc_L (++)).
Qed.

End batch_facts.

(** A service under maintenance: every answer is [{ error: ... }]. *)
Definition maintenance : Worker.oracle :=
  Worker.Oracle
    (λ _ _, Worker.Response 200 (Worker.Json (JS.VObj [("error", JS.VStr "maintenance")])))
    (λ _, 0%Q) (λ n, Z.of_nat n).

(** Two keys per HTTP batch. *)
Definition pairs : Worker.config := Worker.Config ["abc"; "def"] 200 true 0 0 1 2.

(** Against C3 as the specification states it: the body is neither an
    array of records nor a map from key to boolean, and no single-key query
    is issued. *)
Lemma checkBatch_counterexample :
  ∃ w,
    Worker.checkBatch pairs ["abc"; "def"] maintenance Worker.start =
      (Worker.Val [Worker.record2 "abc" JS.VNull; Worker.record2 "def" JS.VNull], w) ∧
    requests (Worker.trace w) = [Worker.POST ["abc"; "def"]].
Proof. eexists. split; vm_compute; reflexivity. Qed.

(** A service without a batch endpoint: it knows [abc] and limits every
    other key. *)
Definition no_batch_endpoint : Worker.oracle :=
  Worker.Oracle
    (λ _ r, match r with
            | Worker.POST _ => Worker.Response 404 (Worker.NotJson "Not Found")
            | Worker.GET "abc" =>
                Worker.Response 200 (Worker.Json (JS.VObj [("available", JS.VBool true)]))
            | Worker.GET _ => Worker.Response 429 (Worker.NotJson "Too Many Requests")
            end)
    (λ _, 0%Q) (λ n, Z.of_nat n).

(** ** The fallback of [checkBatch], its queries side by side *)

Section concurrent_fallback.
Import JS Worker.
Implicit Types (cfg : config) (o : oracle) (w : world) (b : list string).

(** [Promise.all(usernameBatch.map(async (username) => ...))].  [map] calls
    the arrow function for every key in turn, and every call runs up to
    the first [await] of [checkSingle], the pause: the timers of all keys
    are started before anything else happens.  From then on the calls go
    ahead on their own: a query goes out when the timer of its key fires,
    and the call is settled when the answer to its query is there. *)
Inductive phase :=
| Pausing
| InFlight (resp : response)
| Settled (record : value).

(** What the event loop runs next: the timer of key [i] fires, or the
    answer to the query of key [i] arrives. *)
Inductive action :=
| Fire (i : nat)
| Arrive (i : nat).

Global Instance action_eq_dec : EqDecision action.
Proof. solve_decision. Defined.

Local Instance Fire_inj : Inj (=) (=) Fire.
Proof. by intros ?? [=]. Qed.

Local Instance Arrive_inj : Inj (=) (=) Arrive.
Proof. by intros ?? [=]. Qed.

Definition step b o (st : list phase * world) (a : action) : option (list phase * world) :=
  match a with
  | Fire i =>
      match b !! i, st.1 !! i with
      | Some u, Some Pausing =>
          match pool_request (GET u) o st.2 with
          | (Val resp, w') => Some (<[i := InFlight resp]> st.1, w')
          | (Thrown _, _) => None
          end
      | _, _ => None
      end
  | Arrive i =>
      match b !! i, st.1 !! i with
      | Some u, Some (InFlight resp) =>
          Some (<[i := Settled (fallback_record u resp)]> st.1, st.2)
      | _, _ => None
      end
  end.

Fixpoint play b o (sched : list action) (st : list phase * world)
    : option (list phase * world) :=
  match sched with
  | [] => Some st
  | a :: sched' =>
      match step b o st a with
      | Some st' => play b o sched' st'
      | None => None
      end
  end.

(** [Promise.all] is settled when every call is, with the records in the
    order of the keys. *)
Definition collected (ps : list phase) : option (list value) :=
  mapM (λ p, match p with Settled r => Some r | _ => None end) ps.

(** The fallback under the schedule [sched].  [None]: the schedule is not
    one of this batch (it fires a timer twice, has an answer arrive before
    its query, or leaves a call unsettled). *)
Definition fallback cfg b (sched : list action) (o : oracle) (w : world)
    : option (list value * world) :=
  match for_each b (λ _, delay cfg) o w with
  | (Val _, w0) =>
      match play b o sched (replicate (length b) Pausing, w0) with
      | Some (ps, w') => (λ val, (val, w')) <$> collected ps
      | None => None
      end
  | (Thrown _, _) => None
  end.

(** [checkBatch] with the fallback under the schedule [sched]. *)
Definition checkBatch_scheduled cfg b (sched : list action) (o : oracle) (w : world)
    : option (outcome (list value) * world) :=
  match b with
  | [u] => Some ((let* a := checkSingle cfg u in ret [record2 u (VBool a)]) o w)
  | _ =>
      match try_post cfg b o w with
      | (Val (Some results), w1) => Some (Val results, w1)
      | (Val None, w1) => (λ r, (Val r.1, r.2)) <$> fallback cfg b sched o w1
      | (Thrown msg, w1) => Some (Thrown msg, w1)
      end
  end.

(** The keys in the order in which their queries go out. *)
Definition fire_order (sched : list action) : list nat :=
  omap (λ a, match a with Fire i => Some i | Arrive _ => None end) sched.

Fixpoint position (i : nat) (l : list nat) : option nat :=
  match l with
  | [] => None
  | j :: l' => if decide (j = i) then Some 0 else S <$> position i l'
  end.

(** The number of queries that go out before that of key [i]. *)
Definition rank (sched : list action) (i : nat) : nat :=
  default 0 (position i (fire_order sched)).

(** A schedule of a batch of [n] keys: every timer fires once, every
    answer arrives once, and an answer arrives after its query went out.
    Nothing else is asked: a query need not wait for another key. *)
Definition complete (n : nat) (sched : list action) : Prop :=
  sched ≡ₚ map Fire (seq 0 n) ++ map Arrive (seq 0 n) ∧
  ∀ pre post i, sched = pre ++ Arrive i :: post → Fire i ∈ pre.

(** The schedule in which all queries go out before the first answer. *)
Definition all_at_once (n : nat) : list action :=
  map Fire (seq 0 n) ++ map Arrive (seq 0 n).

(** The schedule in which a query goes out when the one before it is
    answered. *)
Definition one_by_one (n : nat) : list action :=
  concat (map (λ i, [Fire i; Arrive i]) (seq 0 n)).

Lemma position_None i l : position i l = None ↔ i ∉ l.
Proof.
  induction l as [|j l IH]; simpl.
  - split; [intros _ ?%elem_of_nil; done|done].
  - destruct (decide (j = i)) as [->|Hne].
    + split; [done|]. intros H. exfalso. apply H. left.
    + rewrite fmap_None, IH, not_elem_of_cons. split; [by intros ?|by intros [_ ?]].
Qed.

Lemma position_Some_elem i l k : position i l = Some k → i ∈ l.
Proof.
  intros Hk. destruct (decide (i ∈ l)) as [|Hn]; [done|].
  apply position_None in Hn. congruence.
Qed.

Lemma position_app_l i l l' k : position i l = Some k → position i (l ++ l') = Some k.
Proof.
  revert k. induction l as [|j l IH]; intros k; simpl; [done|].
  destruct (decide (j = i)); [done|].
  destruct (position i l) as [k'|]; [|done]. simpl. intros [= <-].
  by rewrite (IH k').
Qed.

Lemma position_snoc i l : i ∉ l → position i (l ++ [i]) = Some (length l).
Proof.
  induction l as [|j l IH]; simpl; intros Hi.
  - by rewrite decide_True.
  - apply not_elem_of_cons in Hi as [Hne Hi]. rewrite decide_False by done.
    by rewrite IH.
Qed.

Lemma position_snoc_ne i j l : i ≠ j → position i (l ++ [j]) = position i l.
Proof.
  intros Hne. induction l as [|j' l IH]; simpl.
  - by rewrite decide_False.
  - destruct (decide (j' = i)); [done|]. by rewrite IH.
Qed.

Lemma position_seq i n : i < n → position i (seq 0 n) = Some i.
Proof.
  intros Hi. assert (H : ∀ s, position (s + i) (seq s n) = Some i); [|apply (H 0)].
  revert i Hi. induction n as [|n IH]; intros i Hi s; [lia|]. simpl.
  destruct (decide (s = s + i)) as [Heq|Hne].
  - f_equal. lia.
  - destruct i as [|i]; [lia|].
    replace (s + S i) with (S s + i) by lia. rewrite IH by lia. done.
Qed.

Lemma fire_order_app s1 s2 : fire_order (s1 ++ s2) = fire_order s1 ++ fire_order s2.
Proof. apply omap_app. Qed.

Lemma elem_of_fire_order i sched : i ∈ fire_order sched ↔ Fire i ∈ sched.
Proof.
  unfold fire_order. rewrite list_elem_of_omap. split.
  - intros ([j|j] & Hin & Heq); [|done]. by injection Heq as ->.
  - intros Hin. by exists (Fire i).
Qed.

Lemma fire_order_fires l : fire_order (map Fire l) = l.
Proof. induction l as [|i l IH]; simpl; [done|]. by f_equal. Qed.

Lemma fire_order_arrivals l : fire_order (map Arrive l) = [].
Proof. induction l as [|i l IH]; simpl; done. Qed.

Lemma fire_order_one_by_one n : fire_order (one_by_one n) = seq 0 n.
Proof.
  unfold one_by_one. generalize 0. induction n as [|n IH]; intros s; simpl; [done|].
  f_equal. apply IH.
Qed.

Lemma complete_NoDup n sched : complete n sched → NoDup sched.
Proof.
  intros [Hp _]. rewrite Hp. apply NoDup_app. split; [|split].
  - apply (NoDup_fmap_2 Fire), NoDup_seq.
  - intros a (i & <- & _)%list_elem_of_In%in_map_iff (j & Hj & _)%list_elem_of_In%in_map_iff.
    done.
  - apply (NoDup_fmap_2 Arrive), NoDup_seq.
Qed.

Lemma complete_bound n sched a :
  complete n sched → a ∈ sched → match a with Fire i | Arrive i => i < n end.
Proof.
  intros [Hp _] Ha. rewrite Hp in Ha. apply elem_of_app in Ha as [Ha|Ha];
    apply list_elem_of_In, in_map_iff in Ha as (i & <- & Hi%in_seq); lia.
Qed.

Lemma complete_all n sched i :
  complete n sched → i < n → Fire i ∈ sched ∧ Arrive i ∈ sched.
Proof.
  intros [Hp _] Hi. rewrite Hp. split; apply elem_of_app; [left|right];
    apply list_elem_of_In, in_map, in_seq; lia.
Qed.

Lemma complete_fire_order n sched : complete n sched → fire_order sched ≡ₚ seq 0 n.
Proof.
  intros [Hp _]. unfold fire_order. rewrite Hp, omap_app.
  fold (fire_order (map Fire (seq 0 n))). fold (fire_order (map Arrive (seq 0 n))).
  by rewrite fire_order_fires, fire_order_arrivals, app_nil_r.
Qed.

Lemma all_at_once_complete n : complete n (all_at_once n).
Proof.
  split; [done|]. unfold all_at_once. intros pre post i Heq.
  assert (Hin : Arrive i ∈ map Fire (seq 0 n) ++ map Arrive (seq 0 n))
    by (rewrite Heq; apply elem_of_app; right; left).
  apply elem_of_app in Hin as [Hin|Hin].
  { by apply list_elem_of_In, in_map_iff in Hin as (j & ? & _). }
  apply list_elem_of_In, in_map_iff in Hin as (j & [= ->] & Hi%in_seq).
  apply app_eq_app in Heq as (k & [[Hfires Hk]|[-> _]]).
  - destruct k as [|a k].
    + rewrite app_nil_r in Hfires. subst pre.
      apply list_elem_of_In, in_map, in_seq. lia.
    + exfalso. simpl in Hk. injection Hk as <- _.
      assert (Hin : Arrive i ∈ map Fire (seq 0 n))
        by (rewrite Hfires; apply elem_of_app; right; left).
      by apply list_elem_of_In, in_map_iff in Hin as (j & ? & _).
  - apply elem_of_app. left. apply list_elem_of_In, in_map, in_seq. lia.
Qed.

Lemma one_by_one_complete n : complete n (one_by_one n).
Proof.
  unfold complete, one_by_one. generalize 0 as s. induction n as [|n IH]; intros s.
  - split; [done|]. intros pre post i Heq. by destruct pre.
  - destruct (IH (S s)) as [Hp Hord]. split.
    + simpl. rewrite Hp. rewrite <-Permutation_middle. done.
    + simpl. intros pre post i Heq.
      destruct pre as [|a [|a' pre]]; simplify_eq/=.
      * left.
      * right. right. by eapply Hord.
Qed.

Lemma delay_run cfg o w :
  ∃ d w1, delay cfg o w = (Val tt, w1) ∧ trace w1 = trace w ++ [EvSleep d] ∧
          n_req w1 = n_req w ∧ batch w1 = batch w ∧ posted w1 = posted w.
Proof.
  unfold delay. destruct (Qlt_le_dec 0 (sleepMs cfg)); eexists _, _; by repeat split.
Qed.

(** The pauses of all keys are started, in the order of the keys. *)
Lemma pauses_run cfg b o w :
  ∃ ds w0,
    for_each b (λ _, delay cfg) o w = (Val tt, w0) ∧ length ds = length b ∧
    trace w0 = trace w ++ map EvSleep ds ∧
    n_req w0 = n_req w ∧ batch w0 = batch w ∧ posted w0 = posted w.
Proof.
  revert w. induction b as [|u b IH]; intros w.
  - exists [], w. simpl. by rewrite app_nil_r.
  - destruct (delay_run cfg o w) as (d & w1 & Hd & Htr1 & Hn1 & Hb1 & Hp1).
    destruct (IH w1) as (ds & w0 & Hrun & Hlen & Htr & Hn & Hb & Hp).
    exists (d :: ds), w0. simpl. unfold bind. rewrite Hd, Hrun.
    split; [done|]. split; [by rewrite Hlen|].
    split; [by rewrite Htr, Htr1, <-(assoc_L (++))|].
    split; [congruence|split; congruence].
Qed.

(** The three steps of the arrow function: the pause, the query, and the
    record made of the answer. *)
Lemma fallback_one_steps cfg u o w :
  fallback_one cfg u o w =
  (let* _ := delay cfg in
   let* resp := pool_request (GET u) in
   ret (fallback_record u resp)) o w.
Proof.
  rewrite fallback_one_run. unfold after_request, bind.
  destruct (delay_run cfg o w) as (d & w1 & Hd & _ & Hn & _). rewrite Hd. simpl.
  unfold ret. by rewrite Hn.
Qed.

(** The state after the actions [pre], from the world [w0] in which all
    pauses are started. *)
Definition reached b o (w0 : world) (pre : list action) (st : list phase * world) : Prop :=
  length st.1 = length b ∧
  n_req st.2 = n_req w0 + length (fire_order pre) ∧
  batch st.2 = batch w0 ∧ posted st.2 = posted w0 ∧
  trace st.2 = trace w0 ++ map EvRequest (omap (λ i, GET <$> b !! i) (fire_order pre)) ∧
  ∀ i u, b !! i = Some u →
    (Fire i ∉ pre → st.1 !! i = Some Pausing) ∧
    (∀ k, position i (fire_order pre) = Some k →
       let resp := reply o (n_req w0 + k) (GET u) in
       (Arrive i ∉ pre → st.1 !! i = Some (InFlight resp)) ∧
       (Arrive i ∈ pre → st.1 !! i = Some (Settled (fallback_record u resp)))).

Lemma reached_start b o w0 : reached b o w0 [] (replicate (length b) Pausing, w0).
Proof.
  unfold reached. simpl. rewrite length_replicate, app_nil_r.
  repeat split; try done; try lia.
  intros _. apply lookup_replicate_2. by eapply lookup_lt_Some.
Qed.

(** Every action of a schedule can be taken when its turn comes. *)
Lemma play_reached b o w0 sched : ∀ pre st,
  reached b o w0 pre st →
  NoDup (pre ++ sched) →
  (∀ a, a ∈ sched → match a with Fire i | Arrive i => i < length b end) →
  (∀ p q i, pre ++ sched = p ++ Arrive i :: q → Fire i ∈ p) →
  ∃ st', play b o sched st = Some st' ∧ reached b o w0 (pre ++ sched) st'.
Proof.
  induction sched as [|a sched IH]; intros pre [ps w] Hst Hnodup Hbound Hord.
  - exists (ps, w). by rewrite app_nil_r.
  - assert (Ha : a ∉ pre).
    { apply NoDup_app in Hnodup as (_ & Hdis & _). intros Hin.
      apply (Hdis a Hin). left. }
    assert (Hnext : ∃ st', step b o (ps, w) a = Some st' ∧ reached b o w0 (pre ++ [a]) st').
    { destruct Hst as (Hlen & Hn & Hb & Hp & Htr & Hphase). simpl in *.
      pose proof (Hbound a ltac:(left)) as Hi.
      destruct a as [i|i].
      - destruct (lookup_lt_is_Some_2 b i Hi) as [u Hu].
        destruct (Hphase i u Hu) as [Hpausing _].
        assert (Hnot : Arrive i ∉ pre).
        { intros (p & q & ->)%list_elem_of_split.
          apply Ha. apply elem_of_app. left.
          apply (Hord p (q ++ Fire i :: sched) i). by rewrite <-(assoc_L (++)). }
        assert (Hfresh : i ∉ fire_order pre) by by rewrite elem_of_fire_order.
        eexists. simpl. rewrite Hu, (Hpausing Ha). split; [reflexivity|].
        unfold reached. simpl. rewrite fire_order_app. simpl.
        rewrite length_insert, length_app, omap_app, map_app. simpl. rewrite Hu. simpl.
        split; [done|]. split; [lia|]. split; [done|]. split; [done|].
        split; [by rewrite Htr, <-(assoc_L (++))|].
        intros j v Hv. destruct (decide (i = j)) as [<-|Hne].
        + assert (v = u) as -> by congruence. split.
          * intros Hno. exfalso. apply Hno. apply elem_of_app. right. left.
          * intros k Hk. rewrite position_snoc in Hk by done. injection Hk as <-.
            rewrite list_lookup_insert_eq by lia. rewrite <-Hn. split; [done|].
            intros [Hin|Hin%list_elem_of_singleton]%elem_of_app; done.
        + rewrite list_lookup_insert_ne by done.
          destruct (Hphase j v Hv) as [Hpj Hfj]. split.
          * intros Hno. apply Hpj. intros Hin. apply Hno. apply elem_of_app. by left.
          * intros k Hk. rewrite position_snoc_ne in Hk by done.
            destruct (Hfj k Hk) as [Hfl Hst]. split.
            -- intros Hno. apply Hfl. intros Hin. apply Hno. apply elem_of_app. by left.
            -- intros [Hin|Hin%list_elem_of_singleton]%elem_of_app; [auto|done].
      - destruct (lookup_lt_is_Some_2 b i Hi) as [u Hu].
        assert (Hfired : Fire i ∈ pre) by (by apply (Hord pre sched i)).
        destruct (position i (fire_order pre)) as [k|] eqn:Hk.
        2:{ apply position_None in Hk. by rewrite elem_of_fire_order in Hk. }
        destruct (Hphase i u Hu) as [_ Hfi]. destruct (Hfi k Hk) as [Hflight _].
        eexists. simpl. rewrite Hu, (Hflight Ha). split; [reflexivity|].
        unfold reached. simpl. rewrite fire_order_app. simpl. rewrite app_nil_r.
        rewrite length_insert.
        split; [done|]. split; [done|]. split; [done|]. split; [done|]. split; [done|].
        intros j v Hv. destruct (decide (i = j)) as [<-|Hne].
        + assert (v = u) as -> by congruence. split.
          * intros Hno. exfalso. apply Hno. apply elem_of_app. by left.
          * intros k' Hk'. assert (k' = k) as -> by congruence.
            rewrite list_lookup_insert_eq by lia. split; [|done].
            intros Hno. exfalso. apply Hno. apply elem_of_app. right. left.
        + rewrite list_lookup_insert_ne by done.
          destruct (Hphase j v Hv) as [Hpj Hfj]. split.
          * intros Hno. apply Hpj. intros Hin. apply Hno. apply elem_of_app. by left.
          * intros k' Hk'. destruct (Hfj k' Hk') as [Hfl Hst]. split.
            -- intros Hno. apply Hfl. intros Hin. apply Hno. apply elem_of_app. by left.
            -- intros [Hin|Hin%list_elem_of_singleton]%elem_of_app; [auto|congruence]. }
    destruct Hnext as (st' & Hstep & Hst').
    destruct (IH (pre ++ [a]) st' Hst') as (st'' & Hplay & Hst'').
    + by rewrite <-(assoc_L (++)).
    + intros a' Ha'. apply Hbound. by right.
    + intros p q i. rewrite <-(assoc_L (++)). apply Hord.
    + exists st''. simpl. rewrite Hstep. split; [done|].
      by rewrite <-(assoc_L (++)) in Hst''.
Qed.

Lemma collected_settled (val : list value) : collected (map Settled val) = Some val.
Proof. unfold collected. by apply (mapM_fmap_Some _ Settled). Qed.

Lemma keys_of_order b : omap (λ i, GET <$> b !! i) (seq 0 (length b)) = map GET b.
Proof.
  assert (H : ∀ pre, omap (λ i, GET <$> (pre ++ b) !! i) (seq (length pre) (length b))
                     = map GET b); [|apply (H [])].
  induction b as [|u b IH]; intros pre; simpl; [done|].
  rewrite lookup_app_r by lia. rewrite Nat.sub_diag. simpl. f_equal.
  specialize (IH (pre ++ [u])). rewrite length_app, <-(assoc_L (++)) in IH. simpl in IH.
  by rewrite Nat.add_1_r in IH.
Qed.

(** A complete schedule is played to its end: every key is settled with
    the record of the answer to its own query. *)
Lemma fallback_complete cfg b sched o w :
  complete (length b) sched →
  ∃ ds w',
    fallback cfg b sched o w =
      Some (imap (λ i u, fallback_record u (reply o (n_req w + rank sched i) (GET u))) b,
            w') ∧
    length ds = length b ∧
    trace w' = trace w ++ map EvSleep ds ++
               map EvRequest (omap (λ i, GET <$> b !! i) (fire_order sched)) ∧
    n_req w' = n_req w + length b ∧ batch w' = batch w ∧ posted w' = posted w.
Proof.
  intros Hc. unfold fallback.
  destruct (pauses_run cfg b o w) as (ds & w0 & -> & Hds & Htr0 & Hn0 & Hb0 & Hp0).
  destruct (play_reached b o w0 sched [] _ (reached_start b o w0)) as ([ps w'] & -> & Hst).
  { by apply (complete_NoDup (length b)). }
  { intros a Ha. by apply (complete_bound _ sched). }
  { apply Hc. }
  simpl in Hst. destruct Hst as (Hlen & Hn & Hb & Hp & Htr & Hphase). simpl in *.
  assert (Hps : ps = map Settled
                  (imap (λ i u, fallback_record u (reply o (n_req w + rank sched i) (GET u)))
                        b)).
  { apply list_eq. intros i. change (map Settled) with (fmap (M:=list) Settled).
    rewrite list_lookup_fmap, list_lookup_imap.
    destruct (b !! i) as [u|] eqn:Hu.
    - destruct (complete_all _ _ i Hc) as [Hf Ha]; [by eapply lookup_lt_Some|].
      destruct (position i (fire_order sched)) as [k|] eqn:Hk.
      2:{ apply position_None in Hk. by rewrite elem_of_fire_order in Hk. }
      destruct (Hphase i u Hu) as [_ Hfi]. destruct (Hfi k Hk) as [_ Hsettled].
      rewrite (Hsettled Ha). simpl. unfold rank. rewrite Hk. simpl. by rewrite Hn0.
    - simpl. apply lookup_ge_None. rewrite Hlen. by apply lookup_ge_None. }
  exists ds, w'. rewrite Hps, collected_settled. simpl. split; [done|]. split; [done|].
  split; [by rewrite Htr, Htr0, <-(assoc_L (++))|].
  split; [|split; congruence].
  rewrite Hn, Hn0. f_equal. rewrite (complete_fire_order _ _ Hc). apply length_seq.
Qed.

Lemma checkBatch_scheduled_fallback cfg b sched o w :
  length b ≠ 1 → accepted (reply o (n_req w) (POST b)) = None →
  complete (length b) sched →
  ∃ ds w',
    checkBatch_scheduled cfg b sched o w =
      Some (Val (imap (λ i u, fallback_record u
                                (reply o (S (n_req w) + rank sched i) (GET u))) b),
            w') ∧
    length ds = length b ∧
    trace w' =
      trace (after_request cfg o w (POST b)) ++ map EvSleep ds ++
      map EvRequest (omap (λ i, GET <$> b !! i) (fire_order sched)).
Proof.
  intros Hb Hacc Hc.
  destruct (fallback_complete cfg b sched o (after_request cfg o w (POST b)) Hc)
    as (ds & w' & Hrun & Hds & Htr & _).
  rewrite after_request_n_req in Hrun.
  exists ds, w'. split; [|done].
  unfold checkBatch_scheduled. rewrite try_post_run, Hacc. simpl. rewrite Hrun.
  destruct b as [|u [|u' b']]; simpl in *; done.
Qed.

(** When all timers have fired and no answer is there yet, the queries of
    all keys are on their way. *)
Lemma all_in_flight cfg b o w :
  ∃ w0 w2,
    for_each b (λ _, delay cfg) o w = (Val tt, w0) ∧
    play b o (map Fire (seq 0 (length b))) (replicate (length b) Pausing, w0) =
      Some (imap (λ i u, InFlight (reply o (n_req w + i) (GET u))) b, w2) ∧
    requests (trace w2) = requests (trace w) ++ map GET b.
Proof.
  destruct (pauses_run cfg b o w) as (ds & w0 & Hrun & Hds & Htr0 & Hn0 & _).
  destruct (play_reached b o w0 (map Fire (seq 0 (length b))) [] _ (reached_start b o w0))
    as ([ps w2] & Hplay & Hst).
  { apply (NoDup_fmap_2 Fire), NoDup_seq. }
  { intros a (i & <- & Hi%in_seq)%list_elem_of_In%in_map_iff. lia. }
  { intros p q i Heq.
    assert (Hin : Arrive i ∈ map Fire (seq 0 (length b)))
      by (simpl in Heq; rewrite Heq; apply elem_of_app; right; left).
    by apply list_elem_of_In, in_map_iff in Hin as (j & ? & _). }
  simpl in Hst. destruct Hst as (Hlen & _ & _ & _ & Htr & Hphase). simpl in *.
  rewrite fire_order_fires in *.
  exists w0, w2. split; [done|]. split.
  - rewrite Hplay. do 2 f_equal. apply list_eq. intros i. rewrite list_lookup_imap.
    destruct (b !! i) as [u|] eqn:Hu.
    + destruct (Hphase i u Hu) as [_ Hfi].
      destruct (Hfi i (position_seq _ _ (lookup_lt_Some _ _ _ Hu))) as [Hflight _].
      rewrite Hflight, Hn0; [done|].
      intros (j & ? & _)%list_elem_of_In%in_map_iff. done.
    + simpl. apply lookup_ge_None. rewrite Hlen. by apply lookup_ge_None.
  - rewrite Htr, Htr0, keys_of_order, !requests_app.
    assert (Hsleeps : requests (map EvSleep ds) = []).
    { clear. induction ds as [|d ds IH]; simpl; done. }
    assert (Hreqs : ∀ l, requests (map EvRequest l) = l).
    { clear. induction l as [|r l IH]; simpl; [done|]. by f_equal. }
    by rewrite Hsleeps, Hreqs, app_nil_r.
Qed.

(** C3, amended.  For a batch of one key, one single-key query is issued
    and nothing else.  For any other batch the batched call is issued
    first.  When its answer is a response 200 or 201 whose body is a JSON
    object, no single-key query is issued: the array [results] of the
    object is returned as it is, and an object without such an array is
    read as a map from key to boolean, whatever it holds.  In every other
    case (the call failed or timed out, the status is another one, the
    body is no JSON, or the JSON is [null], a number, a string, a boolean
    or an array) the keys are queried one by one, concurrently.  The arrow
    function of a key pauses, queries, and makes a record of the answer;
    under every schedule of [checkBatch_scheduled] the pauses of all keys
    are started before any query, and then the queries go out and are
    answered in any order, the query of a key never waiting for another
    key; all of them can be on their way at once.  Whatever the order,
    every key is queried once and gets a record of its own: its
    availability, or the error of its own query.  When the queries go out
    in the order of the keys, the records are those that [checkBatch]
    returns when it takes the keys one after the other. *)
Theorem checkBatch_fallback_protocol cfg b o w :
  (∀ u sched, b = [u] →
     checkBatch_scheduled cfg b sched o w = Some (checkBatch cfg b o w) ∧
     checkBatch cfg b o w =
       (match single_outcome (reply o (n_req w) (GET u)) with
        | Val a => Val [record2 u (VBool a)]
        | Thrown msg => Thrown msg
        end, after_request cfg o w (GET u)) ∧
     requests (trace (after_request cfg o w (GET u))) = requests (trace w) ++ [GET u]) ∧
  (length b ≠ 1 →
     match accepted (reply o (n_req w) (POST b)) with
     | Some fields =>
         (∀ sched, checkBatch_scheduled cfg b sched o w = Some (checkBatch cfg b o w)) ∧
         checkBatch cfg b o w =
           (Val (match assoc "results" fields with
                 | VArr results => results
                 | _ => map (λ u, record2 u (bool_or_null (assoc u fields))) b
                 end),
            after_request cfg o w (POST b)) ∧
         requests (trace (after_request cfg o w (POST b))) =
           requests (trace w) ++ [POST b]
     | None =>
         (∀ u w0, fallback_one cfg u o w0 =
                  (let* _ := delay cfg in
                   let* resp := pool_request (GET u) in
                   ret (fallback_record u resp)) o w0) ∧
         (∀ sched, complete (length b) sched →
            ∃ ds w',
              checkBatch_scheduled cfg b sched o w =
                Some (Val (imap (λ i u, fallback_record u
                                          (reply o (S (n_req w) + rank sched i) (GET u))) b),
                      w') ∧
              length ds = length b ∧
              trace w' =
                trace (after_request cfg o w (POST b)) ++ map EvSleep ds ++
                map EvRequest (omap (λ i, GET <$> b !! i) (fire_order sched)) ∧
              requests (trace w') ≡ₚ requests (trace w) ++ POST b :: map GET b) ∧
         complete (length b) (all_at_once (length b)) ∧
         complete (length b) (one_by_one (length b)) ∧
         (∃ w0 w2,
            for_each b (λ _, delay cfg) o (after_request cfg o w (POST b)) = (Val tt, w0) ∧
            play b o (map Fire (seq 0 (length b))) (replicate (length b) Pausing, w0) =
              Some (imap (λ i u, InFlight (reply o (S (n_req w) + i) (GET u))) b, w2)) ∧
         (∀ sched, complete (length b) sched → fire_order sched = seq 0 (length b) →
            ∃ w' w'',
              checkBatch_scheduled cfg b sched o w =
                Some (Val (imap (λ i u, fallback_record u
                                          (reply o (S (n_req w) + i) (GET u))) b), w') ∧
              checkBatch cfg b o w =
                (Val (imap (λ i u, fallback_record u
                                     (reply o (S (n_req w) + i) (GET u))) b), w'') ∧
              requests (trace w') = requests (trace w) ++ POST b :: map GET b ∧
              requests (trace w'') = requests (trace w) ++ POST b :: map GET b)
     end).
Proof.
  split.
  - intros u sched ->. split; [done|].
    split; [apply checkBatch_single|apply after_request_requests].
  - intros Hb. destruct (accepted _) as [fields|] eqn:Hacc.
    + split; [|split; [by apply checkBatch_accepted|apply after_request_requests]].
      intros sched. rewrite (checkBatch_accepted cfg b o w fields Hb Hacc).
      unfold checkBatch_scheduled. rewrite try_post_run, Hacc. simpl.
      destruct b as [|u [|u' b']]; simpl in *; done.
    + split; [intros; apply fallback_one_steps|].
      split; [|split; [apply all_at_once_complete|split; [apply one_by_one_complete|split]]].
      2:{ destruct (all_in_flight cfg b o (after_request cfg o w (POST b)))
            as (w0 & w2 & Hpauses & Hplay & _).
          rewrite after_request_n_req in Hplay. by exists w0, w2. }
      * intros sched Hc.
        destruct (checkBatch_scheduled_fallback cfg b sched o w Hb Hacc Hc)
          as (ds & w' & Hrun & Hds & Htr).
        exists ds, w'. split; [done|]. split; [done|]. split; [done|].
        rewrite Htr, !requests_app, after_request_requests.
        assert (Hsleeps : requests (map EvSleep ds) = []).
        { clear. induction ds as [|d ds IH]; simpl; done. }
        assert (Hreqs : ∀ l, requests (map EvRequest l) = l).
        { clear. induction l as [|r l IH]; simpl; [done|]. by f_equal. }
        rewrite Hsleeps, Hreqs. simpl.
        rewrite (complete_fire_order _ _ Hc), keys_of_order, <-(assoc_L (++)). done.
      * intros sched Hc Horder.
        destruct (checkBatch_scheduled_fallback cfg b sched o w Hb Hacc Hc)
          as (ds & w' & Hrun & Hds & Htr).
        destruct (checkBatch_fallback cfg b o w Hb Hacc) as (w'' & Hseq & Hreq'' & _).
        exists w', w''.
        assert (Hsame : imap (λ i u, fallback_record u
                                       (reply o (S (n_req w) + rank sched i) (GET u))) b =
                        imap (λ i u, fallback_record u
                                       (reply o (S (n_req w) + i) (GET u))) b).
        { apply imap_ext. intros i u Hu. unfold rank.
          rewrite Horder, position_seq by (by eapply lookup_lt_Some). done. }
        rewrite <-Hsame. split; [done|]. split; [by rewrite Hsame|]. split; [|done].
        rewrite Htr, !requests_app, after_request_requests.
        assert (Hsleeps : requests (map EvSleep ds) = []).
        { clear. induction ds as [|d ds IH]; simpl; done. }
        assert (Hreqs : ∀ l, requests (map EvRequest l) = l).
        { clear. induction l as [|r l IH]; simpl; [done|]. by f_equal. }
        rewrite Hsleeps, Hreqs, Horder, keys_of_order, <-(assoc_L (++)). done.
Qed.

End concurrent_fallback.

(** The timer of [def] fires before that of [abc], and both queries are on
    their way before the first answer. *)
Definition second_first : list action := [Fire 1; Fire 0; Arrive 0; Arrive 1].

Lemma second_first_complete : complete 2 second_first.
Proof.
  split; [apply perm_swap|]. unfold second_first. intros pre post i Heq.
  destruct pre as [|? [|? [|? [|? [|? pre]]]]]; simplify_eq/=; by repeat constructor.
Qed.

Lemma checkBatch_fallback_protocol_witness :
  length ["abc"; "def"] ≠ 1 ∧
  complete 2 second_first ∧
  ∃ w',
    checkBatch_scheduled pairs ["abc"; "def"] second_first no_batch_endpoint Worker.start =
      Some (Worker.Val [Worker.record2 "abc" (JS.VBool true);
                        Worker.record3 "def" JS.VNull "Rate limited"], w') ∧
    requests (Worker.trace w') =
      [Worker.POST ["abc"; "def"]; Worker.GET "def"; Worker.GET "abc"].
Proof.
  split; [simpl; lia|]. split; [exact second_first_complete|].
  pose proof (proj2 (checkBatch_fallback_protocol pairs ["abc"; "def"] no_batch_endpoint
                       Worker.start) ltac:(simpl; lia)) as H.
  assert (Hacc : accepted (Worker.reply no_batch_endpoint (Worker.n_req Worker.start)
                             (Worker.POST ["abc"; "def"])) = None) by reflexivity.
  rewrite Hacc in H. destruct H as (_ & Hall & _).
  destruct (Hall second_first second_first_complete) as (ds & w' & Hrun & _ & _ & _).
  exists w'. split; [exact Hrun|].
  vm_compute in Hrun. injection Hrun as <-. vm_compute. reflexivity.
Defined.

(** *** Two errors that the pattern takes for what they are not *)




(** ** Emission of results *)

Section emission.
Import JS Worker.
Implicit Types (cfg : config) (o : oracle) (w : world) (b : list string).

(** Everything pushed so far: what was posted, then what waits in [batch]. *)
Definition all_results (w : world) : list CheckResult :=
  concat (map results_of (posted w)) ++ batch w.

(** Two worlds that differ in [batch] and [posted] at most. *)
Definition same_io (w w' : world) : Prop :=
  n_req w' = n_req w ∧ n_rand w' = n_rand w ∧ n_clock w' = n_clock w ∧
  trace w' = trace w.

Lemma same_io_refl w : same_io w w.
Proof. by repeat split. Qed.

Lemma same_io_trans w1 w2 w3 : same_io w1 w2 → same_io w2 w3 → same_io w1 w3.
Proof. unfold same_io. intros (?&?&?&?) (?&?&?&?). repeat split; congruence. Qed.

Lemma flush_run o w :
  ∃ w', flush o w = (Val tt, w') ∧ all_results w' = all_results w ∧
        batch w' = [] ∧ same_io w w'.
Proof.
  unfold flush, all_results. destruct (batch w) as [|r [|r' rs]] eqn:Hb.
  - exists w. rewrite Hb. repeat split; done.
  - eexists. split; [done|]. simpl. rewrite map_app, concat_app. simpl.
    rewrite !app_nil_r. repeat split; done.
  - eexists. split; [done|]. simpl. rewrite map_app, concat_app. simpl.
    rewrite !app_nil_r. repeat split; done.
Qed.

Lemma push_run cfg r o w :
  ∃ w', push cfg r o w = (Val tt, w') ∧ all_results w' = all_results w ++ [r] ∧
        same_io w w'.
Proof.
  unfold push. destruct (decide _).
  - destruct (flush_run o (World (n_req w) (n_rand w) (n_clock w) (trace w)
                                 (batch w ++ [r]) (posted w)))
      as (w' & Hrun & Hall & _ & Hio).
    exists w'. split; [done|]. split; [|done].
    rewrite Hall. unfold all_results. simpl. by rewrite (assoc_L (++)).
  - eexists. split; [done|]. unfold all_results. simpl.
    split; [by rewrite (assoc_L (++))|]. by repeat split.
Qed.

(** The result that [run] makes of one element of [results.val]; none for
    [null] and [undefined], where reading a property throws. *)
Definition to_result (ttc : Z) (r : value) : option CheckResult :=
  u ← get_prop r "username";
  a ← get_prop r "available";
  e ← get_prop r "error";
  Some (Result u a ttc (or_else e VNull)).

(** The results pushed for the array [val]: the loop stops at the first
    element that throws. *)
Fixpoint pushed_of (ttc : Z) (val : list value) : list CheckResult :=
  match val with
  | [] => []
  | r :: val' =>
      match to_result ttc r with
      | Some x => x :: pushed_of ttc val'
      | None => []
      end
  end.

Lemma push_results_run cfg ttc val o w :
  ∃ res w',
    for_each val (λ r,
      let* u := prop r "username" in
      let* a := prop r "available" in
      let* e := prop r "error" in
      push cfg (Result u a ttc (or_else e VNull))) o w = (res, w') ∧
    all_results w' = all_results w ++ pushed_of ttc val ∧ same_io w w' ∧
    (Forall (λ r, is_Some (get_prop r "username")) val → res = Val tt).
Proof.
  revert w. induction val as [|r val IH]; intros w; simpl.
  - exists (Val tt), w. rewrite app_nil_r. repeat split; done.
  - unfold bind at 1. unfold bind at 1. unfold prop at 1.
    destruct (get_prop r "username") as [u|] eqn:Hu.
    + assert (get_prop r "available" = Some (match r with VObj f => assoc "available" f | _ => VUndef end)
              ∧ get_prop r "error" = Some (match r with VObj f => assoc "error" f | _ => VUndef end))
        as [Ha He] by (destruct r; done).
      unfold ret at 1. unfold bind at 1. unfold prop at 1. rewrite Ha.
      unfold ret at 1. unfold bind at 1. unfold prop at 1. rewrite He.
      unfold ret at 1.
      destruct (push_run cfg (Result u (match r with VObj f => assoc "available" f | _ => VUndef end)
                                ttc (or_else (match r with VObj f => assoc "error" f | _ => VUndef end) VNull)) o w)
        as (w1 & Hpush & Hall1 & Hio1).
      rewrite Hpush.
      destruct (IH w1) as (res & w' & Hrun & Hall & Hio & Hok).
      exists res, w'. split; [done|].
      unfold to_result. rewrite Hu, Ha, He. simpl.
      split; [|split].
      * rewrite Hall, Hall1. by rewrite <-(assoc_L (++)).
      * by eapply same_io_trans.
      * intros HF. apply Forall_cons in HF as [_ HF]. auto.
    + unfold throw. eexists _, w. split; [done|].
      unfold to_result. rewrite Hu. simpl. rewrite app_nil_r.
      split; [done|]. split; [apply same_io_refl|].
      intros HF. apply Forall_cons in HF as [[? HF] _]. congruence.
Qed.

Lemma push_failures_run cfg ttc err b o w :
  ∃ w',
    for_each b (λ u, push cfg (Result (VStr u) VNull ttc (VStr err))) o w = (Val tt, w') ∧
    all_results w' = all_results w ++ map (λ u, Result (VStr u) VNull ttc (VStr err)) b ∧
    same_io w w'.
Proof.
  revert w. induction b as [|u b IH]; intros w; simpl.
  - exists w. rewrite app_nil_r. repeat split; done.
  - unfold bind at 1.
    destruct (push_run cfg (Result (VStr u) VNull ttc (VStr err)) o w)
      as (w1 & Hpush & Hall1 & Hio1).
    rewrite Hpush. destruct (IH w1) as (w' & Hrun & Hall & Hio).
    exists w'. split; [done|]. split; [|by eapply same_io_trans].
    rewrite Hall, Hall1. by rewrite <-(assoc_L (++)).
Qed.

End emission.

(** ** One task of a worker *)

Section task_facts.
Import JS Worker.
Implicit Types (cfg : config) (o : oracle) (w : world) (b : list string).

(** A request that concerns keys of the batch [b] only. *)
Definition within (b : list string) (r : request) : Prop :=
  match r with
  | GET u => u ∈ b
  | POST us => us = b
  end.

(** From [w] to [w'] the worker asked for keys of [b] only. *)
Definition asks (b : list string) (w w' : world) : Prop :=
  ∃ reqs, requests (trace w') = requests (trace w) ++ reqs ∧ Forall (within b) reqs.

(** From [w] to [w'] nothing was pushed or posted. *)
Definition quiet (w w' : world) : Prop := batch w' = batch w ∧ posted w' = posted w.

Lemma asks_refl b w : asks b w w.
Proof. exists []. by rewrite app_nil_r. Qed.

Lemma asks_trans b w1 w2 w3 : asks b w1 w2 → asks b w2 w3 → asks b w1 w3.
Proof.
  intros (r1 & H1 & F1) (r2 & H2 & F2). exists (r1 ++ r2). split.
  - by rewrite H2, H1, (assoc_L (++)).
  - by apply Forall_app.
Qed.

Lemma asks_same_io b w w' : same_io w w' → asks b w w'.
Proof. intros (_ & _ & _ & Htr). exists []. by rewrite Htr, app_nil_r. Qed.

Lemma quiet_refl w : quiet w w.
Proof. done. Qed.

Lemma quiet_trans w1 w2 w3 : quiet w1 w2 → quiet w2 w3 → quiet w1 w3.
Proof. unfold quiet. intros [??] [??]. split; congruence. Qed.

Lemma after_request_asks cfg o w b r : within b r → asks b w (after_request cfg o w r).
Proof.
  intros Hr. exists [r]. split; [apply after_request_requests|]. by constructor.
Qed.

Lemma after_backoff_asks b o w msg i : asks b w (after_backoff o w msg i) ∧
                                        quiet w (after_backoff o w msg i).
Proof.
  split; [|done]. exists []. rewrite after_backoff_trace, requests_app, app_nil_r.
  simpl. by rewrite app_nil_r.
Qed.

(** The records [a] are those of the keys of [b], one each, in order. *)
Definition keyed (b : list string) (a : list value) : Prop :=
  map (λ r, get_prop r "username") a = map (λ u, Some (VStr u)) b.

(** The array [a] was sent by the service as the [results] of a batch. *)
Definition sent_for (o : oracle) (b : list string) (a : list value) : Prop :=
  ∃ n fields, accepted (reply o n (POST b)) = Some fields ∧
              assoc "results" fields = VArr a.

Lemma keyed_imap b (f : nat → string → value) :
  (∀ i u, get_prop (f i u) "username" = Some (VStr u)) → keyed b (imap f b).
Proof.
  intros Hf. unfold keyed. revert f Hf. induction b as [|u b IH]; intros f Hf; simpl; [done|].
  rewrite Hf. f_equal. apply (IH (f ∘ S)). intros i u'. apply Hf.
Qed.

Lemma keyed_map b (f : string → value) :
  (∀ u, get_prop (f u) "username" = Some (VStr u)) → keyed b (map f b).
Proof.
  intros Hf. unfold keyed. induction b as [|u b IH]; simpl; [done|]. by rewrite Hf, IH.
Qed.

Lemma fallback_record_username u resp :
  get_prop (fallback_record u resp) "username" = Some (VStr u).
Proof. unfold fallback_record. by destruct (single_outcome resp). Qed.

Lemma checkBatch_effect cfg b o w res w' :
  checkBatch cfg b o w = (res, w') →
  asks b w w' ∧ quiet w w' ∧
  ∀ a, res = Val a → keyed b a ∨ (length b ≠ 1 ∧ sent_for o b a).
Proof.
  intros Hrun. destruct (decide (length b = 1)) as [Hone|Hmany].
  - destruct b as [|u [|??]]; try done. rewrite checkBatch_single in Hrun.
    injection Hrun as <- <-. split; [|split].
    + apply after_request_asks. simpl. left.
    + apply after_request_batch.
    + intros a Ha. left. destruct (single_outcome _); [|done]. by injection Ha as <-.
  - destruct (accepted (reply o (n_req w) (POST b))) as [fields|] eqn:Hacc.
    + rewrite (checkBatch_accepted _ _ _ _ fields) in Hrun by done.
      injection Hrun as <- <-. split; [|split].
      * by apply after_request_asks.
      * apply after_request_batch.
      * intros a [= <-]. unfold batch_results.
        destruct (assoc "results" fields) as [| | | | |results|] eqn:Hres;
          try (left; by apply keyed_map).
        right. split; [done|]. by exists (n_req w), fields.
    + destruct (checkBatch_fallback cfg b o w Hmany Hacc)
        as (w1 & Hrun1 & Hreq & _ & Hb & Hp).
      rewrite Hrun1 in Hrun. injection Hrun as <- <-. split; [|split].
      * exists (POST b :: map GET b). split; [done|]. constructor; [done|].
        apply Forall_forall. intros r Hr. apply list_elem_of_In, in_map_iff in Hr
          as (u & <- & Hu). by apply list_elem_of_In.
      * done.
      * intros a [= <-]. left. apply keyed_imap. intros. apply fallback_record_username.
Qed.

(** What [withRetry] returns comes from one of the attempts. *)
Lemma withRetry_loop_effect {A} (fn : M A) (Rel : world → world → Prop) (Q : A → Prop)
    R o :
  (∀ w, Rel w w) → (∀ w1 w2 w3, Rel w1 w2 → Rel w2 w3 → Rel w1 w3) →
  (∀ w msg i, Rel w (after_backoff o w msg i)) →
  (∀ w res w', fn o w = (res, w') → Rel w w' ∧ ∀ a, res = Val a → Q a) →
  ∀ n i err w res w',
    withRetry_loop fn R n i err o w = (res, w') →
    Rel w w' ∧ ∃ r, res = Val r ∧ match r with Ok a => Q a | Failed _ => True end.
Proof.
  intros Hrefl Htrans Hsleep Hfn n.
  induction n as [|n IH]; intros i err w res w' Hrun; simpl in Hrun.
  - injection Hrun as <- <-. split; [done|]. by eexists (Failed _).
  - unfold try_catch at 1 in Hrun. unfold bind at 1 in Hrun.
    destruct (fn o w) as [[a|msg] w1] eqn:Hattempt.
    + injection Hrun as <- <-. destruct (Hfn _ _ _ Hattempt) as [? HQ].
      split; [done|]. exists (Ok a). split; [done|]. by apply HQ.
    + destruct (Hfn _ _ _ Hattempt) as [Hw1 _].
      destruct (negb (isRetryable msg) || bool_decide (i = R)).
      * injection Hrun as <- <-. split; [done|]. by exists (Failed msg).
      * apply IH in Hrun as [Hrel Hres]. split; [|done].
        eapply Htrans; [exact Hw1|]. eapply Htrans; [|exact Hrel]. apply Hsleep.
Qed.

Lemma Date_now_run o w :
  ∃ w', Date_now o w = (Val (clock o (n_clock w)), w') ∧
        trace w' = trace w ∧ n_req w' = n_req w ∧ quiet w w'.
Proof. eexists. by repeat split. Qed.

Lemma keyed_pushed b ttc a :
  keyed b a →
  map username (pushed_of ttc a) = map VStr b ∧
  Forall (λ r, is_Some (get_prop r "username")) a.
Proof.
  unfold keyed. revert b. induction a as [|r a IH]; intros [|u b] Hk; simpl in *; try done.
  injection Hk as Hu Hk. destruct (IH b Hk) as [Hmap HF].
  split; [|constructor; [by eexists|done]].
  unfold to_result. rewrite Hu. simpl.
  assert (is_Some (get_prop r "available") ∧ is_Some (get_prop r "error")) as [[x ->] [y ->]].
  { destruct r; simpl in *; try done; split; by eexists. }
  simpl. by rewrite Hmap.
Qed.

(** One task: it asks for keys of its batch only, and it pushes one result
    per key of the batch, unless the service answered the batch with an
    array [results], whose elements it pushes instead. *)
Lemma task_run cfg b o w :
  ∃ res w' rs,
    task cfg b o w = (res, w') ∧ asks b w w' ∧
    all_results w' = all_results w ++ rs ∧
    ((res = Val tt ∧ map username rs = map VStr b) ∨
     (∃ a ttc, length b ≠ 1 ∧ sent_for o b a ∧ rs = pushed_of ttc a ∧
               (Forall (λ r, is_Some (get_prop r "username")) a → res = Val tt))).
Proof.
  unfold task. unfold bind at 1.
  destruct (Date_now_run o w) as (w0 & -> & Htr0 & _ & Hq0).
  destruct (withRetry (checkBatch cfg b) default_retries o w0) as [res1 w1] eqn:Hretry.
  unfold bind at 1. rewrite Hretry.
  apply (withRetry_loop_effect (checkBatch cfg b)
           (λ w w', asks b w w' ∧ quiet w w')
           (λ a, keyed b a ∨ (length b ≠ 1 ∧ sent_for o b a))) in Hretry.
  2:{ intros. split; [apply asks_refl|apply quiet_refl]. }
  2:{ intros ??? [??] [??]. split; [by eapply asks_trans|by eapply quiet_trans]. }
  2:{ intros. apply after_backoff_asks. }
  2:{ intros w2 res2 w3 H2. apply checkBatch_effect in H2 as (? & ? & ?). done. }
  destruct Hretry as [[Hasks Hquiet] (r & -> & Hr)].
  unfold bind at 1.
  destruct (Date_now_run o w1) as (w2 & -> & Htr2 & _ & Hq2).
  set (ttc := (clock o (n_clock w1) - clock o (n_clock w))%Z).
  assert (Hasks2 : asks b w w2).
  { destruct Hasks as (reqs & Hreqs & HF). exists reqs. by rewrite Htr2, Hreqs, Htr0. }
  assert (Hall2 : all_results w2 = all_results w).
  { unfold all_results. destruct Hq2 as [-> ->], Hquiet as [-> ->], Hq0 as [-> ->]. done. }
  destruct r as [a|err].
  - destruct (push_results_run cfg (ttc / Z.of_nat (length b))%Z a o w2)
      as (res & w' & Hrun & Hall & Hio & Hok).
    exists res, w', (pushed_of (ttc / Z.of_nat (length b))%Z a).
    split; [done|]. split; [|split; [by rewrite Hall, Hall2|]].
    { eapply asks_trans; [done|]. by apply asks_same_io. }
    destruct Hr as [Hkeyed|[Hlen Hsent]].
    + left. apply (keyed_pushed _ (ttc / Z.of_nat (length b))%Z) in Hkeyed as [??]. auto.
    + right. by exists a, (ttc / Z.of_nat (length b))%Z.
  - destruct (push_failures_run cfg ttc err b o w2) as (w' & Hrun & Hall & Hio).
    exists (Val tt), w', (map (λ u, Result (VStr u) VNull ttc (VStr err)) b).
    split; [done|]. split; [|split; [by rewrite Hall, Hall2|]].
    { eapply asks_trans; [done|]. by apply asks_same_io. }
    left. split; [done|]. rewrite map_map. simpl. done.
Qed.

End task_facts.

(** ** A run of a worker *)

Section run_facts.
Import JS Worker.
Implicit Types (cfg : config) (o : oracle) (w : world) (b : list string).

(** The loop that cuts the shard into batches ends when the batch size is
    positive, and the batches, none of them empty, make up the shard. *)
Lemma httpBatches_from_concat fuel size i us :
  0 < size → length us - i < fuel →
  ∃ bs, httpBatches_from fuel size i us = Some bs ∧ concat bs = drop i us ∧
        Forall (λ b, 0 < length b ≤ size) bs.
Proof.
  intros Hsize. revert i. induction fuel as [|fuel IH]; intros i Hfuel; [lia|]. simpl.
  destruct (decide (i < length us)) as [Hi|Hi].
  - destruct (IH (i + size) ltac:(lia)) as (bs & -> & Hconcat & Hlen).
    eexists. split; [done|]. simpl. split; [|constructor; [|done]].
    + rewrite Hconcat, <-drop_drop. apply take_drop.
    + rewrite length_take, length_drop. lia.
  - exists []. split; [done|]. split; [|done].
    simpl. symmetry. apply drop_ge. lia.
Qed.

Lemma httpBatches_concat cfg :
  0 < httpBatchSize cfg →
  ∃ bs, httpBatches cfg = Some bs ∧ concat bs = usernames cfg ∧
        Forall (λ b, 0 < length b ≤ httpBatchSize cfg) bs.
Proof.
  intros Hsize. unfold httpBatches.
  destruct (httpBatches_from_concat (S (length (usernames cfg))) (httpBatchSize cfg) 0
              (usernames cfg) Hsize ltac:(lia)) as (bs & ? & ? & ?).
  by exists bs.
Qed.

Lemma omap_lookup_seq {A} (pre l : list A) :
  omap (λ i, (pre ++ l) !! i) (seq (length pre) (length l)) = l.
Proof.
  revert pre. induction l as [|x l IH]; intros pre; simpl; [done|].
  rewrite lookup_app_r by lia. rewrite Nat.sub_diag. simpl. f_equal.
  specialize (IH (pre ++ [x])). rewrite length_app, <-(assoc_L (++)) in IH. simpl in IH.
  by rewrite Nat.add_1_r in IH.
Qed.

Lemma settled_tasks {A} (l : list A) (order : list nat) :
  order ≡ₚ seq 0 (length l) → omap (λ i, l !! i) order ≡ₚ l.
Proof. intros ->. pose proof (omap_lookup_seq [] l) as H. simpl in H. by rewrite H. Qed.

Lemma map_Some_Permutation {A} (l1 l2 : list A) :
  map Some l1 ≡ₚ map Some l2 → l1 ≡ₚ l2.
Proof.
  intros Hp. apply Permutation_map_inv in Hp as (l3 & Heq & Hp).
  rewrite Hp. assert (l1 = l3) as ->; [|done].
  clear Hp. revert l3 Heq. induction l1 as [|x l1 IH]; intros [|y l3] Heq; simpl in *; try done.
  injection Heq as -> Heq. f_equal. auto.
Qed.

(** The usernames of the results pushed for an array whose elements all
    have properties. *)
Lemma pushed_of_usernames ttc a :
  Forall (λ r, is_Some (get_prop r "username")) a →
  map (λ r, get_prop r "username") a = map Some (map username (pushed_of ttc a)).
Proof.
  induction 1 as [|r a [u Hu] _ IH]; simpl; [done|].
  unfold to_result. rewrite Hu. simpl.
  assert (is_Some (get_prop r "available") ∧ is_Some (get_prop r "error")) as [[x ->] [y ->]].
  { destruct r; simpl in *; try done; split; by eexists. }
  simpl. by rewrite IH.
Qed.

Lemma pushed_of_origin ttc a r :
  r ∈ pushed_of ttc a → ∃ x, x ∈ a ∧ get_prop x "username" = Some (username r).
Proof.
  induction a as [|x a IH]; simpl; [by intros ?%elem_of_nil|].
  destruct (to_result ttc x) as [r'|] eqn:Hx; [|by intros ?%elem_of_nil].
  intros [->|Hin]%elem_of_cons.
  - exists x. split; [left|]. unfold to_result in Hx.
    destruct (get_prop x "username"); simpl in Hx; [|done].
    destruct (get_prop x "available"); simpl in Hx; [|done].
    destruct (get_prop x "error"); simpl in Hx; [|done]. by injection Hx as <-.
  - destruct (IH Hin) as (x' & ? & ?). exists x'. split; [by right|done].
Qed.

(** The array [a] lists the keys of [b], each once, in any order. *)
Definition lists_keys (b : list string) (a : list value) : Prop :=
  map (λ r, get_prop r "username") a ≡ₚ map (λ u, Some (VStr u)) b.

Lemma lists_keys_pushed b ttc a :
  lists_keys b a →
  Forall (λ r, is_Some (get_prop r "username")) a ∧
  map username (pushed_of ttc a) ≡ₚ map VStr b.
Proof.
  unfold lists_keys. intros Hp.
  assert (HF : Forall (λ r, is_Some (get_prop r "username")) a).
  { apply Forall_forall. intros r Hr.
    assert (Hin : get_prop r "username" ∈ map (λ u, Some (VStr u)) b).
    { rewrite <-Hp.
      apply list_elem_of_In, (in_map (λ r, get_prop r "username")), list_elem_of_In.
      done. }
    apply list_elem_of_In, in_map_iff in Hin as (u & <- & _). by eexists. }
  split; [done|]. apply map_Some_Permutation.
  rewrite <-(pushed_of_usernames ttc a HF), Hp. by rewrite map_map.
Qed.

(** The tasks of a run whose service lists, in every array [results], the
    keys of the batch: nothing throws, and the keys of the batches are
    reported once each. *)
Lemma tasks_run_honest cfg (bs : list (list string)) o w :
  (∀ b a, b ∈ bs → length b ≠ 1 → sent_for o b a → lists_keys b a) →
  ∃ w' rs,
    for_each bs (task cfg) o w = (Val tt, w') ∧
    all_results w' = all_results w ++ rs ∧
    map username rs ≡ₚ map VStr (concat bs).
Proof.
  revert w. induction bs as [|b bs IH]; intros w Hhonest; simpl.
  - exists w, []. by rewrite app_nil_r.
  - destruct (task_run cfg b o w) as (res & w1 & rs1 & Hrun & _ & Hall1 & Hcase).
    assert (res = Val tt ∧ map username rs1 ≡ₚ map VStr b) as [-> Hrs1].
    { destruct Hcase as [[-> ->]|(a & ttc & Hlen & Hsent & -> & Hok)]; [done|].
      destruct (lists_keys_pushed b ttc a) as [HF Hp].
      { apply Hhonest; [left|done|done]. }
      auto. }
    destruct (IH w1) as (w' & rs & Hrest & Hall & Hrs).
    { intros b' a Hb'. apply Hhonest. by right. }
    exists w', (rs1 ++ rs). unfold bind. rewrite Hrun. split; [done|].
    split; [by rewrite Hall, Hall1, (assoc_L (++))|].
    by rewrite !map_app, Hrs1, Hrs.
Qed.

End run_facts.

Section run_claims.
Import JS Worker.


End run_claims.

(** Three keys, two per HTTP batch. *)
Definition three_keys : Worker.config :=
  Worker.Config ["abc"; "def"; "ghi"] 200 true 0 0 1 2.



(** A service whose batch endpoint reports every key of the batch taken. *)
Definition all_taken : Worker.oracle :=
  Worker.Oracle
    (λ _ r, match r with
            | Worker.POST us =>
                Worker.Response 200
                  (Worker.Json (JS.VObj
                     [("results", JS.VArr (map (λ u, Worker.record2 u (JS.VBool false)) us))]))
            | Worker.GET _ =>
                Worker.Response 200 (Worker.Json (JS.VObj [("available", JS.VBool false)]))
            end)
    (λ _, 0%Q) (λ n, Z.of_nat n).



(** ** The map form of a batch answer *)

Section map_form.
Import JS Worker.

Lemma pushed_of_map_form ttc (fields : list (string * value)) (b : list string) :
  pushed_of ttc (map (λ u, record2 u (bool_or_null (assoc u fields))) b) =
  map (λ u, Result (VStr u) (bool_or_null (assoc u fields)) ttc VNull) b.
Proof. induction b as [|u b IH]; simpl; [done|]. by rewrite IH. Qed.

(** The task of a batch of several keys that the service answers with
    status 200 or 201 and a JSON object without an array [results]: it
    makes this one request and no other, and pushes one result per key. *)
Lemma task_map_form (cfg : config) (b : list string) (o : oracle) (w : world)
    (statusCode : Z) (fields : list (string * value)) :
  length b ≠ 1 →
  reply o (n_req w) (POST b) = Response statusCode (Json (VObj fields)) →
  statusCode = 200%Z ∨ statusCode = 201%Z →
  (∀ results, assoc "results" fields ≠ VArr results) →
  ∃ w' ttc,
    task cfg b o w = (Val tt, w') ∧
    (∃ ms, trace w' = trace w ++ [EvSleep ms; EvRequest (POST b)]) ∧
    all_results w' =
      all_results w ++
      map (λ u, Result (VStr u) (bool_or_null (assoc u fields)) ttc VNull) b.
Proof.
  intros Hlen Hreply Hstatus Hnoarr.
  assert (Hacc : ∀ w0, n_req w0 = n_req w →
                       accepted (reply o (n_req w0) (POST b)) = Some fields).
  { intros w0 ->. rewrite Hreply. simpl. by destruct Hstatus as [-> | ->]. }
  assert (Hval : batch_results b fields =
                 map (λ u, record2 u (bool_or_null (assoc u fields))) b).
  { unfold batch_results. specialize (Hnoarr).
    destruct (assoc "results" fields) as [| | | | |results|] eqn:Hres; try done.
    by destruct (Hnoarr results). }
  unfold task. unfold bind at 1.
  destruct (Date_now_run o w) as (w0 & -> & Htr0 & Hn0 & Hq0).
  unfold bind at 1. unfold withRetry, default_retries.
  rewrite (withRetry_loop_ok _ _ _ _ _ _ _ _ _
             (checkBatch_accepted cfg b o w0 fields Hlen (Hacc w0 Hn0))).
  unfold bind at 1.
  set (w1 := after_request cfg o w0 (POST b)).
  destruct (Date_now_run o w1) as (w2 & -> & Htr2 & _ & Hq2).
  set (ttc := ((clock o (n_clock w1) - clock o (n_clock w)) / Z.of_nat (length b))%Z).
  rewrite Hval.
  destruct (push_results_run cfg ttc
              (map (λ u, record2 u (bool_or_null (assoc u fields))) b) o w2)
    as (res & w' & Hrun & Hall & Hio & Hok).
  exists w', ttc. rewrite Hrun, pushed_of_map_form in *.
  assert (res = Val tt) as ->.
  { apply Hok. apply Forall_forall. intros r Hr.
    apply list_elem_of_In, in_map_iff in Hr as (u & <- & _). by eexists. }
  split; [done|]. split.
  - destruct (after_request_trace cfg o w0 (POST b)) as [ms Hms]. exists ms.
    destruct Hio as (_ & _ & _ & ->). rewrite Htr2. unfold w1. by rewrite Hms, Htr0.
  - rewrite Hall. f_equal. unfold all_results.
    destruct Hq2 as [-> ->]. unfold w1.
    destruct (after_request_batch cfg o w0 (POST b)) as [-> ->].
    by destruct Hq0 as [-> ->].
Qed.

(** The tasks of a run that does not throw: each of them ran from some
    world on; what was pushed and asked before it is still there after the
    last one, followed by what it pushed and asked itself. *)
Lemma tasks_run_each cfg (bs : list (list string)) (b : list string) o w w' :
  for_each bs (task cfg) o w = (Val tt, w') → b ∈ bs →
  ∃ w0 w1,
    task cfg b o w0 = (Val tt, w1) ∧
    (∃ later, all_results w' = all_results w1 ++ later) ∧
    (∃ later, requests (trace w') = requests (trace w1) ++ later).
Proof.
  revert w. induction bs as [|b0 bs IH]; intros w Hrun Hb; [by apply elem_of_nil in Hb|].
  simpl in Hrun. unfold bind in Hrun.
  destruct (task_run cfg b0 o w) as (res & w1 & rs & Htask & _ & _ & _).
  rewrite Htask in Hrun. destruct res as [[]|msg]; [|done].
  assert (Hrest : ∃ rs' reqs, all_results w' = all_results w1 ++ rs' ∧
                              requests (trace w') = requests (trace w1) ++ reqs).
  { clear -Hrun. revert w1 Hrun. induction bs as [|b1 bs IH]; intros w1 Hrun.
    - injection Hrun as <-. exists [], []. by rewrite !app_nil_r.
    - simpl in Hrun. unfold bind in Hrun.
      destruct (task_run cfg b1 o w1) as (res & w2 & rs & Htask & (reqs & Hreqs & _) & Hall & _).
      rewrite Htask in Hrun. destruct res as [[]|msg]; [|done].
      destruct (IH _ Hrun) as (rs' & reqs' & Hall' & Hreqs').
      exists (rs ++ rs'), (reqs ++ reqs').
      by rewrite Hall', Hall, Hreqs', Hreqs, !(assoc_L (++)). }
  apply elem_of_cons in Hb as [->|Hb].
  - exists w, w1. destruct Hrest as (rs' & reqs & ? & ?).
    split; [done|]. split; by eexists.
  - by apply (IH w1).
Qed.

(** C9. Take a run of a worker that exits with code 0, and one of its
    batches, of several keys, that the batch endpoint answers with status
    200 or 201 and a JSON object without an array [results].  The task of
    the batch makes this one request and no other (no single-key query, no
    second attempt, no pause of the retry controller); and the worker
    posts, after the results from before that task, one result per key of
    the batch, in order: the boolean of the key in the object, or [null]
    when the key is absent or its value is not a boolean.  Such a [null]
    result is among the posted ones, its [error] is [null], and
    [processResult] counts it as an error with the reason [Unknown], in
    the ledger of a retry run as in [errors.txt]. *)
Theorem map_form_unknown (cfg : config) (order : list nat) (o : oracle) (w : world)
    (batches : list (list string)) (b : list string)
    (statusCode : Z) (fields : list (string * value)) :
  run cfg order o = Some (0%Z, w) →
  httpBatches cfg = Some batches → b ∈ batches →
  length b ≠ 1 →
  (∀ n, reply o n (POST b) = Response statusCode (Json (VObj fields))) →
  statusCode = 200%Z ∨ statusCode = 201%Z →
  (∀ results, assoc "results" fields ≠ VArr results) →
  ∃ w0 w1 ttc,
    task cfg b o w0 = (Val tt, w1) ∧
    (∃ ms, trace w1 = trace w0 ++ [EvSleep ms; EvRequest (POST b)]) ∧
    (∃ later, requests (trace w) = requests (trace w0) ++ POST b :: later) ∧
    batch w = [] ∧
    (∃ later,
       concat (map results_of (posted w)) =
         all_results w0 ++
         map (λ u, Result (VStr u) (bool_or_null (assoc u fields)) ttc VNull) b ++ later) ∧
    ∀ u, u ∈ b → (∀ x, assoc u fields ≠ VBool x) →
      let r := Result (VStr u) VNull ttc VNull in
      r ∈ concat (map results_of (posted w)) ∧
      ∀ s : Main.state,
        Main.errs (Main.processResult true s r) = S (Main.errs s) ∧
        Main.newErrors (Main.processResult true s r) =
          Main.set (Main.newErrors s) (VStr u) (VStr "Unknown") ∧
        Main.resolvedUsers (Main.processResult true s r) = Main.resolvedUsers s ∧
        Main.errStream (Main.processResult false s r) =
          Main.errStream s ++ [u +:+ Str.tab +:+ "Unknown" +:+ Str.nl].
Proof.
  intros Hrun Hbatches Hb Hlen Hreply Hstatus Hnoarr.
  unfold run in Hrun. rewrite Hbatches in Hrun.
  destruct batches as [|b0 batches]; [by apply elem_of_nil in Hb|].
  destruct (decide (concurrency cfg = 0)); [done|].
  destruct (decide (order ≡ₚ seq 0 (length (b0 :: batches)))) as [Horder|]; [|done].
  set (tasks := omap (λ i, (b0 :: batches) !! i) order) in Hrun.
  assert (Htasks : tasks ≡ₚ b0 :: batches) by by apply settled_tasks.
  unfold bind in Hrun.
  destruct (for_each tasks (task cfg) o start) as [[[]|msg] w2] eqn:Hloop.
  2:{ by injection Hrun. }
  destruct (flush_run o w2) as (w3 & Hflush & Hall3 & Hempty & (_ & _ & _ & Htr3)).
  rewrite Hflush in Hrun. injection Hrun as <-.
  destruct (tasks_run_each cfg tasks b o start w2 Hloop) as (w0 & w1 & Htask & [rs Hrs] & [reqs Hreqs]).
  { by rewrite Htasks. }
  destruct (task_map_form cfg b o w0 statusCode fields Hlen (Hreply _) Hstatus Hnoarr)
    as (w1' & ttc & Htask' & [ms Htrace] & Hall).
  rewrite Htask in Htask'. injection Htask' as <-.
  assert (Hposted : concat (map results_of (posted w3)) =
                    all_results w0 ++
                    map (λ u, Result (VStr u) (bool_or_null (assoc u fields)) ttc VNull) b ++ rs).
  { unfold all_results in Hall3 at 1. rewrite Hempty, app_nil_r in Hall3.
    by rewrite Hall3, Hrs, Hall, <-(assoc_L (++)). }
  exists w0, w1, ttc. split; [done|]. split; [by exists ms|]. split; [|split; [done|split]].
  - exists reqs. rewrite Htr3, Hreqs, Htrace, requests_app. simpl.
    by rewrite <-(assoc_L (++)).
  - by exists rs.
  - intros u Hu Hnb. split.
    + simpl. rewrite Hposted. apply elem_of_app. right. apply elem_of_app. left.
      apply list_elem_of_In, in_map_iff. exists u. split; [|by apply list_elem_of_In].
      destruct (assoc u fields) as [| |x| | | |]; try done. by destruct (Hnb x).
    + intros s. simpl. done.
Qed.

End map_form.

(** A key that the object maps to [true], one that it leaves out, and one
    that it maps to a string. *)
Definition partial_map : Worker.oracle :=
  Worker.Oracle
    (λ _ _, Worker.Response 200
              (Worker.Json (JS.VObj [("abc", JS.VBool true); ("ghi", JS.VStr "yes")])))
    (λ _, 0%Q) (λ n, Z.of_nat n).

(** One batch of three keys. *)
Definition one_batch : Worker.config :=
  Worker.Config ["abc"; "def"; "ghi"] 200 false 0 0 2 3.

Lemma map_form_unknown_witness :
  ∃ w ttc,
    Worker.run one_batch [0] partial_map = Some (0%Z, w) ∧
    requests (Worker.trace w) = [Worker.POST ["abc"; "def"; "ghi"]] ∧
    Worker.batch w = [] ∧
    Worker.posted w =
      [Worker.MsgBatch [Worker.Result (JS.VStr "abc") (JS.VBool true) ttc JS.VNull;
                        Worker.Result (JS.VStr "def") JS.VNull ttc JS.VNull];
       Worker.MsgResult (Worker.Result (JS.VStr "ghi") JS.VNull ttc JS.VNull)] ∧
    Worker.Result (JS.VStr "def") JS.VNull ttc JS.VNull
      ∈ concat (map Worker.results_of (Worker.posted w)) ∧
    Worker.Result (JS.VStr "ghi") JS.VNull ttc JS.VNull
      ∈ concat (map Worker.results_of (Worker.posted w)).
Proof.
  assert (Hrun : ∃ w, Worker.run one_batch [0] partial_map = Some (0%Z, w))
    by (eexists; vm_compute; reflexivity).
  destruct Hrun as [w Hrun].
  destruct (map_form_unknown one_batch [0] partial_map w [["abc"; "def"; "ghi"]]
              ["abc"; "def"; "ghi"] 200 [("abc", JS.VBool true); ("ghi", JS.VStr "yes")] Hrun)
    as (w0 & w1 & ttc & _ & _ & _ & Hbatch & _ & Hnull).
  - reflexivity.
  - left.
  - simpl. lia.
  - reflexivity.
  - by left.
  - intros results. simpl. discriminate.
  - exists w, ttc. split; [exact Hrun|].
    destruct (Hnull "def") as [Hdef _].
    { right. left. }
    { intros x. simpl. discriminate. }
    destruct (Hnull "ghi") as [Hghi _].
    { right. right. left. }
    { intros x. simpl. discriminate. }
    vm_compute in Hrun. injection Hrun as <-. simpl in Hdef, Hghi.
    apply elem_of_cons in Hdef as [Hdef|Hdef]; [discriminate Hdef|].
    apply elem_of_cons in Hdef as [Hdef|Hdef].
    2:{ apply elem_of_cons in Hdef as [Hdef|Hdef]; [discriminate Hdef|].
        by apply elem_of_nil in Hdef. }
    injection Hdef as <-.
    repeat split; try reflexivity; [right; left|right; right; left].
Defined.
(** ** The retry ledger *)

Section ledger_facts.
Import JS Main.
Implicit Types (k u v : value) (rs : list Worker.CheckResult) (s : state).

(** *** Keys *)

Lemma same_key_sym k u : same_key k u = same_key u k.
Proof.
  destruct k, u; simpl; try done; apply bool_decide_ext; split; congruence.
Qed.

Lemma same_key_trans k u v :
  same_key k u = true → same_key u v = same_key k v.
Proof.
  destruct k, u; simpl; try done; intros H; apply bool_decide_eq_true in H; by subst.
Qed.

Lemma same_key_VStr (x : string) v : same_key (VStr x) v = true ↔ v = VStr x.
Proof.
  destruct v; simpl; try (split; [done|congruence]).
  rewrite bool_decide_eq_true. split; congruence.
Qed.

(** [map.get(k)] *)
Fixpoint get (map : list (value * value)) (k : value) : option value :=
  match map with
  | [] => None
  | (k', v') :: map' => if same_key k k' then Some v' else get map' k
  end.

(** No two entries of a map have the same key. *)
Fixpoint distinct_keys (map : list (value * value)) : Prop :=
  match map with
  | [] => True
  | (k, _) :: map' => has_key map' k = false ∧ distinct_keys map'
  end.

Lemma has_key_get map k : has_key map k = bool_decide (is_Some (get map k)).
Proof.
  induction map as [|[k' v'] map IH]; simpl; [done|].
  by destruct (same_key k k').
Qed.

Lemma has_add set u k : has (add set u) k = has set k || same_key k u.
Proof.
  unfold add. destruct (has set u) eqn:Hu.
  - destruct (same_key k u) eqn:Hk; [|by rewrite orb_false_r].
    rewrite orb_true_r. unfold has in *.
    apply existsb_exists in Hu as (x & Hx & Hux). apply existsb_exists.
    exists x. split; [done|]. by rewrite <-(same_key_trans k u x).
  - unfold has. rewrite existsb_app. simpl. by rewrite orb_false_r.
Qed.

Lemma get_set map u v k :
  get (set map u v) k = if same_key k u then Some v else get map k.
Proof.
  induction map as [|[k' v'] map IH]; simpl; [done|].
  destruct (same_key u k') eqn:Hu; simpl.
  - destruct (same_key k u) eqn:Hk.
    + by rewrite <-(same_key_trans k u k' Hk), Hu.
    + destruct (same_key k k') eqn:Hk'; [|done].
      rewrite (same_key_sym k u), <-(same_key_trans u k' k Hu) in Hk.
      rewrite (same_key_sym k' k) in Hk. congruence.
  - rewrite IH. destruct (same_key k k') eqn:Hk'; [|done].
    destruct (same_key k u) eqn:Hk; [|done].
    rewrite (same_key_trans k u k' Hk) in Hu. congruence.
Qed.

Lemma has_key_set map u v k : has_key (set map u v) k = has_key map k || same_key k u.
Proof.
  rewrite !has_key_get, get_set. destruct (same_key k u).
  - rewrite orb_true_r. by apply bool_decide_eq_true.
  - by rewrite orb_false_r.
Qed.

Lemma distinct_keys_set map u v : distinct_keys map → distinct_keys (set map u v).
Proof.
  induction map as [|[k' v'] map IH]; simpl; [done|]. intros [Hk Hd].
  destruct (same_key u k') eqn:Hu; simpl; [done|].
  split; [|auto]. by rewrite has_key_set, Hk, same_key_sym, Hu.
Qed.

(** *** What a list of results leaves in the two collections *)

Definition is_bool (v : value) : bool := match v with VBool _ => true | _ => false end.

(** The key [k] was seen Available or Taken. *)
Definition resolved_in (rs : list Worker.CheckResult) (k : value) : bool :=
  existsb (λ r, is_bool (Worker.available r) && same_key k (Worker.username r)) rs.

(** [r.error || 'Unknown'] *)
Definition reason_of (r : Worker.CheckResult) : value :=
  or_else (Worker.error r) (VStr "Unknown").

(** One more result in the search for the reason of the key [k]. *)
Definition note_failure (k : value) (acc : option value) (r : Worker.CheckResult)
    : option value :=
  if negb (is_bool (Worker.available r)) && same_key k (Worker.username r)
  then Some (reason_of r) else acc.

(** The reason of the last result that reports the key [k] failing. *)
Definition failing_in (rs : list Worker.CheckResult) (k : value) : option value :=
  foldl (note_failure k) None rs.

Lemma processResult_resolved s r k :
  has (resolvedUsers (processResult true s r)) k =
  has (resolvedUsers s) k ||
  (is_bool (Worker.available r) && same_key k (Worker.username r)).
Proof.
  unfold processResult.
  destruct (Worker.available r) as [| |[]| | | |]; simpl;
    rewrite ?has_add, ?orb_false_r; done.
Qed.

Lemma processResult_errors s r k :
  get (newErrors (processResult true s r)) k = note_failure k (get (newErrors s) k) r.
Proof.
  unfold processResult, note_failure.
  destruct (Worker.available r) as [| |[]| | | |]; simpl; rewrite ?get_set; done.
Qed.

Lemma processResult_distinct s r :
  distinct_keys (newErrors s) → distinct_keys (newErrors (processResult true s r)).
Proof.
  unfold processResult.
  destruct (Worker.available r) as [| |[]| | | |]; simpl;
    auto using distinct_keys_set.
Qed.

Lemma results_resolved rs s k :
  has (resolvedUsers (foldl (processResult true) s rs)) k =
  has (resolvedUsers s) k || resolved_in rs k.
Proof.
  revert s. induction rs as [|r rs IH]; intros s; simpl.
  - by rewrite orb_false_r.
  - rewrite IH, processResult_resolved. by rewrite orb_assoc.
Qed.

Lemma results_errors rs s k :
  get (newErrors (foldl (processResult true) s rs)) k =
  foldl (note_failure k) (get (newErrors s) k) rs.
Proof.
  revert s. induction rs as [|r rs IH]; intros s; simpl; [done|].
  by rewrite IH, processResult_errors.
Qed.

Lemma results_distinct rs s :
  distinct_keys (newErrors s) →
  distinct_keys (newErrors (foldl (processResult true) s rs)).
Proof.
  revert s. induction rs as [|r rs IH]; intros s Hs; simpl; [done|].
  apply IH. by apply processResult_distinct.
Qed.

Lemma on_message_results (msgs : list Worker.message) s :
  foldl (on_message true) s msgs =
  foldl (processResult true) s (concat (map Worker.results_of msgs)).
Proof.
  revert s. induction msgs as [|m msgs IH]; intros s; simpl; [done|].
  rewrite foldl_app, IH. by destruct m.
Qed.

(** The lines of the rewritten ledger, by the results [rs] of the run. *)
Lemma finalErrors_results errContent (msgs : list Worker.message) :
  let rs := concat (map Worker.results_of msgs) in
  let s := foldl (on_message true) init msgs in
  finalErrors errContent s =
    filter (λ line, resolved_in rs (VStr (key_of line)) = false ∧
                    ¬ is_Some (failing_in rs (VStr (key_of line))))
           (originalErrors errContent) ++
    map error_line (newErrors s) ∧
  distinct_keys (newErrors s) ∧
  (∀ k, get (newErrors s) k = failing_in rs k).
Proof.
  intros rs s. unfold s. rewrite on_message_results. fold rs.
  split; [|split].
  - unfold finalErrors. f_equal. apply list_filter_iff. intros line.
    unfold kept. rewrite results_resolved, has_key_get, results_errors. simpl.
    fold (failing_in rs (VStr (key_of line))).
    destruct (resolved_in rs (VStr (key_of line))); simpl.
    + split; [done|]. by intros [? _].
    + rewrite negb_true_iff, bool_decide_eq_false. split; [done|]. by intros [_ ?].
  - by apply results_distinct.
  - intros k. by rewrite results_errors.
Qed.

(** What a completed retry run is made of. *)
Lemma retry_run_completed env errContent content :
  retry_run env errContent = Some content →
  ∃ shards ends msgs,
    retry_shards env errContent = Some shards ∧
    mapM id (workers_of env shards) = Some ends ∧
    Forall (λ e, fst e = 0%Z) ends ∧
    deliver (schedule env) (map (λ e, Worker.posted (snd e)) ends) = Some msgs ∧
    content = rewritten errContent (foldl (on_message true) init msgs).
Proof.
  unfold retry_run. intros Hrun.
  destruct (retry_shards env errContent) as [shards|]; [|done]. simpl in Hrun.
  destruct (mapM id (workers_of env shards)) as [ends|] eqn:Hworkers; [|done].
  simpl in Hrun. destruct (forallb _ ends) eqn:Hends; [|done].
  destruct (deliver _ _) as [msgs|] eqn:Hmsgs; [|done]. simpl in Hrun.
  injection Hrun as <-. exists shards, ends, msgs.
  split; [done|]. split; [done|]. split; [|done].
  apply Forall_forall. intros e He. rewrite forallb_forall in Hends.
  apply list_elem_of_In in He. apply Hends in He. by apply bool_decide_eq_true in He.
Qed.

Lemma get_VStr_elem map (x : string) v : get map (VStr x) = Some v → (VStr x, v) ∈ map.
Proof.
  induction map as [|[k' v'] m IH]; cbn [get]; [done|].
  destruct (same_key (VStr x) k') eqn:Hk.
  - apply same_key_VStr in Hk as ->. intros [= ->]. left.
  - right. auto.
Qed.

Lemma set_keys map u v entry :
  entry ∈ set map u v → fst entry = u ∨ ∃ entry', entry' ∈ map ∧ fst entry = fst entry'.
Proof.
  induction map as [|[k' v'] map IH]; simpl.
  - intros ->%list_elem_of_singleton. by left.
  - destruct (same_key u k'); intros [->|Hin]%elem_of_cons.
    + right. exists (k', v'). split; [left|done].
    + right. exists entry. split; [by right|done].
    + right. exists (k', v'). split; [left|done].
    + destruct (IH Hin) as [?|(e & He & ?)]; [by left|].
      right. exists e. split; [by right|done].
Qed.

Lemma results_keys rs s entry :
  entry ∈ newErrors (foldl (processResult true) s rs) →
  (∃ entry', entry' ∈ newErrors s ∧ fst entry = fst entry') ∨
  (∃ r, r ∈ rs ∧ is_bool (Worker.available r) = false ∧ fst entry = Worker.username r).
Proof.
  revert s. induction rs as [|r rs IH]; intros s; simpl.
  - intros Hin. left. by exists entry.
  - intros Hin. destruct (IH _ Hin) as [(e & He & Heq)|(r' & Hr' & ? & ?)].
    + unfold processResult in He.
      destruct (Worker.available r) as [| |[]| | | |] eqn:Hav; simpl in He;
        try (left; by exists e);
        (apply set_keys in He as [Hu|(e' & He' & Hu)];
         [right; exists r; split; [left|by rewrite Hav, Heq]
         |left; exists e'; split; [done|congruence]]).
    + right. exists r'. split; [by right|done].
Qed.


End ledger_facts.
(** *** Two runs of the retry mode *)

(** A comparison by code units, for the examples. *)
Definition code_unit_compare (a b : string) : Z :=
  match String.compare a b with Lt => (-1)%Z | Eq => 0%Z | Gt => 1%Z end.

(** [apple<TAB>timeout] and [banana<TAB>rate limited] *)
Definition ledger_ab : string :=
  "apple" +:+ Str.tab +:+ "timeout" +:+ Str.nl +:+
  "banana" +:+ Str.tab +:+ "rate limited" +:+ Str.nl.

(** A service that knows [apple] and answers 404 to everything else. *)
Definition apple_only : Worker.oracle :=
  Worker.Oracle
    (λ _ r, match r with
            | Worker.GET "apple" =>
                Worker.Response 200 (Worker.Json (JS.VObj [("available", JS.VBool true)]))
            | _ => Worker.Response 404 (Worker.NotJson "Not Found")
            end)
    (λ _, 0%Q) (λ n, Z.of_nat n).

(** A service that answers 404 to everything. *)
Definition refusing : Worker.oracle :=
  Worker.Oracle (λ _ _, Worker.Response 404 (Worker.NotJson "Not Found"))
                (λ _, 0%Q) (λ n, Z.of_nat n).

(** One worker, single-key queries, both tasks settling in order. *)
Definition one_worker (o : Worker.oracle) : Main.environment :=
  Main.Environment code_unit_compare (Main.Args 1 200 true 0 1 0 None)
                   (λ _, o) (λ _, [0; 1]) [0; 0].

Example retry_apple_resolved :
  Main.retry_run (one_worker apple_only) ledger_ab =
  Some ("banana" +:+ Str.tab +:+ "HTTP 404" +:+ Str.nl).
Proof. vm_compute. reflexivity. Qed.




(** The ledger [apple<TAB>timeout], retried against a service that refuses
    everything: nothing resolves, and the line of [apple] changes. *)
Definition ledger_a : string := "apple" +:+ Str.tab +:+ "timeout" +:+ Str.nl.

Definition single_task (o : Worker.oracle) : Main.environment :=
  Main.Environment code_unit_compare (Main.Args 1 200 true 0 1 0 None)
                   (λ _, o) (λ _, [0]) [0].

Example retry_apple_refused :
  Main.retry_run (single_task refusing) ledger_a =
  Some ("apple" +:+ Str.tab +:+ "HTTP 404" +:+ Str.nl).
Proof. vm_compute. reflexivity. Qed.

(** Against C8 as the specification states it: the one entry of the ledger
    fails again, and the rewritten ledger is not the original one. *)
Lemma retry_idempotence_counterexample :
  Main.retry_run (single_task refusing) ledger_a =
    Some ("apple" +:+ Str.tab +:+ "HTTP 404" +:+ Str.nl) ∧
  Main.workers_of (single_task refusing) [["apple"]] =
    [Some (0%Z,
           Worker.World 1 1 2
             [Worker.EvSleep (5 + 0 * (30 - 5))%Q; Worker.EvRequest (Worker.GET "apple")]
             []
             [Worker.MsgResult
                (Worker.Result (JS.VStr "apple") JS.VNull 1 (JS.VStr "HTTP 404"))])] ∧
  Main.originalErrors ledger_a = ["apple" +:+ Str.tab +:+ "timeout"] ∧
  Main.originalErrors ("apple" +:+ Str.tab +:+ "HTTP 404" +:+ Str.nl) =
    ["apple" +:+ Str.tab +:+ "HTTP 404"] ∧
  ¬ (["apple" +:+ Str.tab +:+ "HTTP 404"] ≡ₚ ["apple" +:+ Str.tab +:+ "timeout"]).
Proof.
  split; [vm_compute; reflexivity|]. split; [vm_compute; reflexivity|].
  split; [vm_compute; reflexivity|]. split; [vm_compute; reflexivity|].
  intros Hp. apply Permutation_singleton_l in Hp. vm_compute in Hp. discriminate Hp.
Qed.

(** ** Keys that a retry run leaves out *)

Section retry_input.
Import JS Main.

(** The request [r] names the key [k]. *)
Definition mentions (k : string) (r : Worker.request) : Prop :=
  match r with
  | Worker.GET u => u = k
  | Worker.POST us => k ∈ us
  end.

Lemma insert_sorted_elem cmp x l u : u ∈ insert_sorted cmp x l → u = x ∨ u ∈ l.
Proof.
  induction l as [|y l IH]; simpl.
  - intros ->%list_elem_of_singleton. by left.
  - destruct (_ <? _)%Z.
    + intros [->|Hin]%elem_of_cons; [right; left|].
      destruct (IH Hin) as [->|?]; [by left|right; by right].
    + intros [->|Hin]%elem_of_cons; [by left|by right].
Qed.

Lemma sort_elem cmp l u : u ∈ sort cmp l → u ∈ l.
Proof.
  induction l as [|x l IH]; simpl; [done|].
  intros [->|Hin]%insert_sorted_elem; [left|right; auto].
Qed.

(** Every name that is sharded passed the length filter. *)
Lemma usernames_valid cmp a content us u :
  usernames cmp a content = Some us → u ∈ us → valid_length u = true.
Proof.
  unfold usernames. intros Hus Hu.
  set (sorted := sort cmp (filter (λ u, valid_length u = true) (raw content))) in *.
  assert (Hsorted : ∀ x, x ∈ sorted → valid_length x = true).
  { intros x Hx. apply sort_elem, list_elem_of_filter in Hx as [? _]. done. }
  set (skipped := if (1 <? start a)%Z then _ else sorted) in *.
  assert (Hskipped : ∀ x, x ∈ skipped → x ∈ sorted).
  { intros x. unfold skipped. destruct (1 <? start a)%Z; [|done].
    intros Hx. by eapply subseteq_drop. }
  assert (Hin : ∃ l, (match from a with
                     | Some name =>
                         if Str.nonempty name then
                           match findIndex name skipped with
                           | Some idx => Some (drop idx skipped)
                           | None => None
                           end
                         else Some skipped
                     | None => Some skipped
                     end = Some l) ∧ us = l).
  { destruct (match from a with Some _ => _ | None => _ end) as [[|x l]|];
      try done. injection Hus as <-. eauto. }
  destruct Hin as (l & Hl & ->).
  apply Hsorted, Hskipped.
  destruct (from a) as [name|]; [|by injection Hl as <-].
  destruct (Str.nonempty name); [|by injection Hl as <-].
  destruct (findIndex name skipped) as [idx|]; [|done]. injection Hl as <-.
  by eapply subseteq_drop.
Qed.

Lemma forEach_push_elem {A} n (out : list (list A)) i arr shards (x : A) s :
  Shard.forEach_push n out i arr = Some shards →
  s ∈ shards → x ∈ s → x ∈ arr ∨ ∃ s0, s0 ∈ out ∧ x ∈ s0.
Proof.
  revert out i. induction arr as [|v arr IH]; intros out i; simpl.
  - intros [= <-] Hs Hx. right. eauto.
  - destruct (out !! (i mod n)) as [bucket|] eqn:Hb; [|done].
    intros Hrun Hs Hx. destruct (IH _ _ Hrun Hs Hx) as [?|(s0 & Hs0 & Hx0)]; [left; by right|].
    apply list_elem_of_lookup in Hs0 as [j Hj].
    destruct (decide (j = i mod n)) as [->|Hne].
    + rewrite list_lookup_alter_eq, Hb in Hj. injection Hj as <-.
      apply elem_of_app in Hx0 as [Hx0| ->%list_elem_of_singleton]; [|left; left].
      right. exists bucket. split; [|done]. by eapply list_elem_of_lookup_2.
    + rewrite list_lookup_alter_ne in Hj by done. right. exists s0.
      split; [|done]. by eapply list_elem_of_lookup_2.
Qed.

Lemma shardArray_elem {A} (arr : list A) n shards s x :
  Shard.shardArray arr n = Some shards → s ∈ shards → x ∈ s → x ∈ arr.
Proof.
  unfold Shard.shardArray. intros Hrun Hs Hx.
  destruct (forEach_push_elem _ _ _ _ _ _ _ Hrun Hs Hx) as [?|(s0 & Hs0 & Hx0)]; [done|].
  apply elem_of_replicate in Hs0 as [-> _]. by apply elem_of_nil in Hx0.
Qed.

(** A key of the ledger outside the length bounds is in no shard. *)
Lemma retry_shards_valid env errContent shards shard u :
  retry_shards env errContent = Some shards → shard ∈ shards → u ∈ shard →
  valid_length u = true.
Proof.
  unfold retry_shards. intros Hshards Hshard Hu.
  destruct (retryUsers errContent) as [|u0 us0]; [done|].
  destruct (usernames _ _ _) as [us|] eqn:Hus; [|done]. simpl in Hshards.
  eapply usernames_valid; [exact Hus|]. by eapply shardArray_elem.
Qed.

End retry_input.

Section worker_scope.
Import JS Worker.
Implicit Types (cfg : config) (o : oracle) (w : world).

(** The request [r] names keys of [keys] only. *)
Definition mentions_only (keys : list string) (r : request) : Prop :=
  match r with
  | GET u => u ∈ keys
  | POST us => us ⊆ keys
  end.

(** Where the key of a result comes from: it is a key of [keys], or the
    service put it into an array [results] that it answered to a batch of
    several keys (at most [size]). *)
Definition reported_for (o : oracle) (keys : list string) (size : nat)
    (r : CheckResult) : Prop :=
  (∃ u, u ∈ keys ∧ username r = VStr u) ∨
  (∃ b a x, length b ≠ 1 ∧ 0 < length b ≤ size ∧ sent_for o b a ∧ x ∈ a ∧
            get_prop x "username" = Some (username r)).

Lemma within_mentions_only b keys r : b ⊆ keys → within b r → mentions_only keys r.
Proof. intros Hsub. destruct r; simpl; [apply Hsub|by intros ->]. Qed.

Lemma httpBatches_from_subset fuel size i us bs :
  httpBatches_from fuel size i us = Some bs → Forall (λ b, b ⊆ us) bs.
Proof.
  revert i bs. induction fuel as [|fuel IH]; intros i bs; simpl; [done|].
  destruct (decide (i < length us)); [|by intros [= <-]].
  destruct (httpBatches_from fuel size (i + size) us) as [bs'|] eqn:Hrest; [|done].
  simpl. intros [= <-]. constructor; [|by eapply IH].
  etrans; [apply subseteq_take|apply subseteq_drop].
Qed.

Lemma httpBatches_from_zero fuel i us :
  i < length us → httpBatches_from fuel 0 i us = None.
Proof.
  intros Hi. induction fuel as [|fuel IH]; simpl; [done|].
  destruct (decide (i < length us)); [|lia]. by rewrite Nat.add_0_r, IH.
Qed.

Lemma httpBatches_from_lengths fuel size i us bs :
  httpBatches_from fuel size i us = Some bs → Forall (λ b, 0 < length b ≤ size) bs.
Proof.
  revert i bs. induction fuel as [|fuel IH]; intros i bs; simpl; [done|].
  destruct (decide (i < length us)) as [Hi|]; [|by intros [= <-]].
  destruct (httpBatches_from fuel size (i + size) us) as [bs'|] eqn:Hrest; [|done].
  simpl. intros [= <-]. constructor; [|by eapply IH].
  rewrite length_take, length_drop. destruct size as [|size]; [|lia].
  rewrite Nat.add_0_r, httpBatches_from_zero in Hrest; done.
Qed.

Lemma task_scope cfg keys size b o w res w' :
  b ⊆ keys → 0 < length b ≤ size → task cfg b o w = (res, w') →
  ∃ reqs rs,
    requests (trace w') = requests (trace w) ++ reqs ∧
    Forall (mentions_only keys) reqs ∧
    all_results w' = all_results w ++ rs ∧
    Forall (reported_for o keys size) rs.
Proof.
  intros Hsub Hsize Hrun.
  destruct (task_run cfg b o w) as (res1 & w1 & rs & Hrun1 & Hasks & Hall & Hcase).
  rewrite Hrun in Hrun1. injection Hrun1 as <- <-.
  destruct Hasks as (reqs & Hreqs & Hwithin).
  exists reqs, rs. split; [done|]. split; [|split; [done|]].
  - eapply Forall_impl; [done|]. intros r. by apply within_mentions_only.
  - apply Forall_forall. intros r Hr.
    destruct Hcase as [[_ Hmap]|(a & ttc & Hlen & Hsent & -> & _)].
    + left. assert (Hu : username r ∈ map VStr b).
      { rewrite <-Hmap. by apply list_elem_of_In, in_map, list_elem_of_In. }
      apply list_elem_of_In, in_map_iff in Hu as (u & <- & Hu).
      exists u. split; [|done]. by apply Hsub, list_elem_of_In.
    + right. apply pushed_of_origin in Hr as (x & ? & ?). by exists b, a, x.
Qed.

Lemma tasks_scope cfg keys size (bs : list (list string)) o w res w' :
  Forall (λ b, b ⊆ keys ∧ 0 < length b ≤ size) bs →
  for_each bs (task cfg) o w = (res, w') →
  ∃ reqs rs,
    requests (trace w') = requests (trace w) ++ reqs ∧
    Forall (mentions_only keys) reqs ∧
    all_results w' = all_results w ++ rs ∧
    Forall (reported_for o keys size) rs.
Proof.
  intros Hbs. revert w. induction Hbs as [|b bs [Hb Hsize] _ IH]; intros w; simpl.
  - intros [= <- <-]. exists [], []. by rewrite !app_nil_r.
  - unfold bind. destruct (task cfg b o w) as [[[]|msg] w1] eqn:Htask.
    + intros Hrest.
      destruct (task_scope _ _ _ _ _ _ _ _ Hb Hsize Htask)
        as (q1 & r1 & Hq1 & HF1 & Ha1 & HR1).
      destruct (IH _ Hrest) as (q2 & r2 & Hq2 & HF2 & Ha2 & HR2).
      exists (q1 ++ q2), (r1 ++ r2).
      rewrite Hq2, Hq1, Ha2, Ha1, !(assoc_L (++)).
      split; [done|]. split; [by apply Forall_app|]. split; [done|by apply Forall_app].
    + intros [= <- <-]. by eapply task_scope.
Qed.

(** A worker asks for keys of its shard only, and the keys it reports are
    keys of its shard or were named by the service. *)
Lemma run_scope cfg order o code w :
  run cfg order o = Some (code, w) →
  Forall (mentions_only (usernames cfg)) (requests (trace w)) ∧
  Forall (reported_for o (usernames cfg) (httpBatchSize cfg)) (all_results w).
Proof.
  unfold run. destruct (httpBatches cfg) as [batches|] eqn:Hbatches; [|done].
  pose proof (httpBatches_from_lengths _ _ _ _ _ Hbatches) as Hlengths.
  apply httpBatches_from_subset in Hbatches.
  destruct batches as [|b0 batches].
  - intros [= <- <-]. by split.
  - destruct (decide (concurrency cfg = 0)); [done|].
    destruct (decide (order ≡ₚ seq 0 (length (b0 :: batches)))); [|done].
    set (tasks := omap (λ i, (b0 :: batches) !! i) order).
    assert (Htasks : Forall (λ b, b ⊆ usernames cfg ∧
                                  0 < length b ≤ httpBatchSize cfg) tasks).
    { apply Forall_forall. intros b Hb. apply list_elem_of_omap in Hb as (i & _ & Hi).
      eapply Forall_lookup_1 in Hbatches; [|exact Hi].
      eapply Forall_lookup_1 in Hlengths; [|exact Hi]. done. }
    unfold bind.
    destruct (for_each tasks (task cfg) o start) as [[[]|msg] w1] eqn:Hrun.
    + destruct (tasks_scope _ _ _ _ _ _ _ _ Htasks Hrun)
        as (reqs & rs & Hreqs & HF & Hall & HR).
      destruct (flush_run o w1) as (w' & -> & Hall' & _ & (_ & _ & _ & Htr)).
      intros [= <- <-]. rewrite Htr, Hreqs, Hall', Hall. done.
    + destruct (tasks_scope _ _ _ _ _ _ _ _ Htasks Hrun)
        as (reqs & rs & Hreqs & HF & Hall & HR).
      intros [= <- <-]. rewrite Hreqs, Hall. done.
Qed.

End worker_scope.

Section retry_scope.
Import JS Main.

Lemma deliver_elem sched (queues : list (list Worker.message)) msgs m :
  deliver sched queues = Some msgs → m ∈ msgs → ∃ q, q ∈ queues ∧ m ∈ q.
Proof.
  revert queues msgs. induction sched as [|i sched IH]; intros queues msgs; simpl.
  - destruct (forallb _ queues); [|done]. intros [= <-] Hm. by apply elem_of_nil in Hm.
  - destruct (queues !! i) as [[|m0 q]|] eqn:Hi; try done.
    destruct (deliver sched (<[i:=q]> queues)) as [rest|] eqn:Hrest; [|done].
    simpl. intros [= <-] [->|Hm]%elem_of_cons.
    + exists (m0 :: q). split; [by eapply list_elem_of_lookup_2|left].
    + destruct (IH _ _ Hrest Hm) as (q' & Hq' & Hmq').
      apply list_elem_of_lookup in Hq' as [j Hj].
      destruct (decide (j = i)) as [->|Hne].
      * rewrite list_lookup_insert_eq in Hj by by eapply lookup_lt_Some.
        injection Hj as <-. exists (m0 :: q).
        split; [by eapply list_elem_of_lookup_2|by right].
      * rewrite list_lookup_insert_ne in Hj by done.
        exists q'. split; [by eapply list_elem_of_lookup_2|done].
Qed.

(** Every worker of a completed run ran on a shard. *)
Lemma workers_of_ends env shards ends e :
  mapM id (workers_of env shards) = Some ends → e ∈ ends →
  ∃ idx shard,
    shards !! idx = Some shard ∧
    Worker.run (workerData (options env) idx shard) (settle_order env idx)
               (service env idx) = Some e.
Proof.
  intros Hends He. apply mapM_Some in Hends.
  apply list_elem_of_lookup in He as [idx He].
  destruct (Forall2_lookup_r _ _ _ _ _ Hends He) as (x & Hx & Hrun).
  unfold workers_of in Hx. rewrite list_lookup_imap in Hx.
  destruct (shards !! idx) as [shard|] eqn:Hshard; [|done].
  simpl in Hx. injection Hx as <-. simpl in Hrun. by exists idx, shard.
Qed.

Lemma unreported_key (rs : list Worker.CheckResult) (k : string) :
  Forall (λ r, Worker.username r ≠ VStr k) rs →
  resolved_in rs (VStr k) = false ∧ failing_in rs (VStr k) = None.
Proof.
  intros HF. split.
  - unfold resolved_in. apply not_true_is_false. intros Hex.
    apply existsb_exists in Hex as (r & Hr & Hb).
    apply andb_true_iff in Hb as [_ Hb]. apply same_key_VStr in Hb.
    apply list_elem_of_In in Hr. eapply Forall_forall in HF; [|exact Hr]. done.
  - unfold failing_in. generalize (@None value) as acc.
    induction HF as [|r rs Hr _ IH]; intros acc; simpl; [done|].
    rewrite IH. unfold note_failure.
    destruct (same_key (VStr k) (Worker.username r)) eqn:Hk.
    + apply same_key_VStr in Hk. done.
    + by rewrite andb_false_r.
Qed.

(** C10, amended.  In a retry run that completes, a ledger key whose length
    is outside [3, 10] is in no shard and no worker names it in a request:
    it is never queried.  Its line is carried over unchanged when the
    queries are single-key queries (the default), and otherwise provided the
    service never names the key in an array [results] that it answers to a
    batch. *)
Theorem retry_skips_out_of_bounds (env : environment) (errContent content line : string) :
  retry_run env errContent = Some content →
  line ∈ originalErrors errContent →
  ¬ (3 ≤ String.length (key_of line) ≤ 10) →
  ∃ shards ends lines,
    retry_shards env errContent = Some shards ∧
    mapM id (workers_of env shards) = Some ends ∧
    Forall (λ shard, key_of line ∉ shard) shards ∧
    Forall (λ e, Forall (λ r, ¬ mentions (key_of line) r)
                        (requests (Worker.trace (snd e)))) ends ∧
    content = Str.join_lines lines +:+
              match lines with [] => EmptyString | _ => Str.nl end ∧
    (batch (options env) = 1 ∨
     (∀ idx b a, sent_for (service env idx) b a →
        Forall (λ x, get_prop x "username" ≠ Some (VStr (key_of line))) a) →
     line ∈ lines).
Proof.
  intros Hrun Hline Hlen.
  destruct (retry_run_completed _ _ _ Hrun)
    as (shards & ends & msgs & Hshards & Hends & _ & Hmsgs & ->).
  exists shards, ends, (finalErrors errContent (foldl (on_message true) init msgs)).
  assert (Hinvalid : valid_length (key_of line) = false).
  { unfold valid_length, MIN_LEN, MAX_LEN. apply not_true_is_false. intros Hv.
    apply andb_true_iff in Hv as [H1%bool_decide_eq_true H2%bool_decide_eq_true]. lia. }
  assert (Hnot : ∀ shard, shard ∈ shards → key_of line ∉ shard).
  { intros shard Hshard Hin.
    rewrite (retry_shards_valid _ _ _ _ _ Hshards Hshard Hin) in Hinvalid. done. }
  split; [done|]. split; [done|]. split; [by apply Forall_forall|]. split; [|split; [done|]].
  - apply Forall_forall. intros e He.
    destruct (workers_of_ends _ _ _ _ Hends He) as (idx & shard & Hshard & Hworker).
    destruct e as [code w]. apply run_scope in Hworker as [Hreqs _]. simpl in *.
    eapply Forall_impl; [exact Hreqs|]. intros r Hr Hm.
    apply (Hnot shard); [by eapply list_elem_of_lookup_2|].
    destruct r as [u|us]; simpl in *; [by subst|by apply Hr].
  - intros Hnever.
    destruct (finalErrors_results errContent msgs) as (-> & _ & _).
    apply elem_of_app. left. apply list_elem_of_filter. split; [|done].
    destruct (unreported_key (concat (map Worker.results_of msgs)) (key_of line))
      as [-> ->]; [|split; [done|by intros [??]]].
    apply Forall_forall. intros r Hr Hu.
    apply list_elem_of_In, in_concat in Hr as (rs & Hrs & Hr).
    apply list_elem_of_In in Hr.
    apply in_map_iff in Hrs as (m & <- & Hm). apply list_elem_of_In in Hm.
    destruct (deliver_elem _ _ _ _ Hmsgs Hm) as (q & Hq & Hmq).
    apply list_elem_of_In, in_map_iff in Hq as ([code w] & <- & He).
    apply list_elem_of_In in He. simpl in Hmq.
    destruct (workers_of_ends _ _ _ _ Hends He) as (idx & shard & Hshard & Hworker).
    apply run_scope in Hworker as [_ Hres]. simpl in Hres.
    assert (Hall : r ∈ all_results w).
    { unfold all_results. apply elem_of_app. left. apply list_elem_of_In, in_concat.
      exists (Worker.results_of m). split; [|by apply list_elem_of_In].
      by apply in_map, list_elem_of_In. }
    eapply Forall_forall in Hres; [|exact Hall].
    destruct Hres as [(u & Hin & Heq)|(b & a & x & Hmany & Hsize & Hsent & Hx & Heq)].
    + rewrite Heq in Hu. injection Hu as ->.
      apply (Hnot shard); [by eapply list_elem_of_lookup_2|done].
    + destruct Hnever as [Hone|Hnever]; [rewrite Hone in Hsize; lia|].
      specialize (Hnever idx b a Hsent). eapply Forall_forall in Hnever; [|exact Hx].
      rewrite Heq, Hu in Hnever. done.
Qed.

End retry_scope.

(** *** A ledger with a key that is too short *)

(** [ab<TAB>timeout], [abc<TAB>x] and [abd<TAB>y] *)
Definition ledger_short : string :=
  "ab" +:+ Str.tab +:+ "timeout" +:+ Str.nl +:+
  "abc" +:+ Str.tab +:+ "x" +:+ Str.nl +:+
  "abd" +:+ Str.tab +:+ "y" +:+ Str.nl.

(** A service whose batch endpoint reports the key [ab], whatever it is
    asked. *)
Definition naming_ab : Worker.oracle :=
  Worker.Oracle
    (λ _ _, Worker.Response 200
              (Worker.Json (JS.VObj
                 [("results", JS.VArr [Worker.record2 "ab" (JS.VBool true)])])))
    (λ _, 0%Q) (λ n, Z.of_nat n).

(** One worker, two keys per HTTP batch. *)
Definition batched (o : Worker.oracle) : Main.environment :=
  Main.Environment code_unit_compare (Main.Args 1 200 true 0 2 0 None)
                   (λ _, o) (λ _, [0]) [0].

(** Against C10 as the specification states it: [ab] is too short and is
    never queried, and its line is gone from the rewritten ledger. *)
Lemma retry_out_of_bounds_counterexample :
  Main.originalErrors ledger_short =
    ["ab" +:+ Str.tab +:+ "timeout"; "abc" +:+ Str.tab +:+ "x"; "abd" +:+ Str.tab +:+ "y"] ∧
  Main.key_of ("ab" +:+ Str.tab +:+ "timeout") = "ab" ∧
  Main.retry_shards (batched naming_ab) ledger_short = Some [["abc"; "abd"]] ∧
  (∃ w, Main.workers_of (batched naming_ab) [["abc"; "abd"]] = [Some (0%Z, w)] ∧
        requests (Worker.trace w) = [Worker.POST ["abc"; "abd"]]) ∧
  Main.retry_run (batched naming_ab) ledger_short =
    Some ("abc" +:+ Str.tab +:+ "x" +:+ Str.nl +:+ "abd" +:+ Str.tab +:+ "y" +:+ Str.nl) ∧
  Main.originalErrors
    ("abc" +:+ Str.tab +:+ "x" +:+ Str.nl +:+ "abd" +:+ Str.tab +:+ "y" +:+ Str.nl) =
    ["abc" +:+ Str.tab +:+ "x"; "abd" +:+ Str.tab +:+ "y"].
Proof.
  split; [vm_compute; reflexivity|]. split; [vm_compute; reflexivity|].
  split; [vm_compute; reflexivity|]. split; [|split; vm_compute; reflexivity].
  eexists. split; vm_compute; reflexivity.
Qed.

(** [ab<TAB>timeout] and [apple<TAB>x] *)
Definition ledger_ab_apple : string :=
  "ab" +:+ Str.tab +:+ "timeout" +:+ Str.nl +:+ "apple" +:+ Str.tab +:+ "x" +:+ Str.nl.

Example retry_short_kept :
  Main.retry_run (single_task apple_only) ledger_ab_apple =
  Some ("ab" +:+ Str.tab +:+ "timeout" +:+ Str.nl).
Proof. vm_compute. reflexivity. Qed.

Lemma retry_skips_out_of_bounds_witness :
  ("ab" +:+ Str.tab +:+ "timeout") ∈ Main.originalErrors ledger_ab_apple ∧
  ¬ (3 ≤ String.length (Main.key_of ("ab" +:+ Str.tab +:+ "timeout")) ≤ 10) ∧
  ∃ lines,
    "ab" +:+ Str.tab +:+ "timeout" +:+ Str.nl =
      Str.join_lines lines +:+ match lines with [] => EmptyString | _ => Str.nl end ∧
    ("ab" +:+ Str.tab +:+ "timeout") ∈ lines.
Proof.
  assert (Hline : ("ab" +:+ Str.tab +:+ "timeout") ∈ Main.originalErrors ledger_ab_apple)
    by (vm_compute; left).
  assert (Hlen : ¬ (3 ≤ String.length (Main.key_of ("ab" +:+ Str.tab +:+ "timeout")) ≤ 10))
    by (vm_compute; lia).
  split; [exact Hline|]. split; [exact Hlen|].
  destruct (retry_skips_out_of_bounds (single_task apple_only) ledger_ab_apple _
              ("ab" +:+ Str.tab +:+ "timeout") retry_short_kept Hline Hlen)
    as (shards & ends & lines & _ & _ & _ & _ & Hcontent & Hkept).
  exists lines. split; [exact Hcontent|]. apply Hkept. left. reflexivity.
Defined.

(** ** Two more properties of the orchestrator *)

Section more_properties.
Import JS Main.

(** X1. Convergence of the ledger: when a retry run completes in which every
    result shows its key Available or Taken and every key of the ledger is
    among them, the new [errors.txt] is empty. *)
Theorem retry_ledger_convergence (env : environment) (errContent content : string) :
  retry_run env errContent = Some content →
  ∃ shards ends msgs,
    retry_shards env errContent = Some shards ∧
    mapM id (workers_of env shards) = Some ends ∧
    deliver (schedule env) (map (λ e, Worker.posted (snd e)) ends) = Some msgs ∧
    let rs := concat (map Worker.results_of msgs) in
    (∀ r, r ∈ rs → is_bool (Worker.available r) = true) →
    (∀ line, line ∈ originalErrors errContent →
       resolved_in rs (VStr (key_of line)) = true) →
    content = EmptyString.
Proof.
  intros Hrun.
  destruct (retry_run_completed _ _ _ Hrun) as (shards & ends & msgs & ? & ? & _ & ? & ->).
  exists shards, ends, msgs. split; [done|]. split; [done|]. split; [done|].
  simpl. intros Hok Hall.
  destruct (finalErrors_results errContent msgs) as (Hlines & _ & _).
  assert (Hnone : newErrors (foldl (on_message true) init msgs) = []).
  { destruct (newErrors _) as [|entry entries] eqn:Hentries; [done|].
    assert (Hin : entry ∈ newErrors (foldl (on_message true) init msgs))
      by (rewrite Hentries; left).
    rewrite on_message_results in Hin.
    apply results_keys in Hin as [(e & He & _)|(r & Hr & Hbad & _)].
    - by apply elem_of_nil in He.
    - rewrite (Hok r Hr) in Hbad. done. }
  unfold rewritten. rewrite Hlines, Hnone. simpl. rewrite app_nil_r.
  assert (Hempty : filter (λ line, resolved_in (concat (map Worker.results_of msgs))
                                     (VStr (key_of line)) = false ∧
                                   ¬ is_Some (failing_in (concat (map Worker.results_of msgs))
                                                (VStr (key_of line))))
                          (originalErrors errContent) = []).
  { destruct (filter _ _) as [|line lines] eqn:Hfilter; [done|].
    assert (Hin : line ∈ line :: lines) by left.
    rewrite <-Hfilter in Hin. apply list_elem_of_filter in Hin as [[Hres _] Hline].
    rewrite (Hall line Hline) in Hres. done. }
  by rewrite Hempty.
Qed.

Lemma findIndex_lt name l idx : findIndex name l = Some idx → idx < length l.
Proof.
  revert idx. induction l as [|u l IH]; intros idx; simpl; [done|].
  destruct (decide _); [intros [= <-]; lia|].
  destruct (findIndex name l) as [i|]; [|done]. simpl. intros [= <-].
  specialize (IH i eq_refl). lia.
Qed.

(** X2. Resuming at a line and resuming at a name select the same keys when
    the line is the position of the name in the sorted list (lines count
    from 1). *)
Theorem resume_start_from (cmp : string → string → Z) (a : args) (content name : string)
    (idx : nat) :
  Str.nonempty name = true →
  findIndex name (sort cmp (filter (λ u, valid_length u = true) (raw content))) = Some idx →
  usernames cmp (Args (workers a) (conc a) (verbose a) (sleep a) (batch a)
                      (Z.of_nat idx + 1) None) content =
  usernames cmp (Args (workers a) (conc a) (verbose a) (sleep a) (batch a)
                      0 (Some name)) content.
Proof.
  intros Hname Hidx. unfold usernames. simpl. rewrite Hname, Hidx.
  apply findIndex_lt in Hidx.
  destruct (1 <? Z.of_nat idx + 1)%Z eqn:Hstart.
  - replace (Z.to_nat (Z.min (Z.of_nat idx + 1 - 1) (Z.of_nat (length _)))) with idx by lia.
    done.
  - apply Z.ltb_ge in Hstart. replace idx with 0 by lia. done.
Qed.

End more_properties.

Lemma retry_ledger_convergence_witness :
  Main.retry_run (single_task apple_only) ledger_a = Some EmptyString.
Proof.
  assert (Hrun : ∃ content, Main.retry_run (single_task apple_only) ledger_a = Some content)
    by (eexists; vm_compute; reflexivity).
  destruct Hrun as [content Hrun].
  destruct (retry_ledger_convergence (single_task apple_only) ledger_a content Hrun)
    as (shards & ends & msgs & Hshards & Hends & Hmsgs & Hrest).
  rewrite Hrun. f_equal.
  vm_compute in Hshards. injection Hshards as <-.
  vm_compute in Hends. injection Hends as <-.
  vm_compute in Hmsgs. injection Hmsgs as <-.
  apply Hrest.
  - intros r Hr. simpl in Hr. apply list_elem_of_singleton in Hr as ->. reflexivity.
  - intros line Hline. vm_compute in Hline. apply list_elem_of_singleton in Hline as ->.
    vm_compute. reflexivity.
Defined.

(** [--from] with a capital of Latin-1: [Àbc] finds the line [àbc] (the
    code units 192 and 224). *)
Lemma resume_start_from_witness :
  Main.usernames code_unit_compare (Main.Args 1 200 true 0 1 2 None)
    ("grape" +:+ Str.nl +:+ String (ascii_of_nat 224) "bc" +:+ Str.nl) =
  Main.usernames code_unit_compare
    (Main.Args 1 200 true 0 1 0 (Some (String (ascii_of_nat 192) "BC")))
    ("grape" +:+ Str.nl +:+ String (ascii_of_nat 224) "bc" +:+ Str.nl).
Proof.
  exact (resume_start_from code_unit_compare (Main.Args 1 200 true 0 1 0 None)
           ("grape" +:+ Str.nl +:+ String (ascii_of_nat 224) "bc" +:+ Str.nl)
           (String (ascii_of_nat 192) "BC") 1
           ltac:(reflexivity) ltac:(vm_compute; reflexivity)).
Defined.

(** ** More on sharding *)

Section shard_balance.
Import Shard.
Context {A : Type}.

Lemma distributed_shard_length (n : nat) (arr : list A) (out : list (list A)) k s :
  0 < n → distributed n arr out → out !! k = Some s →
  length s = (length arr + n - 1 - k) / n.
Proof.
  intros Hn [Hlen Hlk _ _] Hs.
  assert (Hk : k < n) by (apply lookup_lt_Some in Hs; lia).
  assert (Hat : ∀ j, s !! j = arr !! (j * n + k)).
  { intros j. rewrite <-(Hlk k j Hk), Hs. done. }
  assert (Hhi : length arr ≤ length s * n + k).
  { apply lookup_ge_None. rewrite <-Hat. by apply lookup_ge_None_2. }
  destruct (length s) as [|l] eqn:Hl.
  - symmetry. apply Nat.div_small. lia.
  - assert (Hlo : l * n + k < length arr).
    { apply lookup_lt_is_Some. rewrite <-Hat. apply lookup_lt_is_Some. lia. }
    apply (Nat.div_unique _ _ _ (length arr + n - 1 - k - S l * n)); lia.
Qed.

(** X3. The shards are balanced: shard [k] of [n] holds
    [(length arr + n - 1 - k) / n] keys, so that a shard is never longer
    than one before it and never shorter by more than one key.  With no
    worker at all, sharding fails for every list but the empty one. *)
Theorem shardArray_balanced (arr : list A) (n : nat) :
  (0 < n →
   ∃ shards,
     shardArray arr n = Some shards ∧
     (∀ k s, shards !! k = Some s → length s = (length arr + n - 1 - k) / n) ∧
     (∀ k1 k2 s1 s2, k1 ≤ k2 → shards !! k1 = Some s1 → shards !! k2 = Some s2 →
        length s2 ≤ length s1 ≤ length s2 + 1)) ∧
  (n = 0 → shardArray arr n = if decide (arr = []) then Some [] else None).
Proof.
  split.
  - intros Hn. destruct (shardArray_distributed arr n Hn) as (shards & Hrun & Hd).
    exists shards. split; [done|].
    assert (Hlen : ∀ k s, shards !! k = Some s →
                          length s = (length arr + n - 1 - k) / n).
    { intros k s. by apply distributed_shard_length. }
    split; [done|]. intros k1 k2 s1 s2 Hle H1 H2.
    assert (k2 < n).
    { apply lookup_lt_Some in H2. by rewrite (dist_length _ _ _ Hd) in H2. }
    rewrite (Hlen _ _ H1), (Hlen _ _ H2). split.
    + apply Nat.Div0.div_le_mono. lia.
    + transitivity ((length arr + n - 1 - k2 + 1 * n) / n).
      * apply Nat.Div0.div_le_mono. lia.
      * rewrite Nat.div_add by lia. lia.
  - intros ->. unfold shardArray. by destruct arr.
Qed.

End shard_balance.

Lemma shardArray_balanced_witness :
  0 < 3 ∧
  ∃ shards,
    Shard.shardArray ["a"; "b"; "c"; "d"; "e"; "f"; "g"] 3 = Some shards ∧
    (∀ k s, shards !! k = Some s → length s = (7 + 3 - 1 - k) / 3).
Proof.
  split; [lia|].
  destruct (proj1 (shardArray_balanced ["a"; "b"; "c"; "d"; "e"; "f"; "g"] 3) ltac:(lia))
    as (shards & Hrun & Hlen & _).
  exists shards. split; [exact Hrun|exact Hlen].
Defined.

(** ** More on the limiter *)

Section limiter_progress.
Import Limiter.
Context {T : Type} `{EqDecision T}.
Implicit Types (s : exec_state T) (tr : list (event T)).

Lemma settled_pending max s t s' :
  limiter_inv max s → step max s (Settled t) = Some s' →
  length (queue (lim s')) + length (running s') + 1 =
  length (queue (lim s)) + length (running s).
Proof.
  intros [Hc Hb Hf Hq] Hstep. destruct s as [[a q] sub st run]. simpl in *.
  destruct (decide (t ∈ run)) as [Hin|]; [|done].
  pose proof (length_remove_first t run Hin) as Hlen.
  unfold settle, next in Hstep. simpl in Hstep.
  destruct (decide (max ≤ a - 1)); [lia|].
  destruct q as [|t' q]; injection Hstep as <-; simpl;
    rewrite ?app_nil_r, ?length_app; simpl; lia.
Qed.

(** X4. The limiter wastes no slot and loses no task, for a bound of at
    least 1.  After any sequence of submissions and completions: when no
    task is running, none is waiting, and every task submitted was started;
    and every completion brings the number of tasks that are waiting or
    running down by exactly one (so that [Promise.all] over the submitted
    tasks settles after as many completions as there are tasks). *)
Theorem pLimit_drains (max : nat) tr s :
  exec max tr = Some s → 1 ≤ max →
  (running s = [] → queue (lim s) = [] ∧ started s = submitted s) ∧
  (∀ t s', step max s (Settled t) = Some s' →
     length (queue (lim s')) + length (running s') + 1 =
     length (queue (lim s)) + length (running s)) ∧
  (∀ t, ∃ s', step max s (Submit t) = Some s' ∧
              length (queue (lim s')) + length (running s') =
              length (queue (lim s)) + length (running s) + 1).
Proof.
  intros Hexec Hmax.
  assert (Hinv : limiter_inv max s).
  { eapply limiter_inv_exec_from; [apply limiter_inv_init|exact Hexec]. }
  split; [|split].
  - intros Hidle. destruct Hinv as [Hc Hb Hf Hq].
    assert (Hempty : queue (lim s) = []).
    { destruct (queue (lim s)) as [|t q] eqn:Hqueue; [done|].
      specialize (Hq ltac:(done)). rewrite Hidle in Hc. simpl in Hc. lia. }
    split; [done|]. by rewrite Hempty, app_nil_r in Hf.
  - intros t s'. by apply settled_pending.
  - intros t. destruct Hinv as [Hc Hb Hf Hq].
    destruct s as [[a q] sub st run]. simpl in *.
    unfold submit, next. simpl. destruct (decide (max ≤ a)).
    + eexists. split; [done|]. simpl. rewrite app_nil_r, length_app. simpl. lia.
    + destruct q as [|t' q]; [|specialize (Hq ltac:(done)); lia].
      simpl. eexists. split; [done|]. simpl. rewrite length_app. simpl. lia.
Qed.

Lemma idle_exec_from s tr s' :
  started s = [] → running s = [] → active (lim s) = 0 →
  exec_from 0 s tr = Some s' →
  started s' = [] ∧ running s' = [] ∧ active (lim s') = 0 ∧
  Forall (λ e, ∃ t, e = Submit t) tr.
Proof.
  revert s. induction tr as [|e tr IH]; intros s Hst Hrun Hact; simpl.
  - intros [= <-]. done.
  - destruct e as [t|t]; simpl.
    + unfold submit, next. simpl. destruct (decide (0 ≤ active (lim s))); [|lia].
      intros Hrest. apply IH in Hrest as (? & ? & ? & ?); simpl;
        rewrite ?Hst, ?Hrun; try done.
      repeat split; try done. constructor; [by exists t|done].
    + destruct (decide (t ∈ running s)) as [Hin|]; [|done].
      rewrite Hrun in Hin. by apply elem_of_nil in Hin.
Qed.

(** X5. A bound of 0 starts nothing: whatever is submitted stays in the
    queue, in order, and no task ever runs or completes. *)
Theorem pLimit_zero tr s :
  exec 0 tr = Some s →
  started s = [] ∧ running s = [] ∧ queue (lim s) = submitted s ∧
  Forall (λ e, ∃ t, e = Submit t) tr.
Proof.
  intros Hexec.
  assert (Hinv : limiter_inv 0 s).
  { eapply limiter_inv_exec_from; [apply limiter_inv_init|exact Hexec]. }
  apply idle_exec_from in Hexec as (Hst & Hrun & _ & Htr); try done.
  destruct Hinv as [_ _ Hf _]. rewrite Hst in Hf. done.
Qed.

End limiter_progress.

Lemma pLimit_drains_witness :
  ∃ s, Limiter.exec 2 burst = Some s ∧ 1 ≤ 2 ∧
       ∀ t s', Limiter.step 2 s (Limiter.Settled t) = Some s' →
               length (Limiter.queue (Limiter.lim s')) + length (Limiter.running s') + 1 =
               length (Limiter.queue (Limiter.lim s)) + length (Limiter.running s).
Proof.
  eexists. split; [vm_compute; reflexivity|]. split; [lia|].
  exact (proj1 (proj2 (pLimit_drains 2 burst _ burst_exec ltac:(lia)))).
Defined.

Lemma pLimit_zero_witness :
  ∃ s, Limiter.exec 0 [Limiter.Submit 1; Limiter.Submit 2] = Some s ∧
       Limiter.started s = [] ∧ Limiter.queue (Limiter.lim s) = [1; 2].
Proof.
  eexists. split; [vm_compute; reflexivity|].
  destruct (pLimit_zero [Limiter.Submit 1; Limiter.Submit 2] _ eq_refl) as (H1 & _ & H3 & _).
  split; [exact H1|exact H3].
Defined.

(** ** How often a key is queried *)

Section attempts.
Import JS Worker.
Implicit Types (cfg : config) (o : oracle) (w : world) (u : string).

(** What [checkSingle] makes of the [k]-th answer (from 0) that the service
    gives after [w], when it is asked for [u]. *)
Definition verdict (o : oracle) (w : world) (u : string) (k : nat) : outcome bool :=
  single_outcome (reply o (n_req w + k) (GET u)).

Lemma single_key_loop cfg u R n i err o w :
  i + n = S R → 0 < n →
  ∃ k res w',
    withRetry_loop (checkBatch cfg [u]) R n i err o w = (Val res, w') ∧
    i + k ≤ R ∧
    requests (trace w') = requests (trace w) ++ replicate (S k) (GET u) ∧
    n_req w' = n_req w + S k ∧ batch w' = batch w ∧ posted w' = posted w ∧
    (∀ j, j < k → ∃ msg, verdict o w u j = Thrown msg ∧ isRetryable msg = true) ∧
    match verdict o w u k with
    | Val a => res = Ok [record2 u (VBool a)]
    | Thrown msg => res = Failed msg ∧ (isRetryable msg = false ∨ i + k = R)
    end.
Proof.
  revert i err w. induction n as [|n IH]; intros i err w Hn Hpos; [lia|].
  pose proof (checkBatch_single cfg u o w) as Hfn.
  pose proof (after_request_requests cfg o w (GET u)) as Hreq.
  pose proof (after_request_n_req cfg o w (GET u)) as Hnreq.
  destruct (after_request_batch cfg o w (GET u)) as [Hb Hp].
  assert (Hzero : verdict o w u 0 = single_outcome (reply o (n_req w) (GET u))).
  { unfold verdict. by rewrite Nat.add_0_r. }
  destruct (single_outcome (reply o (n_req w) (GET u))) as [a|msg] eqn:Hout.
  - exists 0. eexists _, _. split; [by apply withRetry_loop_ok|].
    rewrite Hzero. repeat split; try done; lia.
  - destruct (decide (isRetryable msg = false ∨ i = R)) as [Hstop|Hgo].
    + exists 0. eexists _, _. split; [by apply withRetry_loop_stop|].
      rewrite Hzero. repeat split; try done; try lia.
      destruct Hstop; [by left|right; lia].
    + assert (Hre : isRetryable msg = true) by (destruct (isRetryable msg); tauto).
      assert (HiR : i ≠ R) by tauto.
      set (w1 := after_request cfg o w (GET u)) in *.
      destruct (IH (S i) (Some msg) (after_backoff o w1 msg i) ltac:(lia) ltac:(lia))
        as (k & res & w' & Hrun & Hk & Htr & Hnr & Hb' & Hp' & Hbefore & Hlast).
      assert (Hshift : ∀ j, verdict o (after_backoff o w1 msg i) u j = verdict o w u (S j)).
      { intros j. unfold verdict. simpl. rewrite Hnreq.
        by replace (S (n_req w) + j) with (n_req w + S j) by lia. }
      exists (S k), res, w'. split.
      { rewrite (withRetry_loop_again _ _ _ _ _ _ _ msg w1); done. }
      split; [lia|]. split.
      { rewrite Htr, after_backoff_trace, requests_app. simpl.
        rewrite app_nil_r, Hreq, <-(assoc_L (++)). done. }
      split; [simpl in Hnr; lia|]. split; [by rewrite Hb'|]. split; [by rewrite Hp'|].
      split.
      * intros [|j] Hj; [rewrite Hzero; eauto|].
        rewrite <-Hshift. apply Hbefore. lia.
      * rewrite <-Hshift. destruct (verdict _ _ _ k); [done|].
        destruct Hlast as [? [?|?]]; split; try done; [by left|right; lia].
Qed.

(** X6. A batch of one key [u] is queried at least once and at most
    [R + 1] times (6 times in [run]), with [GET u] and nothing else; the
    queries go on as long as the answer is an error that is retried and
    stop at the first answer that is not; the result is the record of that
    answer's verdict, or its error; and nothing is pushed or posted on the
    way. *)
Theorem single_key_attempts cfg u (R : nat) o w :
  ∃ k res w',
    withRetry (checkBatch cfg [u]) R o w = (Val res, w') ∧
    k ≤ R ∧
    requests (trace w') = requests (trace w) ++ replicate (S k) (GET u) ∧
    batch w' = batch w ∧ posted w' = posted w ∧
    (∀ j, j < k → ∃ msg, verdict o w u j = Thrown msg ∧ isRetryable msg = true) ∧
    match verdict o w u k with
    | Val a => res = Ok [record2 u (VBool a)]
    | Thrown msg => res = Failed msg ∧ (isRetryable msg = false ∨ k = R)
    end.
Proof.
  destruct (single_key_loop cfg u R (S R) 0 None o w ltac:(lia) ltac:(lia))
    as (k & res & w' & Hrun & Hk & Htr & _ & Hb & Hp & Hbefore & Hlast).
  exists k, res, w'. repeat split; try done; lia.
Qed.

(** The result that [run] pushes for a key of a batch that fell back to
    single queries: its verdict, or the error of its one query. *)
Definition fallback_result (ttc : Z) (u : string) (resp : response) : CheckResult :=
  match single_outcome resp with
  | Val a => Result (VStr u) (VBool a) ttc VNull
  | Thrown msg => Result (VStr u) VNull ttc (or_else (VStr msg) VNull)
  end.

Lemma pushed_of_fallback ttc b (f : nat → string → response) :
  pushed_of ttc (imap (λ i u, fallback_record u (f i u)) b) =
  imap (λ i u, fallback_result ttc u (f i u)) b ∧
  Forall (λ r, is_Some (get_prop r "username"))
         (imap (λ i u, fallback_record u (f i u)) b).
Proof.
  revert f. induction b as [|u b IH]; intros f; simpl; [done|].
  destruct (IH (f ∘ S)) as [Hpushed HF]. split.
  - replace (to_result ttc (fallback_record u (f 0 u)))
      with (Some (fallback_result ttc u (f 0 u))).
    + f_equal. exact Hpushed.
    + unfold fallback_record, fallback_result. by destruct (single_outcome (f 0 u)).
  - constructor; [|exact HF]. rewrite fallback_record_username. by eexists.
Qed.

(** X7. A batch of several keys is never tried again.  [checkBatch] does
    not throw for it, so [withRetry] returns after one attempt, whatever
    the number of retries.  When the batched call is not accepted, [run]
    issues the batched call and one query per key and nothing more, and
    pushes for every key its verdict or the error of that one query, be it
    an error that [withRetry] would retry. *)
Theorem batch_single_attempt cfg (b : list string) (R : nat) o w :
  length b ≠ 1 →
  (∃ a w', checkBatch cfg b o w = (Val a, w') ∧
           withRetry (checkBatch cfg b) R o w = (Val (Ok a), w')) ∧
  (accepted (reply o (n_req w) (POST b)) = None →
   ∃ w' ttc,
     task cfg b o w = (Val tt, w') ∧
     requests (trace w') = requests (trace w) ++ POST b :: map GET b ∧
     all_results w' = all_results w ++
       imap (λ i u, fallback_result ttc u (reply o (S (n_req w) + i) (GET u))) b).
Proof.
  intros Hb. split.
  - destruct (accepted (reply o (n_req w) (POST b))) as [fields|] eqn:Hacc.
    + eexists _, _. split; [by apply checkBatch_accepted|].
      apply withRetry_loop_ok. by apply checkBatch_accepted.
    + destruct (checkBatch_fallback cfg b o w Hb Hacc) as (w' & Hrun & _).
      eexists _, w'. split; [done|]. by apply withRetry_loop_ok.
  - intros Hacc. unfold task. unfold bind at 1.
    destruct (Date_now_run o w) as (w0 & -> & Htr0 & Hn0 & Hb0 & Hp0).
    rewrite <-Hn0 in Hacc.
    destruct (checkBatch_fallback cfg b o w0 Hb Hacc) as (w1 & Hrun & Hreq & Hn1 & Hb1 & Hp1).
    unfold bind at 1. unfold withRetry.
    rewrite (withRetry_loop_ok _ _ _ _ _ _ _ _ _ Hrun).
    unfold bind at 1.
    destruct (Date_now_run o w1) as (w2 & -> & Htr2 & Hn2 & Hb2 & Hp2).
    set (ttc := ((clock o (n_clock w1) - clock o (n_clock w)) / Z.of_nat (length b))%Z).
    destruct (push_results_run cfg ttc
                (imap (λ i u, fallback_record u (reply o (S (n_req w0) + i) (GET u))) b) o w2)
      as (res & w' & Hpush & Hall & Hio & Hok).
    destruct (pushed_of_fallback ttc b (λ i u, reply o (S (n_req w0) + i) (GET u)))
      as [Hpushed HF].
    rewrite Hpush. exists w', ttc. rewrite (Hok HF). split; [done|].
    destruct Hio as (_ & _ & _ & Htr'). split.
    + rewrite Htr', Htr2, Hreq, Htr0. done.
    + rewrite Hall, Hpushed. unfold all_results.
      rewrite Hb2, Hp2, Hb1, Hp1, Hb0, Hp0, Hn0. done.
Qed.

End attempts.

Lemma batch_single_attempt_witness :
  length ["abc"; "def"] ≠ 1 ∧
  ∃ a w',
    Worker.withRetry (Worker.checkBatch pairs ["abc"; "def"]) 5 no_batch_endpoint Worker.start
    = (Worker.Val (Worker.Ok a), w') ∧
    requests (Worker.trace w') =
      [Worker.POST ["abc"; "def"]; Worker.GET "abc"; Worker.GET "def"].
Proof.
  split; [simpl; lia|].
  destruct (proj1 (batch_single_attempt pairs ["abc"; "def"] 5 no_batch_endpoint Worker.start
                     ltac:(simpl; lia))) as (a & w' & Hrun & Hretry).
  exists a, w'. split; [exact Hretry|].
  vm_compute in Hrun. injection Hrun as _ <-. vm_compute. reflexivity.
Defined.

(** ** The pause and the second query after a rate-limit answer *)

Section rate_limit.
Import JS Worker.
Implicit Types (cfg : config) (o : oracle) (w : world) (u : string).



End rate_limit.



(** ** Where the result of [withRetry] comes from *)

Section retry_origin.
Import JS Worker.
Context {A : Type}.
Implicit Types (fn : M A) (o : oracle) (w : world).

(** What an attempt must have given for [withRetry] to return [res]. *)
Definition last_outcome (res : retried A) : outcome A :=
  match res with
  | Ok a => Val a
  | Failed msg => Thrown msg
  end.

Lemma withRetry_loop_origin fn R o w n i err wi out w' :
  i + n = S R → 0 < n → attempt_world fn o w i = Some wi →
  withRetry_loop fn R n i err o wi = (out, w') →
  ∃ k wk res,
    out = Val res ∧ i ≤ k ≤ R ∧ attempt_world fn o w k = Some wk ∧
    fn o wk = (last_outcome res, w') ∧
    match res with
    | Ok _ => True
    | Failed msg => isRetryable msg = false ∨ k = R
    end.
Proof.
  revert i err wi. induction n as [|n IH]; intros i err wi Hn Hpos Hwi Hrun; [lia|].
  destruct (fn o wi) as [[a|msg] w1] eqn:Hfn.
  - rewrite (withRetry_loop_ok _ _ _ _ _ _ _ _ _ Hfn) in Hrun. injection Hrun as <- <-.
    exists i, wi, (Ok a). repeat split; try done; lia.
  - destruct (decide (isRetryable msg = false ∨ i = R)) as [Hstop|Hgo].
    + rewrite (withRetry_loop_stop _ _ _ _ _ _ _ _ _ Hfn Hstop) in Hrun.
      injection Hrun as <- <-. exists i, wi, (Failed msg). repeat split; try done; lia.
    + assert (Hre : isRetryable msg = true) by (destruct (isRetryable msg); tauto).
      assert (HiR : i ≠ R) by tauto.
      rewrite (withRetry_loop_again _ _ _ _ _ _ _ _ _ Hfn Hre HiR) in Hrun.
      apply IH in Hrun as (k & wk & res & ? & ? & ? & ? & ?); [|lia|lia|].
      * exists k, wk, res. repeat split; try done; lia.
      * simpl. by rewrite Hwi, Hfn, Hre.
Qed.

(** X19. What [withRetry] returns is what its last attempt gave.  There
    are at most [retries + 1] attempts, each but the last failed with an
    error that is retried, and the result is the value of the last attempt
    or the error it threw, in the world that attempt left; a failure is
    returned only for an error that is not retried or at the last attempt
    allowed.  So the message [Max retries] is never made up: the return
    after the loop is never reached. *)
Theorem withRetry_origin fn (R : nat) o w :
  ∃ k wk res w',
    withRetry fn R o w = (Val res, w') ∧
    k ≤ R ∧ attempt_world fn o w k = Some wk ∧
    fn o wk = (last_outcome res, w') ∧
    match res with
    | Ok _ => True
    | Failed msg => isRetryable msg = false ∨ k = R
    end.
Proof.
  destruct (withRetry fn R o w) as [out w'] eqn:Hrun.
  destruct (withRetry_loop_origin fn R o w (S R) 0 None w out w'
              ltac:(lia) ltac:(lia) eq_refl Hrun)
    as (k & wk & res & -> & Hk & Hwk & Hfn & Hlast).
  exists k, wk, res, w'. repeat split; try done; lia.
Qed.

End retry_origin.

(** ** The HTTP batches of a shard *)

Section chunks.
Import JS Worker.

Lemma chunk_count (len size : nat) :
  0 < size → 0 < len → (len + size - 1) / size = S ((len - size + size - 1) / size).
Proof.
  intros Hsize Hlen. destruct (decide (len ≤ size)) as [Hle|Hgt].
  - replace (len - size) with 0 by lia. simpl.
    rewrite (Nat.div_small (size - 1)) by lia.
    symmetry. apply (Nat.div_unique _ _ _ (len - 1)); lia.
  - replace (len + size - 1) with (len - size + size - 1 + 1 * size) by lia.
    rewrite Nat.div_add by lia. lia.
Qed.

Lemma httpBatches_from_chunks fuel size i us :
  0 < size → length us - i < fuel →
  httpBatches_from fuel size i us =
  Some ((λ j, take size (drop (i + j * size) us)) <$>
        seq 0 ((length us - i + size - 1) / size)).
Proof.
  intros Hsize. revert i. induction fuel as [|fuel IH]; intros i Hfuel; [lia|]. simpl.
  destruct (decide (i < length us)) as [Hi|Hi].
  - rewrite IH by lia. simpl.
    rewrite (chunk_count (length us - i) size) by lia. simpl.
    rewrite Nat.add_0_r. do 2 f_equal.
    replace (length us - (i + size)) with (length us - i - size) by lia.
    rewrite <-seq_shift. rewrite <-list_fmap_compose. apply list_fmap_ext.
    intros _ j _. simpl. do 2 f_equal. lia.
  - replace (length us - i) with 0 by lia. simpl.
    by rewrite (Nat.div_small (size - 1)) by lia.
Qed.

(** X8. With a positive batch size the shard is cut into
    [ceil (length / size)] HTTP batches, and batch [j] holds the keys at the
    positions from [j * size] up to [(j + 1) * size]: every batch but the
    last has exactly [size] keys, and the last has what remains (at least
    one).  With a batch size of 0 the loop ends for the empty shard only. *)
Theorem httpBatches_chunks (cfg : config) :
  (0 < httpBatchSize cfg →
   ∃ bs,
     httpBatches cfg = Some bs ∧
     length bs = (length (usernames cfg) + httpBatchSize cfg - 1) / httpBatchSize cfg ∧
     (∀ j b, bs !! j = Some b →
        b = take (httpBatchSize cfg) (drop (j * httpBatchSize cfg) (usernames cfg)) ∧
        (S j < length bs → length b = httpBatchSize cfg) ∧
        (S j = length bs →
         length b = length (usernames cfg) - j * httpBatchSize cfg ∧
         0 < length b ≤ httpBatchSize cfg))) ∧
  (httpBatchSize cfg = 0 →
   httpBatches cfg = if decide (usernames cfg = []) then Some [] else None).
Proof.
  split.
  - intros Hsize. unfold httpBatches.
    rewrite (httpBatches_from_chunks _ _ 0) by lia.
    set (size := httpBatchSize cfg) in *. set (us := usernames cfg).
    rewrite Nat.sub_0_r. set (count := (length us + size - 1) / size).
    eexists. split; [done|]. split; [by rewrite length_fmap, length_seq|].
    rewrite length_fmap, length_seq.
    intros j b Hj. rewrite list_lookup_fmap in Hj.
    destruct (seq 0 count !! j) as [j'|] eqn:Hseq; [|done].
    apply lookup_seq in Hseq as [-> Hlt]. simpl in Hj. injection Hj as <-.
    split; [done|]. rewrite length_take, length_drop.
    assert (Hlo : (count - 1) * size < length us).
    { assert (count * size ≤ length us + size - 1).
      { unfold count. rewrite Nat.mul_comm. apply Nat.Div0.mul_div_le. }
      nia. }
    assert (Hhi : length us ≤ count * size).
    { pose proof (Nat.div_mod_eq (length us + size - 1) size) as Heq.
      pose proof (Nat.mod_upper_bound (length us + size - 1) size ltac:(lia)).
      fold count in Heq. nia. }
    split; intros Hcount.
    + assert (S j * size ≤ (count - 1) * size) by (apply Nat.mul_le_mono_r; lia). lia.
    + replace (count - 1) with j in Hlo by lia.
      assert (count * size = j * size + size) by (rewrite <-Hcount; lia). lia.
  - intros Hzero. unfold httpBatches. rewrite Hzero.
    destruct (usernames cfg) as [|u us]; [done|].
    rewrite decide_False by done. apply httpBatches_from_zero. simpl. lia.
Qed.

End chunks.

Lemma httpBatches_chunks_witness :
  0 < 2 ∧
  ∃ bs, Worker.httpBatches (Worker.Config ["abc"; "def"; "ghi"] 200 true 0 0 1 2) = Some bs ∧
        length bs = 2.
Proof.
  split; [lia|].
  destruct (proj1 (httpBatches_chunks (Worker.Config ["abc"; "def"; "ghi"] 200 true 0 0 1 2))
              ltac:(simpl; lia)) as (bs & Hrun & Hlen & _).
  exists bs. split; [exact Hrun|exact Hlen].
Defined.

(** ** How long a key can wait *)

Section pauses.
Import JS Worker.
Implicit Types (cfg : config) (o : oracle) (w : world) (u : string).

(** The time slept in a trace, in milliseconds. *)
Fixpoint slept (tr : list event) : Q :=
  match tr with
  | [] => 0
  | EvSleep ms :: tr' => ms + slept tr'
  | EvRequest _ :: tr' => slept tr'
  end.

(** [Math.random()] is at least 0 and less than 1. *)
Definition unit_random (o : oracle) : Prop := ∀ n, (0 <= random o n ∧ random o n < 1)%Q.

(** The longest pause before a request. *)
Definition pause_max (cfg : config) : Q :=
  if Qlt_le_dec 0 (sleepMs cfg) then sleepMs cfg else 30.

(** The pauses of [n] attempts from attempt [i] on, at most: one pause
    before every request, and a pause after every attempt but the last. *)
Fixpoint budget (cfg : config) (n i : nat) : Q :=
  match n with
  | 0 => 0
  | S n' =>
      pause_max cfg +
      match n' with
      | 0 => 0
      | _ => 1000 * inject_Z (2 ^ Z.of_nat i) + 500 + budget cfg n' (S i)
      end
  end.

Lemma slept_app tr1 tr2 : (slept (tr1 ++ tr2) == slept tr1 + slept tr2)%Q.
Proof.
  induction tr1 as [|[r|ms] tr1 IH]; simpl; [lra|done|]. rewrite IH. lra.
Qed.

Lemma budget_nonneg cfg n i : (0 <= budget cfg n i)%Q.
Proof.
  revert i. induction n as [|n IH]; intros i; simpl; [lra|].
  assert (0 <= pause_max cfg)%Q.
  { unfold pause_max. destruct (Qlt_le_dec 0 (sleepMs cfg)); lra. }
  destruct n as [|n]; [lra|]. specialize (IH (S i)).
  assert (0 <= inject_Z (2 ^ Z.of_nat i))%Q.
  { change 0%Q with (inject_Z 0). rewrite <-Zle_Qle. apply Z.pow_nonneg. lia. }
  set (p := inject_Z (2 ^ Z.of_nat i)) in *. set (b := budget cfg (S n) (S i)) in *. lra.
Qed.

Lemma after_request_slept cfg o w r :
  unit_random o →
  (slept (trace w) < slept (trace (after_request cfg o w r)) ∧
   slept (trace (after_request cfg o w r)) <= slept (trace w) + pause_max cfg)%Q.
Proof.
  intros Hrandom. unfold after_request, delay, pause_max, bind.
  destruct (Qlt_le_dec 0 (sleepMs cfg)); simpl; rewrite !slept_app; simpl.
  - lra.
  - destruct (Hrandom (n_rand w)). set (x := random o (n_rand w)) in *. lra.
Qed.

Lemma after_backoff_slept o w msg i :
  unit_random o →
  (slept (trace w) < slept (trace (after_backoff o w msg i)) ∧
   slept (trace (after_backoff o w msg i)) <=
     slept (trace w) + 1000 * inject_Z (2 ^ Z.of_nat i) + 500)%Q.
Proof.
  intros Hrandom. rewrite after_backoff_trace, slept_app. simpl.
  unfold backoff, baseDelay.
  assert (1 <= inject_Z (2 ^ Z.of_nat i))%Q.
  { change 1%Q with (inject_Z 1). rewrite <-Zle_Qle.
    pose proof (Z.pow_pos_nonneg 2 (Z.of_nat i)). lia. }
  destruct (Hrandom (n_rand w)).
  set (p := inject_Z (2 ^ Z.of_nat i)) in *. set (x := random o (n_rand w)) in *.
  destruct (isRateLimit msg); lra.
Qed.

Lemma single_key_loop_slept cfg u R n i err o w :
  unit_random o → i + n = S R → 0 < n →
  ∃ res w',
    withRetry_loop (checkBatch cfg [u]) R n i err o w = (Val res, w') ∧
    (slept (trace w) < slept (trace w') ∧
     slept (trace w') <= slept (trace w) + budget cfg n i)%Q.
Proof.
  intros Hrandom. revert i err w. induction n as [|n IH]; intros i err w Hn Hpos; [lia|].
  pose proof (checkBatch_single cfg u o w) as Hfn.
  destruct (after_request_slept cfg o w (GET u) Hrandom) as [Hlo Hhi].
  set (w1 := after_request cfg o w (GET u)) in *.
  assert (Hfirst : (slept (trace w1) <= slept (trace w) + budget cfg (S n) i)%Q).
  { simpl. destruct n as [|n]; [lra|].
    pose proof (budget_nonneg cfg (S n) (S i)).
    assert (0 <= inject_Z (2 ^ Z.of_nat i))%Q.
    { change 0%Q with (inject_Z 0). rewrite <-Zle_Qle. apply Z.pow_nonneg. lia. }
    set (p := inject_Z (2 ^ Z.of_nat i)) in *. set (b := budget cfg (S n) (S i)) in *. lra. }
  destruct (single_outcome (reply o (n_req w) (GET u))) as [a|msg] eqn:Hout.
  - eexists _, w1. split; [by apply withRetry_loop_ok|]. done.
  - destruct (decide (isRetryable msg = false ∨ i = R)) as [Hstop|Hgo].
    + eexists _, w1. split; [by apply withRetry_loop_stop|]. done.
    + assert (Hre : isRetryable msg = true) by (destruct (isRetryable msg); tauto).
      assert (HiR : i ≠ R) by tauto.
      destruct (after_backoff_slept o w1 msg i Hrandom) as [Hlo2 Hhi2].
      destruct (IH (S i) (Some msg) (after_backoff o w1 msg i) ltac:(lia) ltac:(lia))
        as (res & w' & Hrun & Hlo3 & Hhi3).
      exists res, w'. split.
      { rewrite (withRetry_loop_again _ _ _ _ _ _ _ msg w1); done. }
      split; [lra|]. simpl. destruct n as [|n]; [lia|].
      set (p := inject_Z (2 ^ Z.of_nat i)) in *. set (b := budget cfg (S n) (S i)) in *.
      lra.
Qed.

(** X20. The pauses of one key are bounded.  With random numbers in
    [0, 1), the pause before a request is [sleepMs] when that is positive
    and less than 30 ms otherwise, and the pause after a failed attempt [i]
    is less than [1000 * 2^i + 500] ms.  So the six attempts that [run]
    allows for a key that is queried alone sleep for no more than six
    pauses before a request and 33.5 seconds of back-off, and for more than
    nothing: no request is sent without a pause before it. *)
Theorem single_key_pause_budget cfg u o w :
  unit_random o →
  ∃ res w',
    withRetry (checkBatch cfg [u]) default_retries o w = (Val res, w') ∧
    (slept (trace w) < slept (trace w') ∧
     slept (trace w') <= slept (trace w) + 6 * pause_max cfg + 33500)%Q.
Proof.
  intros Hrandom.
  destruct (single_key_loop_slept cfg u default_retries (S default_retries) 0 None o w
              Hrandom ltac:(lia) ltac:(lia)) as (res & w' & Hrun & Hlo & Hhi).
  exists res, w'. split; [done|]. split; [done|].
  assert (Hbudget : (budget cfg (S default_retries) 0 == 6 * pause_max cfg + 33500)%Q).
  { unfold default_retries. cbn [budget]. set (p := pause_max cfg).
    change (inject_Z (2 ^ Z.of_nat 0)) with 1%Q.
    change (inject_Z (2 ^ Z.of_nat 1)) with 2%Q.
    change (inject_Z (2 ^ Z.of_nat 2)) with 4%Q.
    change (inject_Z (2 ^ Z.of_nat 3)) with 8%Q.
    change (inject_Z (2 ^ Z.of_nat 4)) with 16%Q. lra. }
  rewrite Hbudget in Hhi. lra.
Qed.

End pauses.

Lemma single_key_pause_budget_witness :
  unit_random once_limited ∧
  ∃ res w',
    Worker.withRetry (Worker.checkBatch plain ["abc"]) Worker.default_retries
      once_limited Worker.start = (Worker.Val res, w') ∧
    (slept (Worker.trace w') <= 0 + 6 * 30 + 33500)%Q.
Proof.
  assert (Hrandom : unit_random once_limited).
  { intros n. simpl. split; [discriminate|reflexivity]. }
  split; [exact Hrandom|].
  destruct (single_key_pause_budget plain "abc" once_limited Worker.start Hrandom)
    as (res & w' & Hrun & _ & Hhi).
  exists res, w'. split; [exact Hrun|exact Hhi].
Defined.

(** ** The messages of a worker *)

Section grouping.
Import JS Worker.
Implicit Types (cfg : config) (o : oracle) (w : world) (m : message).

(** The number of results of a full message. *)
Definition group (cfg : config) : nat := Nat.max 1 (BATCH cfg).

(** The type of a message goes with the number of its results: ['result']
    carries one, ['batch'] carries two or more. *)
Definition well_typed (m : message) : Prop :=
  match m with
  | MsgResult _ => True
  | MsgBatch rs => 2 ≤ length rs
  end.

Definition whole (cfg : config) (m : message) : Prop :=
  length (results_of m) = group cfg ∧ well_typed m.

(** Between two pushes: the buffer is not full, and every message posted
    is. *)
Definition grouped (cfg : config) (w : world) : Prop :=
  length (batch w) < group cfg ∧ Forall (whole cfg) (posted w).

Lemma grouped_quiet cfg w w' : quiet w w' → grouped cfg w → grouped cfg w'.
Proof. intros [Hb Hp] [??]. split; by rewrite ?Hb, ?Hp. Qed.

Lemma push_grouped cfg r o w : grouped cfg w → grouped cfg (snd (push cfg r o w)).
Proof.
  intros [Hlen Hposted]. unfold grouped, whole, group in *. unfold push. simpl.
  rewrite length_app. simpl. destruct (decide _) as [Hfull|Hroom].
  - unfold flush. simpl.
    destruct (batch w ++ [r]) as [|r1 [|r2 rs]] eqn:Hbatch.
    + by destruct (batch w).
    + simpl. split; [lia|]. apply Forall_app. split; [done|].
      constructor; [|done]. split; [|done]. simpl.
      apply (f_equal length) in Hbatch. rewrite length_app in Hbatch. simpl in Hbatch. lia.
    + simpl. split; [lia|]. apply Forall_app. split; [done|].
      constructor; [|done].
      apply (f_equal length) in Hbatch. rewrite length_app in Hbatch. simpl in Hbatch.
      split; simpl; lia.
  - simpl. rewrite length_app. simpl. split; [lia|done].
Qed.

Lemma for_each_grouped {A} cfg (l : list A) (f : A → M unit) :
  (∀ x o w, grouped cfg w → grouped cfg (snd (f x o w))) →
  ∀ o w, grouped cfg w → grouped cfg (snd (for_each l f o w)).
Proof.
  intros Hf o. induction l as [|x l IH]; intros w Hw; simpl; [done|].
  unfold bind. specialize (Hf x o w Hw).
  destruct (f x o w) as [[[]|msg] w1]; simpl in *; auto.
Qed.

Lemma task_grouped cfg b o w : grouped cfg w → grouped cfg (snd (task cfg b o w)).
Proof.
  intros Hw. unfold task. unfold bind at 1.
  destruct (Date_now_run o w) as (w0 & -> & _ & _ & Hq0).
  destruct (withRetry (checkBatch cfg b) default_retries o w0) as [res1 w1] eqn:Hretry.
  unfold bind at 1. rewrite Hretry.
  apply (withRetry_loop_effect (checkBatch cfg b) quiet (λ _, True)) in Hretry.
  2:{ apply quiet_refl. }
  2:{ apply quiet_trans. }
  2:{ intros. apply (after_backoff_asks []). }
  2:{ intros w2 res2 w3 H2. apply checkBatch_effect in H2 as (_ & ? & _). done. }
  destruct Hretry as [Hq1 (r & -> & _)].
  unfold bind at 1. destruct (Date_now_run o w1) as (w2 & -> & _ & _ & Hq2).
  assert (Hw2 : grouped cfg w2).
  { eapply grouped_quiet; [|exact Hw].
    eapply quiet_trans; [exact Hq0|]. eapply quiet_trans; [exact Hq1|exact Hq2]. }
  destruct r as [a|err]; apply for_each_grouped; try done.
  - intros x o' w' Hw'. unfold bind, prop.
    destruct (get_prop x "username"); [|done]. unfold ret at 1.
    destruct (get_prop x "available"); [|done]. unfold ret at 1.
    destruct (get_prop x "error"); [|done]. unfold ret at 1.
    by apply push_grouped.
  - intros x o' w' Hw'. by apply push_grouped.
Qed.

Lemma flush_grouped cfg o w :
  grouped cfg w →
  ∃ w' last,
    flush o w = (Val tt, w') ∧ batch w' = [] ∧ posted w' = posted w ++ last ∧
    (last = [] ∨ ∃ m, last = [m] ∧ 0 < length (results_of m) < group cfg ∧ well_typed m).
Proof.
  intros [Hlen _]. unfold flush. destruct (batch w) as [|r1 [|r2 rs]] eqn:Hbatch.
  - exists w, []. rewrite app_nil_r. split; [done|]. split; [done|]. split; [done|]. by left.
  - eexists _, [MsgResult r1]. split; [done|]. split; [done|]. split; [done|].
    right. eexists. split; [done|]. simpl in *. split; [lia|done].
  - eexists _, [MsgBatch (r1 :: r2 :: rs)]. split; [done|]. split; [done|]. split; [done|].
    right. eexists. split; [done|]. simpl in *. split; [lia|lia].
Qed.

(** X9. The messages of a worker that has exited.  Every message but the
    last carries exactly [max 1 BATCH] results; the last one, posted by the
    final [flush], may carry fewer (at least one).  A message of type
    ['result'] carries one result and a message of type ['batch'] two or
    more.  After an exit with code 0 the buffer is empty; after another
    exit it was not flushed.  When [BATCH] is at most 1 (verbose mode, or a
    batch size of 1 as the orchestrator always sets it), every message is
    of type ['result']. *)
Theorem run_messages cfg (order : list nat) o (code : Z) w :
  run cfg order o = Some (code, w) →
  ∃ full last,
    posted w = full ++ last ∧
    Forall (λ m, length (results_of m) = group cfg) full ∧
    (last = [] ∨ ∃ m, last = [m] ∧ 0 < length (results_of m) < group cfg) ∧
    Forall well_typed (posted w) ∧
    (code = 0%Z → batch w = []) ∧
    (code ≠ 0%Z → last = [] ∧ length (batch w) < group cfg) ∧
    (BATCH cfg ≤ 1 → Forall (λ m, ∃ r, m = MsgResult r) (posted w)).
Proof.
  intros Hrun.
  assert (Hstart : grouped cfg start).
  { split; [unfold group; simpl; lia|constructor]. }
  assert (Hshape : ∃ full last,
            posted w = full ++ last ∧ Forall (whole cfg) full ∧
            (last = [] ∨ ∃ m, last = [m] ∧ 0 < length (results_of m) < group cfg ∧ well_typed m) ∧
            (code = 0%Z → batch w = []) ∧
            (code ≠ 0%Z → last = [] ∧ length (batch w) < group cfg)).
  { unfold run in Hrun. destruct (httpBatches cfg) as [[|b bs]|]; [| |done].
    - injection Hrun as <- <-. exists [], []. simpl. repeat split; try done. by left.
    - destruct (decide (concurrency cfg = 0)); [done|].
      destruct (decide (order ≡ₚ _)); [|done].
      unfold bind in Hrun.
      pose proof (for_each_grouped cfg (omap (λ i, (b :: bs) !! i) order) (task cfg)
                    (λ x o' w', task_grouped cfg x o' w') o start Hstart) as Hw1.
      destruct (for_each _ (task cfg) o start) as [[[]|msg] w1]; simpl in Hw1.
      + destruct (flush_grouped cfg o w1 Hw1) as (w' & last & Hflush & Hb & Hp & Hlast).
        rewrite Hflush in Hrun. injection Hrun as <- <-.
        exists (posted w1), last. destruct Hw1 as [_ Hfull]. repeat split; try done.
      + injection Hrun as <- <-. exists (posted w1), []. rewrite app_nil_r.
        destruct Hw1 as [? Hfull]. repeat split; try done. by left. }
  destruct Hshape as (full & last & Hposted & Hfull & Hlast & Hzero & Hnonzero).
  exists full, last. split; [done|]. split.
  { eapply Forall_impl; [exact Hfull|]. by intros m [? _]. }
  split.
  { destruct Hlast as [?|(m & ? & ? & _)]; [by left|right; eauto]. }
  assert (Htyped : Forall well_typed (posted w)).
  { rewrite Hposted. apply Forall_app. split.
    - eapply Forall_impl; [exact Hfull|]. by intros m [_ ?].
    - destruct Hlast as [->|(m & -> & _ & ?)]; [done|]. by constructor. }
  split; [done|]. split; [done|]. split; [done|].
  intros Hone. assert (Hgroup : group cfg = 1) by (unfold group; lia).
  rewrite Hposted. apply Forall_app. split.
  - eapply Forall_impl; [exact Hfull|]. intros [r|rs] [Hlen Hty]; [by exists r|].
    simpl in *. lia.
  - destruct Hlast as [->|(m & -> & ? & _)]; [done|]. lia.
Qed.

(** A worker of the orchestrator posts messages of type ['result'] only. *)
Lemma workerData_BATCH (a : Main.args) (idx : nat) (shard : list string) :
  BATCH (Main.workerData a idx shard) = 1.
Proof. unfold BATCH, Main.workerData. simpl. by destruct (Main.verbose a). Qed.

End grouping.

Lemma run_messages_witness :
  ∃ w,
    Worker.run three_keys [1; 0] all_taken = Some (0%Z, w) ∧
    Forall (λ m, ∃ r, m = Worker.MsgResult r) (Worker.posted w).
Proof.
  assert (H : ∃ w, Worker.run three_keys [1; 0] all_taken = Some (0%Z, w)).
  { eexists. vm_compute. reflexivity. }
  destruct H as [w Hrun]. exists w. split; [exact Hrun|].
  destruct (run_messages three_keys [1; 0] all_taken 0 w Hrun)
    as (full & last & _ & _ & _ & _ & _ & _ & Hone).
  apply Hone. vm_compute. lia.
Defined.

(** ** What a worker reports for a key *)

Section single_task.
Import JS Worker.
Implicit Types (cfg : config) (o : oracle) (w : world) (u : string).

(** An answer that gives the verdict [a]: a status from 200 to 299 and a
    JSON body whose [available] is the boolean [a]. *)
Definition answers (resp : response) (a : bool) : Prop :=
  ∃ s json, resp = Response s (Json json) ∧ (200 ≤ s < 300)%Z ∧
            get_prop json "available" = Some (VBool a).

Lemma single_outcome_verdict resp a : single_outcome resp = Val a ↔ answers resp a.
Proof.
  split.
  - destruct resp as [msg|s [msg|json]]; simpl; [done| |].
    + destruct (s =? 429)%Z; [done|]. destruct (500 <=? s)%Z; [done|].
      by destruct ((s <? 200)%Z || (300 <=? s)%Z).
    + destruct (s =? 429)%Z eqn:H429; [done|].
      destruct (500 <=? s)%Z eqn:H500; [done|].
      destruct ((s <? 200)%Z || (300 <=? s)%Z) eqn:Hrange; [done|].
      destruct (get_prop json "available") as [[]|] eqn:Hav; try done.
      intros [= ->]. exists s, json. split; [done|]. split; [lia|done].
  - intros (s & json & -> & Hs & Hav). simpl.
    rewrite (proj2 (Z.eqb_neq s 429)) by lia.
    rewrite (proj2 (Z.leb_gt 500 s)) by lia.
    rewrite (proj2 (Z.ltb_ge s 200)) by lia.
    rewrite (proj2 (Z.leb_gt 300 s)) by lia. simpl. by rewrite Hav.
Qed.

(** X21. What a worker reports for a key that is queried alone (the
    default).  The task pushes exactly one result, for that key, and does
    not throw.  The result is the verdict of the last answer when that
    answer has a status from 200 to 299 and a JSON body whose [available]
    is a boolean (and then carries no error), and the error of the last
    answer otherwise (and then [available] is [null]): an answer with
    another status, another body or another type of [available] is never
    reported as a verdict.  The last answer is the first one, of six at
    most, that is not an error that is retried. *)
Theorem single_task_report cfg u o w :
  ∃ k w' r,
    task cfg [u] o w = (Val tt, w') ∧
    all_results w' = all_results w ++ [r] ∧
    requests (trace w') = requests (trace w) ++ replicate (S k) (GET u) ∧
    k ≤ default_retries ∧
    (∀ j, j < k → ∃ msg, verdict o w u j = Thrown msg ∧ isRetryable msg = true) ∧
    username r = VStr u ∧
    (∀ a, answers (reply o (n_req w + k) (GET u)) a ↔ available r = VBool a) ∧
    match verdict o w u k with
    | Val a => available r = VBool a ∧ error r = VNull
    | Thrown msg =>
        available r = VNull ∧ error r = VStr msg ∧ (isRetryable msg = false ∨ k = default_retries)
    end.
Proof.
  unfold task. unfold bind at 1.
  destruct (Date_now_run o w) as (w0 & -> & Htr0 & Hn0 & Hb0 & Hp0).
  destruct (single_key_loop cfg u default_retries (S default_retries) 0 None o w0
              ltac:(lia) ltac:(lia))
    as (k & res & w1 & Hretry & Hk & Htr1 & _ & Hb1 & Hp1 & Hbefore & Hlast).
  unfold bind at 1. unfold withRetry. rewrite Hretry. unfold bind at 1.
  destruct (Date_now_run o w1) as (w2 & -> & Htr2 & _ & Hb2 & Hp2).
  assert (Hverdict : ∀ j, verdict o w0 u j = verdict o w u j).
  { intros j. unfold verdict. by rewrite Hn0. }
  rewrite Hverdict in Hlast.
  assert (Hall2 : all_results w2 = all_results w).
  { unfold all_results. by rewrite Hb2, Hp2, Hb1, Hp1, Hb0, Hp0. }
  assert (Hreq2 : requests (trace w2) = requests (trace w) ++ replicate (S k) (GET u)).
  { by rewrite Htr2, Htr1, Htr0. }
  assert (Hanswers : ∀ a, answers (reply o (n_req w + k) (GET u)) a ↔
                          verdict o w u k = Val a).
  { intros a. unfold verdict. by rewrite single_outcome_verdict. }
  set (ttc := (clock o (n_clock w1) - clock o (n_clock w))%Z) in *.
  destruct (verdict o w u k) as [a|msg] eqn:Hout.
  - rewrite Hlast.
    destruct (push_results_run cfg (ttc / Z.of_nat (length [u]))%Z [record2 u (VBool a)] o w2)
      as (out & w' & Hpush & Hall & (_ & _ & _ & Htr') & Hok).
    rewrite Hpush, Hok by (repeat constructor; by eexists).
    exists k, w'. eexists. rewrite Hout. split; [done|]. split; [by rewrite Hall, Hall2|].
    split; [by rewrite Htr', Hreq2|]. split; [lia|].
    split; [intros j Hj; rewrite <-Hverdict; by apply Hbefore|].
    split; [done|]. split; [|done].
    intros a'. rewrite Hanswers. simpl. split; [by intros [= ->]|by intros [= ->]].
  - destruct Hlast as [-> Hstop].
    destruct (push_failures_run cfg ttc msg [u] o w2)
      as (w' & Hpush & Hall & (_ & _ & _ & Htr')).
    rewrite Hpush. exists k, w'. eexists. rewrite Hout. split; [done|].
    split; [by rewrite Hall, Hall2|].
    split; [by rewrite Htr', Hreq2|]. split; [lia|].
    split; [intros j Hj; rewrite <-Hverdict; by apply Hbefore|].
    split; [done|]. split.
    + intros a'. rewrite Hanswers. simpl. split; done.
    + simpl. split; [done|]. split; [done|]. destruct Hstop; [by left|right; lia].
Qed.

End single_task.

(** ** The rotation of the headers *)

Section rotation.
Import Headers.

Lemma calls_lookup workerId n c i h :
  calls workerId n c !! i = Some h ↔ i < n ∧ h = fst (getHeaders workerId (c + i)).
Proof.
  revert c i. induction n as [|n IH]; intros c i; simpl.
  - split; [done|lia].
  - destruct i as [|i]; simpl.
    + rewrite Nat.add_0_r. split; [intros [= <-]; split; [lia|done]|by intros [_ ->]].
    + rewrite IH. replace (S c + i) with (c + S i) by lia.
      split; intros [??]; split; try done; lia.
Qed.

Lemma pool_lookup (pool : list string) (a b : nat) :
  NoDup pool → 0 < length pool →
  (pool !! (a mod length pool) = pool !! (b mod length pool) ↔
   a mod length pool = b mod length pool).
Proof.
  intros Hnodup Hlen. split; [|by intros ->].
  intros Heq.
  destruct (lookup_lt_is_Some_2 pool (a mod length pool)) as [x Hx].
  { by apply Nat.mod_upper_bound, Nat.neq_0_lt_0. }
  rewrite Hx in Heq. symmetry in Heq. by eapply NoDup_lookup.
Qed.

Lemma mod_shift (a b k m : nat) :
  0 < m → ((S a + k) mod m = (S b + k) mod m ↔ a mod m = b mod m).
Proof.
  intros Hm.
  assert (Hadd : ∀ x y c, x mod m = y mod m → (x + c) mod m = (y + c) mod m).
  { intros x y c Hxy. rewrite (Nat.Div0.add_mod x), (Nat.Div0.add_mod y). by rewrite Hxy. }
  split; intros H.
  - pose proof (Nat.div_mod_eq (S k) m) as Hk.
    pose proof (Nat.mod_upper_bound (S k) m ltac:(lia)) as Hr.
    apply (Hadd _ _ (m * S (S k / m) - S k)) in H.
    replace (S a + k + (m * S (S k / m) - S k)) with (a + S (S k / m) * m) in H by nia.
    replace (S b + k + (m * S (S k / m) - S k)) with (b + S (S k / m) * m) in H by nia.
    by rewrite !Nat.Div0.mod_add in H.
  - replace (S a + k) with (a + S k) by lia. replace (S b + k) with (b + S k) by lia.
    by apply Hadd.
Qed.

(** X10. The headers rotate with every request.  Of the requests of one
    worker, each carries a user agent and a language of the two pools
    (never [undefined]); two of them carry the same user agent exactly when
    their numbers are equal modulo 8, and the same language exactly when
    they are equal modulo 4: a request never has the user agent of the one
    before it.  At the same request number two workers carry the same user
    agent exactly when their ids are equal modulo 8. *)
Theorem getHeaders_rotation (workerId n i j : nat) (hi hj : headers) :
  calls workerId n 0 !! i = Some hi → calls workerId n 0 !! j = Some hj →
  (∃ ua lang, user_agent hi = Some ua ∧ ua ∈ USER_AGENTS ∧
              accept_language hi = Some lang ∧ lang ∈ ACCEPT_LANGS) ∧
  (user_agent hi = user_agent hj ↔ i mod 8 = j mod 8) ∧
  (accept_language hi = accept_language hj ↔ i mod 4 = j mod 4) ∧
  (j = S i → user_agent hi ≠ user_agent hj ∧ accept_language hi ≠ accept_language hj) ∧
  (∀ workerId' h', calls workerId' n 0 !! i = Some h' →
     (user_agent hi = user_agent h' ↔ workerId mod 8 = workerId' mod 8) ∧
     accept_language hi = accept_language h').
Proof.
  intros [Hi ->]%calls_lookup [Hj ->]%calls_lookup.
  unfold getHeaders. cbn [fst user_agent accept_language Nat.add].
  assert (Hua : NoDup USER_AGENTS) by (apply (bool_decide_unpack _); vm_compute; exact I).
  assert (Hlang : NoDup ACCEPT_LANGS) by (apply (bool_decide_unpack _); vm_compute; exact I).
  change (length USER_AGENTS) with 8. change (length ACCEPT_LANGS) with 4.
  pose proof (pool_lookup USER_AGENTS) as Hpu. change (length USER_AGENTS) with 8 in Hpu.
  pose proof (pool_lookup ACCEPT_LANGS) as Hpl. change (length ACCEPT_LANGS) with 4 in Hpl.
  assert (Hsame_ua : USER_AGENTS !! ((S i + workerId) mod 8) =
                     USER_AGENTS !! ((S j + workerId) mod 8) ↔ i mod 8 = j mod 8).
  { rewrite Hpu by (done || lia). apply mod_shift. lia. }
  assert (Hsame_lang : ACCEPT_LANGS !! (S i mod 4) = ACCEPT_LANGS !! (S j mod 4) ↔
                       i mod 4 = j mod 4).
  { rewrite Hpl by (done || lia).
    replace (S i) with (S i + 0) by lia. replace (S j) with (S j + 0) by lia.
    apply mod_shift. lia. }
  split; [|split; [done|split; [done|split]]].
  - destruct (lookup_lt_is_Some_2 USER_AGENTS ((S i + workerId) mod 8)) as [ua Hx].
    { apply Nat.mod_upper_bound. simpl. lia. }
    destruct (lookup_lt_is_Some_2 ACCEPT_LANGS (S i mod 4)) as [lang Hy].
    { apply Nat.mod_upper_bound. simpl. lia. }
    exists ua, lang. split; [done|]. split; [by eapply list_elem_of_lookup_2|].
    split; [done|]. by eapply list_elem_of_lookup_2.
  - intros ->. rewrite Hsame_ua, Hsame_lang.
    assert (Hnext : ∀ m, 1 < m → i mod m ≠ S i mod m).
    { intros m Hm Heq.
      pose proof (Nat.div_mod_eq i m). pose proof (Nat.div_mod_eq (S i) m).
      pose proof (Nat.mod_upper_bound i m ltac:(lia)).
      assert (S i / m = i / m ∨ S i / m = S (i / m)) as [Hq|Hq].
      { assert (i / m ≤ S i / m) by (apply Nat.Div0.div_le_mono; lia).
        assert (S i / m ≤ (i + 1 * m) / m) by (apply Nat.Div0.div_le_mono; lia).
        rewrite Nat.div_add in * by lia. lia. }
      - rewrite Hq in *. lia.
      - rewrite Hq in *. nia. }
    split; apply Hnext; lia.
  - intros workerId' h' [_ ->]%calls_lookup.
    unfold getHeaders. cbn [fst user_agent accept_language Nat.add].
    change (length USER_AGENTS) with 8. split; [|done].
    rewrite Hpu by (done || lia).
    replace (S (i + workerId)) with (S workerId + i) by lia.
    replace (S (i + workerId')) with (S workerId' + i) by lia.
    apply mod_shift. lia.
Qed.

End rotation.

Lemma getHeaders_rotation_witness :
  ∃ h0 h1,
    Headers.calls 3 10 0 !! 0 = Some h0 ∧ Headers.calls 3 10 0 !! 1 = Some h1 ∧
    Headers.user_agent h0 ≠ Headers.user_agent h1.
Proof.
  eexists _, _. split; [reflexivity|]. split; [reflexivity|].
  exact (proj1 (proj1 (proj2 (proj2 (proj2 (getHeaders_rotation 3 10 0 1 _ _ eq_refl eq_refl))))
                  eq_refl)).
Defined.

(** ** The names of a run *)

Section names.
Import JS Main.
Implicit Types (cmp : string → string → Z) (l : list string).

Lemma dedupe_NoDup seen l :
  NoDup (dedupe seen l) ∧ ∀ x, x ∈ dedupe seen l ↔ x ∈ l ∧ x ∉ seen.
Proof.
  revert seen. induction l as [|y l IH]; intros seen; simpl.
  - split; [constructor|]. intros x. split; [by intros ?%elem_of_nil|].
    by intros [?%elem_of_nil _].
  - destruct (decide (y ∈ seen)) as [Hy|Hy].
    + destruct (IH seen) as [Hnd Hin]. split; [done|]. intros x. rewrite Hin.
      split; [intros [??]; split; [by right|done]|].
      intros [[->|?]%elem_of_cons ?]; done.
    + destruct (IH (y :: seen)) as [Hnd Hin]. split.
      * constructor; [|done]. rewrite Hin. intros [_ Hn]. apply Hn. left.
      * intros x. rewrite elem_of_cons, Hin, !elem_of_cons. split.
        -- intros [->|[? Hn]]; [split; [by left|done]|].
           split; [by right|]. intros ?. apply Hn. by right.
        -- intros [[->|?] Hn]; [by left|].
           destruct (decide (x = y)) as [->|Hne]; [by left|].
           right. split; [done|]. by intros [?|?].
Qed.

Lemma insert_sorted_Permutation cmp x l : insert_sorted cmp x l ≡ₚ x :: l.
Proof.
  induction l as [|y l IH]; simpl; [done|].
  destruct (_ <? _)%Z; [|done]. rewrite IH. apply perm_swap.
Qed.

Lemma sort_Permutation cmp l : sort cmp l ≡ₚ l.
Proof.
  induction l as [|x l IH]; simpl; [done|].
  by rewrite insert_sorted_Permutation, IH.
Qed.

(** What [usernames] returns is a piece of the sorted list. *)
Lemma usernames_sublist cmp a content us :
  usernames cmp a content = Some us →
  us ≠ [] ∧
  us `sublist_of` sort cmp (filter (λ u, valid_length u = true) (raw content)).
Proof.
  unfold usernames.
  set (sorted := sort cmp (filter (λ u, valid_length u = true) (raw content))).
  set (skipped := if (1 <? start a)%Z then _ else sorted).
  assert (Hskipped : skipped `sublist_of` sorted).
  { unfold skipped. destruct (1 <? start a)%Z; [apply sublist_drop|done]. }
  intros Hus.
  assert (Hl : ∃ l, l `sublist_of` skipped ∧
                    match from a with
                    | Some name =>
                        if Str.nonempty name then
                          match findIndex name skipped with
                          | Some idx => Some (drop idx skipped)
                          | None => None
                          end
                        else Some skipped
                    | None => Some skipped
                    end = Some l).
  { destruct (from a) as [name|]; [|by exists skipped].
    destruct (Str.nonempty name); [|by exists skipped].
    destruct (findIndex name skipped) as [idx|]; [|done].
    exists (drop idx skipped). split; [apply sublist_drop|done]. }
  destruct Hl as (l & Hsub & Hl). rewrite Hl in Hus.
  destruct l as [|u l]; [done|]. injection Hus as <-.
  split; [done|]. by etrans.
Qed.

(** X11. No name is checked twice.  The list that a run shards is not
    empty, holds no name twice, and holds only names of the input file
    (trimmed lines) that pass the length filter; and whatever the number of
    workers, no name is in two shards or twice in one: the shards together
    are that list. *)
Theorem usernames_checked_once cmp (a : args) (content : string) (us : list string) :
  usernames cmp a content = Some us →
  us ≠ [] ∧ NoDup us ∧
  (∀ u, u ∈ us →
     valid_length u = true ∧ u ≠ EmptyString ∧
     u ∈ map Str.trim (Str.split_lines content)) ∧
  (∀ n shards, Shard.shardArray us n = Some shards →
     NoDup (concat shards) ∧ concat shards ≡ₚ us ∧ length shards = n).
Proof.
  intros Hus. destruct (usernames_sublist cmp a content us Hus) as [Hne Hsub].
  assert (Hraw : NoDup (raw content)) by apply dedupe_NoDup.
  assert (Hnd : NoDup us).
  { eapply sublist_NoDup; [|exact Hsub]. rewrite sort_Permutation.
    by apply NoDup_filter. }
  split; [done|]. split; [done|]. split.
  - intros u Hu. assert (Hin : u ∈ filter (λ u, valid_length u = true) (raw content)).
    { rewrite <-(sort_Permutation cmp). by eapply elem_of_sublist. }
    apply list_elem_of_filter in Hin as [Hvalid Hin]. split; [done|].
    unfold raw in Hin. apply dedupe_NoDup in Hin as [Hin _].
    apply list_elem_of_filter in Hin as [Hnonempty Hin].
    split; [by intros ->|done].
  - intros n shards Hshards. destruct n as [|n].
    + unfold Shard.shardArray in Hshards. simpl in Hshards. by destruct us.
    + destruct (shardArray_distributed us (S n) ltac:(lia)) as (shards' & Hrun & Hd).
      rewrite Hrun in Hshards. injection Hshards as <-.
      destruct Hd as [Hlen _ Hperm _]. split; [by rewrite Hperm|done].
Qed.

End names.

(** A file with a name twice, a name that is too short and a name with a
    letter of Latin-1 ([àbc], the code unit 224). *)
Definition pears : string :=
  "pear" +:+ Str.nl +:+ "apple" +:+ Str.nl +:+ "pear" +:+ Str.nl +:+ "ab" +:+ Str.nl +:+
  String (ascii_of_nat 224) "bc" +:+ Str.nl.

(** The run resumes at [ÀBC] (the code unit 192), which finds [àbc]. *)
Lemma usernames_checked_once_witness :
  ∃ us,
    Main.usernames code_unit_compare
      (Main.Args 2 200 true 0 1 0 (Some (String (ascii_of_nat 192) "BC"))) pears = Some us ∧
    us = [String (ascii_of_nat 224) "bc"] ∧
    NoDup us.
Proof.
  assert (H : ∃ us, Main.usernames code_unit_compare
                      (Main.Args 2 200 true 0 1 0 (Some (String (ascii_of_nat 192) "BC")))
                      pears = Some us ∧
                    us = [String (ascii_of_nat 224) "bc"]).
  { eexists. split; vm_compute; reflexivity. }
  destruct H as (us & Hus & Heq). exists us. split; [exact Hus|]. split; [exact Heq|].
  exact (proj1 (proj2 (usernames_checked_once _ _ _ _ Hus))).
Defined.

(** ** The order of the names *)

Section sorting.
Import JS Main.
Context (cmp : string → string → Z).

(** [a] does not come after [b]: the comparison of the lower-case forms is
    not positive. *)
Definition not_after (a b : string) : Prop :=
  (cmp (Str.toLowerCase a) (Str.toLowerCase b) ≤ 0)%Z.

(** The comparison tells [a] and [b] apart in neither direction. *)
Definition same_rank (a b : string) : bool :=
  (cmp (Str.toLowerCase a) (Str.toLowerCase b) <=? 0)%Z &&
  (cmp (Str.toLowerCase b) (Str.toLowerCase a) <=? 0)%Z.

(** A comparison that is consistent, as a sort needs it. *)
Hypothesis cmp_total : ∀ a b, (0 < cmp a b → cmp b a ≤ 0)%Z.
Hypothesis cmp_trans : ∀ a b c, (cmp a b ≤ 0 → cmp b c ≤ 0 → cmp a c ≤ 0)%Z.

Lemma not_after_trans a b c : not_after a b → not_after b c → not_after a c.
Proof. apply cmp_trans. Qed.

Lemma insert_sorted_sorted x l :
  StronglySorted not_after l → StronglySorted not_after (insert_sorted cmp x l).
Proof.
  induction 1 as [|y l Hl IH Hy]; simpl; [repeat constructor|].
  destruct (0 <? _)%Z eqn:Hcmp.
  - apply Z.ltb_lt in Hcmp. constructor; [done|].
    assert (Hyx : not_after y x) by (by apply cmp_total).
    rewrite insert_sorted_Permutation. by constructor.
  - apply Z.ltb_ge in Hcmp. constructor; [by constructor|].
    constructor; [done|]. eapply Forall_impl; [exact Hy|].
    intros z Hz. by eapply not_after_trans.
Qed.

Lemma insert_sorted_stable x0 x l :
  filter (λ y, same_rank x0 y = true) (insert_sorted cmp x l) =
  filter (λ y, same_rank x0 y = true) (x :: l).
Proof.
  induction l as [|y l IH]; simpl; [done|].
  destruct (0 <? _)%Z eqn:Hcmp; [|done].
  apply Z.ltb_lt in Hcmp. rewrite !filter_cons in *. rewrite IH.
  destruct (decide (same_rank x0 x = true)) as [Hx|Hx]; [|done].
  destruct (decide (same_rank x0 y = true)) as [Hy|Hy]; [|done].
  exfalso. unfold same_rank in *.
  apply andb_true_iff in Hx as [Hx1%Z.leb_le Hx2%Z.leb_le].
  apply andb_true_iff in Hy as [Hy1%Z.leb_le Hy2%Z.leb_le].
  pose proof (cmp_trans _ _ _ Hx2 Hy1). lia.
Qed.

(** X12. Under a consistent comparison the names are sorted without
    regard to case: the sorted list holds the same names, no name comes
    after a later one, and the names that the comparison does not tell
    apart (those that differ in case only, for one) keep the order of the
    file.  The list that a run shards is sorted in the same way. *)
Theorem sort_case_insensitive (l : list string) :
  sort cmp l ≡ₚ l ∧
  StronglySorted not_after (sort cmp l) ∧
  (∀ x, filter (λ y, same_rank x y = true) (sort cmp l) =
        filter (λ y, same_rank x y = true) l) ∧
  (∀ a content us, usernames cmp a content = Some us → StronglySorted not_after us).
Proof.
  assert (Hsorted : ∀ l, StronglySorted not_after (sort cmp l)).
  { intros l'. induction l' as [|x l' IH]; simpl; [constructor|].
    by apply insert_sorted_sorted. }
  split; [apply sort_Permutation|]. split; [done|]. split.
  - intros x. induction l as [|y l IH]; simpl; [done|].
    rewrite insert_sorted_stable, !filter_cons, IH. done.
  - intros a content us Hus. apply usernames_sublist in Hus as [_ Hsub].
    by eapply sublist_StronglySorted.
Qed.

End sorting.

(** The comparison by code units is consistent. *)
Lemma code_unit_compare_le (a b : string) :
  (code_unit_compare a b ≤ 0)%Z ↔ String.le a b.
Proof.
  unfold code_unit_compare, String.le, String.leb.
  destruct (String.compare a b); simpl; split; try done; lia.
Qed.

Lemma code_unit_compare_total (a b : string) :
  (0 < code_unit_compare a b → code_unit_compare b a ≤ 0)%Z.
Proof.
  intros Hab. apply code_unit_compare_le.
  destruct (total String.le a b) as [Hle|Hle]; [|done].
  apply code_unit_compare_le in Hle. lia.
Qed.

Lemma code_unit_compare_trans (a b c : string) :
  (code_unit_compare a b ≤ 0 → code_unit_compare b c ≤ 0 → code_unit_compare a c ≤ 0)%Z.
Proof.
  rewrite !code_unit_compare_le. intros Hab Hbc. by etrans.
Qed.

(** Names with a capital of Latin-1: [Àbc] and [àbc] (the code units 192
    and 224). *)
Definition Agrave_bc : string := String (ascii_of_nat 192) "bc".
Definition agrave_bc : string := String (ascii_of_nat 224) "bc".

(** The lower-case forms are those of the platform. *)
Example toLowerCase_latin1 :
  Str.toLowerCase Agrave_bc = agrave_bc ∧ Str.toLowerCase agrave_bc = agrave_bc ∧
  Str.toLowerCase (String (ascii_of_nat 215) "Pear") = String (ascii_of_nat 215) "pear" ∧
  Main.findIndex Agrave_bc ["abb"; agrave_bc] = Some 1 ∧
  Main.findIndex Agrave_bc [agrave_bc; Agrave_bc] = Some 0 ∧
  Main.sort code_unit_compare [agrave_bc; Agrave_bc] = [agrave_bc; Agrave_bc].
Proof. repeat split; vm_compute; reflexivity. Qed.

Lemma sort_case_insensitive_witness :
  (∀ a b, (0 < code_unit_compare a b → code_unit_compare b a ≤ 0)%Z) ∧
  (∀ a b c, (code_unit_compare a b ≤ 0 → code_unit_compare b c ≤ 0 →
             code_unit_compare a c ≤ 0)%Z) ∧
  Main.sort code_unit_compare ["pear"; Agrave_bc; "Apple"; agrave_bc; "Pear"] =
    ["Apple"; "pear"; "Pear"; Agrave_bc; agrave_bc] ∧
  StronglySorted (not_after code_unit_compare)
    (Main.sort code_unit_compare ["pear"; Agrave_bc; "Apple"; agrave_bc; "Pear"]) ∧
  filter (λ y, same_rank code_unit_compare agrave_bc y = true)
         (Main.sort code_unit_compare ["pear"; Agrave_bc; "Apple"; agrave_bc; "Pear"]) =
    [Agrave_bc; agrave_bc].
Proof.
  split; [exact code_unit_compare_total|]. split; [exact code_unit_compare_trans|].
  split; [vm_compute; reflexivity|].
  destruct (sort_case_insensitive code_unit_compare code_unit_compare_total
              code_unit_compare_trans ["pear"; Agrave_bc; "Apple"; agrave_bc; "Pear"])
    as (_ & Hsorted & Hstable & _).
  split; [exact Hsorted|]. rewrite Hstable. vm_compute. reflexivity.
Defined.

(** ** The counters and the output files *)

Section accounting.
Import JS Main.
Implicit Types (s : state) (r : Worker.CheckResult) (rs : list Worker.CheckResult).

(** [r.available === b] *)
Definition is_verdict (b : bool) (r : Worker.CheckResult) : bool :=
  match Worker.available r with
  | VBool x => bool_decide (x = b)
  | _ => false
  end.

(** Neither [true] nor [false]. *)
Definition is_failure (r : Worker.CheckResult) : bool :=
  negb (is_bool (Worker.available r)).

(** The line of a name in [available.txt] and [taken.txt]. *)
Definition name_line (r : Worker.CheckResult) : string :=
  to_string (Worker.username r) +:+ Str.nl.

(** The line of a failed check in [errors.txt]. *)
Definition failure_line (r : Worker.CheckResult) : string :=
  to_string (Worker.username r) +:+ Str.tab +:+
  to_string (or_else (Worker.error r) (VStr "Unknown")) +:+ Str.nl.

Definition select (f : Worker.CheckResult → bool) rs : list Worker.CheckResult :=
  filter (λ r, f r = true) rs.

(** The state after the results [rs], from the state [s]. *)
Record accounted (retry : bool) (s : state) rs (s' : state) : Prop := {
  acc_checked : checked s' = checked s + length rs;
  acc_avail : avail s' = avail s + length (select (is_verdict true) rs);
  acc_taken : taken s' = taken s + length (select (is_verdict false) rs);
  acc_errs : errs s' = errs s + length (select is_failure rs);
  acc_availStream :
    availStream s' = availStream s ++ map name_line (select (is_verdict true) rs);
  acc_takenStream :
    takenStream s' = takenStream s ++ map name_line (select (is_verdict false) rs);
  acc_errStream :
    errStream s' =
    errStream s ++ if retry then [] else map failure_line (select is_failure rs);
  acc_newErrors : retry = false → newErrors s' = newErrors s;
  acc_lastUser : lastUser s' = default (lastUser s) (Worker.username <$> last rs);
}.

Lemma accounted_nil retry s : accounted retry s [] s.
Proof.
  split; simpl; rewrite ?app_nil_r; try done; try lia.
  destruct retry; by rewrite app_nil_r.
Qed.

Lemma select_snoc f rs r :
  select f (rs ++ [r]) = select f rs ++ if f r then [r] else [].
Proof.
  unfold select. rewrite filter_app. f_equal.
  rewrite filter_cons, filter_nil. destruct (f r); by simplify_option_eq.
Qed.

Lemma verdict_cases r :
  (is_verdict true r = true ∧ is_verdict false r = false ∧ is_failure r = false ∧
   Worker.available r = VBool true) ∨
  (is_verdict true r = false ∧ is_verdict false r = true ∧ is_failure r = false ∧
   Worker.available r = VBool false) ∨
  (is_verdict true r = false ∧ is_verdict false r = false ∧ is_failure r = true ∧
   is_bool (Worker.available r) = false).
Proof.
  unfold is_verdict, is_failure.
  destruct (Worker.available r) as [| |[]| | | |]; simpl; naive_solver.
Qed.

Lemma accounted_snoc retry s rs s' r :
  accounted retry s rs s' → accounted retry s (rs ++ [r]) (processResult retry s' r).
Proof.
  intros [Hc Ha Ht He Has Hts Hes Hne Hl].
  destruct (verdict_cases r) as [(H1 & H2 & H3 & Hav)|[(H1 & H2 & H3 & Hav)|(H1 & H2 & H3 & Hav)]].
  - unfold processResult. rewrite Hav.
    split; rewrite ?select_snoc, ?H1, ?H2, ?H3, ?app_nil_r, ?length_app, ?map_app,
      ?last_snoc; simpl; rewrite ?Has, ?Hts, ?Hes, ?(assoc_L (++)); try done; try lia;
      try (destruct retry; by rewrite ?app_nil_r).
  - unfold processResult. rewrite Hav.
    split; rewrite ?select_snoc, ?H1, ?H2, ?H3, ?app_nil_r, ?length_app, ?map_app,
      ?last_snoc; simpl; rewrite ?Has, ?Hts, ?Hes, ?(assoc_L (++)); try done; try lia;
      try (destruct retry; by rewrite ?app_nil_r).
  - assert (Hstep : processResult retry s' r =
             let reason := or_else (Worker.error r) (VStr "Unknown") in
             if retry then
               State (S (checked s')) (avail s') (taken s') (S (errs s')) (Worker.username r)
                     (availStream s') (takenStream s') (errStream s')
                     (resolvedUsers s') (set (newErrors s') (Worker.username r) reason)
             else
               State (S (checked s')) (avail s') (taken s') (S (errs s')) (Worker.username r)
                     (availStream s') (takenStream s')
                     (errStream s' ++ [failure_line r])
                     (resolvedUsers s') (newErrors s')).
    { unfold processResult. destruct (Worker.available r) as [| |[]| | | |]; done. }
    rewrite Hstep.
    destruct retry; simpl;
      (split; rewrite ?select_snoc, ?H1, ?H2, ?H3, ?app_nil_r, ?length_app, ?map_app,
         ?last_snoc; simpl; rewrite ?Has, ?Hts, ?Hes, ?app_nil_r, ?(assoc_L (++));
       try done; try lia; try (intros _; by apply Hne)).
Qed.

Lemma accounted_results retry rs :
  accounted retry init rs (foldl (processResult retry) init rs).
Proof.
  induction rs as [|r rs IH] using rev_ind; [apply accounted_nil|].
  rewrite foldl_snoc. by apply accounted_snoc.
Qed.

Lemma on_message_processResult retry (msgs : list Worker.message) s :
  foldl (on_message retry) s msgs =
  foldl (processResult retry) s (concat (map Worker.results_of msgs)).
Proof.
  revert s. induction msgs as [|m msgs IH]; intros s; simpl; [done|].
  rewrite foldl_app, IH. by destruct m.
Qed.

Lemma select_partition rs :
  select (is_verdict true) rs ++ select (is_verdict false) rs ++ select is_failure rs ≡ₚ rs.
Proof.
  induction rs as [|r rs IH]; [done|]. unfold select in *. rewrite !filter_cons.
  destruct (verdict_cases r) as [(-> & -> & -> & _)|[(-> & -> & -> & _)|(-> & -> & -> & _)]];
    simpl.
  - by rewrite IH.
  - rewrite <-Permutation_middle. by rewrite IH.
  - rewrite (assoc_L (++)), <-Permutation_middle, <-(assoc_L (++)). by rewrite IH.
Qed.

(** X13. Every result is counted once and goes to one place.  After the
    messages [msgs], whose results name their keys by strings: [checked] is
    the number of results, and it is the sum of [avail], [taken] and
    [errs]; [available.txt] got the names of the results with
    [available === true], one line each, in the order of arrival, and
    [taken.txt] those with [available === false]; a result with any other
    verdict is a failure, and outside retry mode [errors.txt] got its name
    and its reason (or [Unknown]), while in retry mode nothing is written
    there before the end of the run. *)
Theorem processResult_accounting (retry : bool) (msgs : list Worker.message) :
  let rs := concat (map Worker.results_of msgs) in
  let s := foldl (on_message retry) init msgs in
  Forall (λ r, ∃ u, Worker.username r = VStr u) rs →
  checked s = length rs ∧
  checked s = avail s + taken s + errs s ∧
  avail s = length (availStream s) ∧ taken s = length (takenStream s) ∧
  availStream s = map name_line (select (is_verdict true) rs) ∧
  takenStream s = map name_line (select (is_verdict false) rs) ∧
  errs s = length (select is_failure rs) ∧
  errStream s = (if retry then [] else map failure_line (select is_failure rs)) ∧
  (retry = false → newErrors s = []) ∧
  select (is_verdict true) rs ++ select (is_verdict false) rs ++ select is_failure rs ≡ₚ rs.
Proof.
  intros rs s _. unfold s. rewrite on_message_processResult. fold rs.
  destruct (accounted_results retry rs) as [Hc Ha Ht He Has Hts Hes Hne Hl].
  simpl in *.
  assert (Hsplit : select (is_verdict true) rs ++ select (is_verdict false) rs ++
                   select is_failure rs ≡ₚ rs) by apply select_partition.
  assert (Hsum : length rs = length (select (is_verdict true) rs) +
                             length (select (is_verdict false) rs) +
                             length (select is_failure rs)).
  { rewrite <-Hsplit at 1. rewrite !length_app. lia. }
  rewrite Has, Hts, Hes, !length_map. repeat split; try done; try lia.
Qed.

End accounting.

Lemma processResult_accounting_witness :
  let msgs := [Worker.MsgResult (Worker.Result (JS.VStr "apple") (JS.VBool true) 3 JS.VNull);
               Worker.MsgBatch [Worker.Result (JS.VStr "pear") (JS.VBool false) 4 JS.VNull;
                                Worker.Result (JS.VStr "plum") JS.VNull 5 (JS.VStr "HTTP 404")]] in
  let s := foldl (Main.on_message false) Main.init msgs in
  Forall (λ r, ∃ u, Worker.username r = JS.VStr u) (concat (map Worker.results_of msgs)) ∧
  Main.checked s = 3 ∧
  Main.errStream s = ["plum" +:+ Str.tab +:+ "HTTP 404" +:+ Str.nl].
Proof.
  intros msgs s.
  assert (Hnames : Forall (λ r, ∃ u, Worker.username r = JS.VStr u)
                          (concat (map Worker.results_of msgs))).
  { repeat constructor; eexists; reflexivity. }
  split; [exact Hnames|].
  destruct (processResult_accounting false msgs Hnames)
    as (Hc & _ & _ & _ & _ & _ & _ & Herr & _).
  split; [exact Hc|exact Herr].
Defined.

(** ** Facts about strings *)

Section string_facts.
Import Str.

(** The characters of a string. *)
Definition chars (s : string) : list ascii := list_ascii_of_string s.

Lemma chars_inj s1 s2 : chars s1 = chars s2 → s1 = s2.
Proof.
  intros H. rewrite <-(string_of_list_ascii_of_string s1),
    <-(string_of_list_ascii_of_string s2). unfold chars in H. by rewrite H.
Qed.

Lemma chars_app s1 s2 : chars (s1 +:+ s2) = chars s1 ++ chars s2.
Proof.
  induction s1 as [|a s1 IH]; [done|].
  change (chars (String a s1 +:+ s2)) with (a :: chars (s1 +:+ s2)). by rewrite IH.
Qed.

Lemma app_String a s1 s2 : String a s1 +:+ s2 = String a (s1 +:+ s2).
Proof. done. Qed.

Lemma app_empty s : EmptyString +:+ s = s.
Proof. done. Qed.

Lemma chars_rev_app s1 s2 :
  chars (String.rev_app s1 s2) = reverse (chars s1) ++ chars s2.
Proof.
  revert s2. induction s1 as [|a s1 IH]; intros s2; [done|].
  change (String.rev_app (String a s1) s2) with (String.rev_app s1 (String a s2)).
  change (chars (String a s1)) with (a :: chars s1).
  rewrite IH, reverse_cons, <-(assoc_L (++)). done.
Qed.

Lemma chars_rev s : chars (String.rev s) = reverse (chars s).
Proof. unfold String.rev. by rewrite chars_rev_app, app_nil_r. Qed.

(** [drop_space] on the characters. *)
Fixpoint strip (l : list ascii) : list ascii :=
  match l with
  | a :: l' => if is_js_space a then strip l' else l
  | [] => []
  end.

Lemma chars_drop_space s : chars (drop_space s) = strip (chars s).
Proof.
  induction s as [|a s IH]; [done|].
  change (chars (String a s)) with (a :: chars s). simpl.
  by destruct (is_js_space a).
Qed.

Lemma chars_trim s : chars (trim s) = reverse (strip (reverse (strip (chars s)))).
Proof. unfold trim. by rewrite chars_rev, chars_drop_space, chars_rev, chars_drop_space. Qed.

Lemma strip_split l :
  ∃ pre, l = pre ++ strip l ∧ Forall (λ a, is_js_space a = true) pre.
Proof.
  induction l as [|a l (pre & Hl & Hpre)]; [by exists []|]. simpl.
  destruct (is_js_space a) eqn:Ha.
  - exists (a :: pre). split; [by rewrite Hl at 1|by constructor].
  - by exists [].
Qed.

Lemma strip_head l a l' : strip l = a :: l' → is_js_space a = false.
Proof.
  induction l as [|b l IH]; simpl; [done|].
  destruct (is_js_space b) eqn:Hb; [done|]. by intros [= <- _].
Qed.

Lemma strip_id a l : is_js_space a = false → strip (a :: l) = a :: l.
Proof. intros Ha. simpl. by rewrite Ha. Qed.

(** The shape of a trimmed string: empty, or with a character that is no
    white space at either end. *)
Definition trimmed (l : list ascii) : Prop :=
  l = [] ∨ ∃ a mid b, is_js_space a = false ∧ is_js_space b = false ∧
                      (l = [a] ∧ a = b ∨ l = a :: mid ++ [b]).

Lemma trimmed_ends l :
  trimmed l ↔
  (∀ a l', l = a :: l' → is_js_space a = false) ∧
  (∀ l' b, l = l' ++ [b] → is_js_space b = false).
Proof.
  split.
  - intros [->|(a & mid & b & Ha & Hb & [[-> ->]| ->])].
    + split; [done|]. intros l' b H. by destruct l'.
    + split; [by intros ?? [= <- _]|]. intros l' b' H.
      destruct l' as [|? [|??]]; simplify_eq/=; done.
    + split; [by intros ?? [= <- _]|]. intros l' b' H.
      rewrite app_comm_cons in H. by apply app_inj_tail in H as [_ <-].
  - intros [Hhead Hlast]. destruct l as [|a l]; [by left|]. right.
    destruct l as [|c l _] using rev_ind.
    + exists a, [], a. split; [by eapply Hhead|]. split; [by eapply Hhead|]. by left.
    + exists a, l, c. split; [by eapply Hhead|].
      split; [by eapply (Hlast (a :: l))|]. by right.
Qed.

Lemma trim_trimmed l : trimmed (reverse (strip (reverse (strip l)))).
Proof.
  apply trimmed_ends. set (t := strip l). set (r := strip (reverse t)). split.
  - intros a l' Heq.
    destruct (strip_split (reverse t)) as (pre & Hsplit & _). fold r in Hsplit.
    assert (Ht : t = reverse r ++ reverse pre).
    { rewrite <-reverse_app, <-Hsplit. by rewrite reverse_involutive. }
    rewrite Heq in Ht. simpl in Ht. by eapply strip_head.
  - intros l' b Heq.
    assert (Hr : r = b :: reverse l').
    { rewrite <-(reverse_involutive r), Heq, reverse_snoc. done. }
    by eapply strip_head.
Qed.

Lemma trimmed_fixed l : trimmed l → reverse (strip (reverse (strip l))) = l.
Proof.
  intros [->|(a & mid & b & Ha & Hb & [[-> ->]| ->])]; [done| |].
  - simpl. rewrite Hb. cbn. by rewrite Hb.
  - rewrite strip_id by done. rewrite app_comm_cons, reverse_snoc.
    rewrite strip_id by done. by rewrite <-reverse_snoc, reverse_involutive.
Qed.

(** [trim] is idempotent. *)
Lemma trim_idemp s : trim (trim s) = trim s.
Proof.
  apply chars_inj. rewrite (chars_trim (trim s)), chars_trim.
  apply trimmed_fixed, trim_trimmed.
Qed.

Lemma strip_elem a l : a ∈ strip l → a ∈ l.
Proof.
  destruct (strip_split l) as (pre & Hl & _). intros Ha. rewrite Hl.
  apply elem_of_app. by right.
Qed.

Lemma trim_elem a s : a ∈ chars (trim s) → a ∈ chars s.
Proof.
  rewrite chars_trim, elem_of_reverse. intros Ha%strip_elem.
  rewrite elem_of_reverse in Ha. by apply strip_elem.
Qed.

Lemma before_tab_elem a s : a ∈ chars (before_tab s) → a ∈ chars s.
Proof.
  induction s as [|b s IH]; [done|].
  change (chars (String b s)) with (b :: chars s). simpl.
  destruct (decide (code b = 9)).
  - by intros ?%elem_of_nil.
  - change (chars (String b (before_tab s))) with (b :: chars (before_tab s)).
    intros [->|?]%elem_of_cons; [left|right; auto].
Qed.

(** A line: no line feed in it. *)
Definition one_line (s : string) : Prop := Forall (λ a, code a ≠ 10) (chars s).

Lemma split_lines_one_line s : Forall one_line (split_lines s).
Proof.
  assert (H : Forall one_line (split_lines s) ∧
              ∀ a, Forall one_line (split_lines (String a s))).
  { induction s as [|b s [IH1 IH2]].
    - split; [repeat constructor|]. intros a. simpl.
      destruct (decide (code a = 10)); repeat constructor. done.
    - split; [apply IH2|]. intros a.
      change (split_lines (String a (String b s))) with
        (if decide (code a = 10) then EmptyString :: split_lines (String b s)
         else if bool_decide (code a = 13) && bool_decide (code b = 10)
              then EmptyString :: split_lines s
              else match split_lines (String b s) with
                   | [] => [String a EmptyString]
                   | l :: ls => String a l :: ls
                   end).
      destruct (decide (code a = 10)) as [|Ha]; [constructor; [constructor|apply IH2]|].
      destruct (_ && _); [constructor; [constructor|done]|].
      specialize (IH2 b). destruct (split_lines (String b s)) as [|l ls].
      + repeat constructor. done.
      + apply Forall_cons in IH2 as [Hl Hls]. constructor; [|done].
        by constructor. }
  apply H.
Qed.

(** A name as [trim] leaves it and on one line. *)
Definition tidy (u : string) : Prop :=
  u ≠ EmptyString ∧ trim u = u ∧ one_line u.

Lemma split_lines_cons a s :
  split_lines (String a s) =
  if decide (code a = 10) then EmptyString :: split_lines s
  else
    match s with
    | String b s'' =>
        if bool_decide (code a = 13) && bool_decide (code b = 10)
        then EmptyString :: split_lines s''
        else match split_lines s with
             | [] => [String a EmptyString]
             | l :: ls => String a l :: ls
             end
    | EmptyString => [String a EmptyString]
    end.
Proof. done. Qed.

(** A line that ends the way a trimmed string does, followed by a line
    feed, is split off as it is. *)
Lemma split_lines_line u rest :
  one_line u → (∀ l' b, chars u = l' ++ [b] → code b ≠ 13) →
  split_lines (u +:+ nl +:+ rest) = u :: split_lines rest.
Proof.
  induction u as [|a u IH]; intros Hline Hlast.
  - rewrite app_empty. unfold nl. rewrite app_String, app_empty, split_lines_cons.
    by rewrite decide_True by done.
  - rewrite app_String, split_lines_cons.
    apply Forall_cons in Hline as [Ha Hline].
    rewrite decide_False by done.
    destruct u as [|b u].
    + rewrite app_empty. unfold nl at 1. rewrite app_String, app_empty.
      assert (code a ≠ 13) by (by apply (Hlast [] a)).
      rewrite bool_decide_eq_false_2 by done. simpl andb. cbv iota.
      change (nl +:+ rest) with (EmptyString +:+ nl +:+ rest).
      rewrite IH; [done|constructor|]. intros l' b Hb. by destruct l'.
    + rewrite app_String. pose proof Hline as [Hb _]%Forall_cons.
      rewrite (bool_decide_eq_false_2 (code b = 10)) by done.
      rewrite andb_false_r. rewrite <-app_String.
      rewrite IH; [done|done|].
      intros l' c Hc. apply (Hlast (a :: l') c). cbn. cbn in Hc. by rewrite Hc.
Qed.

Lemma tidy_last u l' b : trim u = u → chars u = l' ++ [b] → code b ≠ 13.
Proof.
  intros Hu Hc. pose proof (trim_trimmed (chars u)) as Ht.
  rewrite <-chars_trim, Hu in Ht. apply trimmed_ends in Ht as [_ Hlast].
  specialize (Hlast _ _ Hc). intros Hb. unfold is_js_space in Hlast.
  rewrite Hb in Hlast. done.
Qed.

Lemma split_lines_join us :
  Forall tidy us → us ≠ [] →
  split_lines (join_lines us +:+ nl) = us ++ [EmptyString].
Proof.
  induction 1 as [|u us (Hne & Htrim & Hline) Hus IH]; intros Hnil; [done|].
  destruct us as [|u' us].
  - change (join_lines [u]) with u.
    replace (u +:+ nl) with (u +:+ nl +:+ EmptyString).
    + rewrite split_lines_line; [done|done|]. intros l' b. by apply tidy_last.
    + apply chars_inj. by rewrite !chars_app, app_nil_r.
  - change (join_lines (u :: u' :: us)) with (u +:+ nl +:+ join_lines (u' :: us)).
    replace ((u +:+ nl +:+ join_lines (u' :: us)) +:+ nl)
      with (u +:+ nl +:+ (join_lines (u' :: us) +:+ nl)).
    + rewrite split_lines_line; [|done|intros l' b; by apply tidy_last].
      rewrite IH by done. done.
    + apply chars_inj. rewrite !chars_app. by rewrite <-!(assoc_L (++)).
Qed.

End string_facts.

(** ** A file of lines, read back *)

Section lines_read_back.
Import Str.

(** The lines of a file that are not empty:
    [content.split(/\r?\n/).filter(Boolean)]. *)
Definition lines_of (content : string) : list string :=
  filter (λ l, nonempty l = true) (split_lines content).

(** A line without its last character, when that is a carriage return:
    what is left of a line after it was written with a line feed behind it
    and split off again. *)
Fixpoint chomp_cr (s : string) : string :=
  match s with
  | EmptyString => EmptyString
  | String a EmptyString => if decide (code a = 13) then EmptyString else s
  | String a s' => String a (chomp_cr s')
  end.

(** No line feed and no carriage return in the string. *)
Definition no_line_break (s : string) : Prop :=
  Forall (λ a, code a ≠ 10 ∧ code a ≠ 13) (chars s).

Lemma chomp_cr_cons a b s : chomp_cr (String a (String b s)) = String a (chomp_cr (String b s)).
Proof. done. Qed.

Lemma split_lines_chomp u rest :
  one_line u → split_lines (u +:+ nl +:+ rest) = chomp_cr u :: split_lines rest.
Proof.
  induction u as [|a u IH]; intros Hline.
  - rewrite app_empty. unfold nl. rewrite app_String, app_empty, split_lines_cons.
    by rewrite decide_True by done.
  - rewrite app_String, split_lines_cons.
    apply Forall_cons in Hline as [Ha Hline].
    rewrite decide_False by done.
    destruct u as [|b u].
    + rewrite app_empty. unfold nl at 1. rewrite app_String, app_empty.
      rewrite (bool_decide_eq_true_2 (code (ascii_of_nat 10) = 10)) by done.
      rewrite andb_true_r. simpl chomp_cr.
      destruct (decide (code a = 13)) as [Hcr|Hcr].
      * by rewrite bool_decide_eq_true_2 by done.
      * rewrite bool_decide_eq_false_2 by done.
        change (nl +:+ rest) with (EmptyString +:+ nl +:+ rest).
        rewrite IH by constructor. done.
    + rewrite app_String. pose proof Hline as [Hb _]%Forall_cons.
      rewrite (bool_decide_eq_false_2 (code b = 10)) by done.
      rewrite andb_false_r. rewrite <-app_String.
      rewrite IH by done. by rewrite chomp_cr_cons.
Qed.

Lemma split_lines_join_chomp ls :
  Forall one_line ls → ls ≠ [] →
  split_lines (join_lines ls +:+ nl) = map chomp_cr ls ++ [EmptyString].
Proof.
  induction 1 as [|u ls Hline Hls IH]; intros Hnil; [done|].
  destruct ls as [|u' ls].
  - change (join_lines [u]) with u.
    replace (u +:+ nl) with (u +:+ nl +:+ EmptyString).
    + by rewrite split_lines_chomp.
    + apply chars_inj. by rewrite !chars_app, app_nil_r.
  - change (join_lines (u :: u' :: ls)) with (u +:+ nl +:+ join_lines (u' :: ls)).
    replace ((u +:+ nl +:+ join_lines (u' :: ls)) +:+ nl)
      with (u +:+ nl +:+ (join_lines (u' :: ls) +:+ nl)).
    + rewrite split_lines_chomp by done. rewrite IH by done. done.
    + apply chars_inj. rewrite !chars_app. by rewrite <-!(assoc_L (++)).
Qed.

(** The lines of a file that was written as
    [lines.join('\n') + (lines.length ? '\n' : '')]. *)
Lemma lines_of_written ls :
  Forall one_line ls →
  lines_of (join_lines ls +:+ match ls with [] => EmptyString | _ => nl end) =
  filter (λ l, nonempty l = true) (map chomp_cr ls).
Proof.
  intros Hls. destruct ls as [|u ls]; [done|]. unfold lines_of.
  rewrite split_lines_join_chomp by done. rewrite filter_app.
  rewrite (filter_cons _ EmptyString), filter_nil. simpl. by rewrite app_nil_r.
Qed.

Lemma chars_chomp_cr s :
  chars (chomp_cr s) = chars s ∨
  ∃ a, code a = 13 ∧ chars s = chars (chomp_cr s) ++ [a].
Proof.
  induction s as [|a s IH]; [by left|]. destruct s as [|b s].
  - simpl. destruct (decide (code a = 13)); [|by left]. right. by exists a.
  - rewrite chomp_cr_cons.
    change (chars (String a ?t)) with (a :: chars t).
    destruct IH as [->|(c & Hc & ->)]; [by left|]. right. by exists c.
Qed.

Lemma chomp_cr_id s : (∀ l' b, chars s = l' ++ [b] → code b ≠ 13) → chomp_cr s = s.
Proof.
  intros Hlast. apply chars_inj.
  destruct (chars_chomp_cr s) as [|(a & Ha & Heq)]; [done|].
  by destruct (Hlast _ _ Heq).
Qed.

Lemma strip_app l1 l2 :
  strip (l1 ++ l2) = match strip l1 with [] => strip l2 | _ => strip l1 ++ l2 end.
Proof.
  induction l1 as [|a l1 IH]; simpl; [done|].
  destruct (is_js_space a); [done|]. done.
Qed.

Lemma trim_chomp_cr s : trim (chomp_cr s) = trim s.
Proof.
  apply chars_inj. rewrite !chars_trim.
  destruct (chars_chomp_cr s) as [->|(a & Ha & ->)]; [done|].
  assert (Hspace : is_js_space a = true) by (unfold is_js_space; by rewrite Ha).
  rewrite strip_app. destruct (strip (chars (chomp_cr s))) as [|c l] eqn:Hstrip.
  - simpl. by rewrite Hspace.
  - rewrite reverse_app. simpl. by rewrite Hspace.
Qed.

Lemma before_tab_chomp_cr s :
  before_tab (chomp_cr s) = before_tab s ∨
  before_tab (chomp_cr s) = chomp_cr (before_tab s).
Proof.
  induction s as [|a s IH]; [by left|]. destruct s as [|b s].
  - simpl. destruct (decide (code a = 13)) as [Hcr|Hcr].
    + right. simpl. rewrite decide_False by lia. simpl. by rewrite decide_True.
    + by left.
  - rewrite chomp_cr_cons.
    change (before_tab (String a ?t)) with
      (if decide (code a = 9) then EmptyString else String a (before_tab t)).
    destruct (decide (code a = 9)); [by left|].
    destruct IH as [->|IH]; [by left|]. rewrite IH.
    destruct (before_tab (String b s)) as [|c t] eqn:Hbt; [by left|]. by right.
Qed.

(** The key of a line does not change when the line is read back. *)
Lemma key_chomp_cr s : trim (before_tab (chomp_cr s)) = trim (before_tab s).
Proof.
  destruct (before_tab_chomp_cr s) as [->| ->]; [done|apply trim_chomp_cr].
Qed.

Lemma before_tab_no_tab s : Forall (λ a, code a ≠ 9) (chars (before_tab s)).
Proof.
  induction s as [|a s IH]; [constructor|]. simpl.
  destruct (decide (code a = 9)); [constructor|]. by constructor.
Qed.

Lemma before_tab_app k x :
  Forall (λ a, code a ≠ 9) (chars k) → before_tab (k +:+ tab +:+ x) = k.
Proof.
  induction k as [|a k IH]; intros Hk.
  - by rewrite app_empty.
  - apply Forall_cons in Hk as [Ha Hk]. rewrite app_String. simpl.
    rewrite decide_False by done. by rewrite IH.
Qed.

Lemma key_of_empty : trim (before_tab EmptyString) = EmptyString.
Proof. done. Qed.

End lines_read_back.

(** ** The list that a retry run writes and reads back *)

Section retry_list.
Import JS Main.

Lemma retryUsers_tidy errContent : Forall tidy (retryUsers errContent).
Proof.
  apply Forall_forall. intros u Hu. unfold retryUsers in Hu.
  apply list_elem_of_filter in Hu as [Hne Hu].
  apply list_elem_of_In, in_map_iff in Hu as (l & <- & Hl%list_elem_of_In).
  split; [by intros Heq; rewrite Heq in Hne|]. split; [apply trim_idemp|].
  apply Forall_forall. intros a Ha%trim_elem%before_tab_elem.
  pose proof (split_lines_one_line errContent) as Hlines.
  rewrite Forall_forall in Hlines. specialize (Hlines l Hl).
  unfold one_line in Hlines. rewrite Forall_forall in Hlines. by apply Hlines.
Qed.

(** Names written one per line are read back as they are, each once. *)
Lemma raw_join_lines us :
  Forall tidy us → raw (Str.join_lines us +:+ Str.nl) = dedupe [] us.
Proof.
  intros Hus. destruct (decide (us = [])) as [->|Hne]; [done|].
  unfold raw. rewrite split_lines_join by done. f_equal.
  rewrite map_app, filter_app. simpl. rewrite app_nil_r.
  clear Hne. induction Hus as [|u us (Hne & Htrim & _) _ IH]; [done|]. simpl.
  rewrite Htrim, filter_cons, IH. destruct u; [done|]. done.
Qed.

Lemma shardArray_Permutation {A} (us : list A) n shards :
  Shard.shardArray us n = Some shards → concat shards ≡ₚ us.
Proof.
  intros Hshards. destruct n as [|n].
  - unfold Shard.shardArray in Hshards. destruct us; simpl in Hshards; [|done].
    by injection Hshards as <-.
  - destruct (shardArray_distributed us (S n) ltac:(lia)) as (shards' & Hrun & Hd).
    rewrite Hrun in Hshards. injection Hshards as <-. apply Hd.
Qed.

(** X14. The temporary list of a retry run is read back as the keys of
    the ledger, each once, in the order of their first lines.  So a retry
    run without [--start] and [--from] hands to its workers exactly the
    keys of the ledger that pass the length filter, and no key twice. *)
Theorem retry_list_round_trip (errContent : string) :
  raw (Str.join_lines (retryUsers errContent) +:+ Str.nl) = dedupe [] (retryUsers errContent) ∧
  ∀ env shards,
    (start (options env) ≤ 1)%Z → from (options env) = None →
    retry_shards env errContent = Some shards →
    NoDup (concat shards) ∧
    ∀ u, u ∈ concat shards ↔ u ∈ retryUsers errContent ∧ valid_length u = true.
Proof.
  pose proof (raw_join_lines _ (retryUsers_tidy errContent)) as Hraw.
  split; [done|]. intros env shards Hstart Hfrom. unfold retry_shards.
  destruct (retryUsers errContent) as [|u0 us0] eqn:Hretry; [done|].
  rewrite <-Hretry in *.
  destruct (usernames _ _ _) as [us|] eqn:Hus; [|done]. simpl.
  intros Hperm%shardArray_Permutation.
  unfold usernames in Hus. rewrite Hfrom, Hraw in Hus.
  rewrite (proj2 (Z.ltb_ge _ _)) in Hus by done.
  set (sorted := sort _ _) in Hus.
  assert (us = sorted) as -> by (destruct sorted; by simplify_eq).
  assert (Hmem : ∀ u, u ∈ sorted ↔ u ∈ retryUsers errContent ∧ valid_length u = true).
  { intros u. unfold sorted. rewrite sort_Permutation, list_elem_of_filter.
    rewrite (proj2 (dedupe_NoDup [] _)). rewrite elem_of_nil. tauto. }
  split.
  - rewrite Hperm. unfold sorted. rewrite sort_Permutation.
    apply NoDup_filter, dedupe_NoDup.
  - intros u. by rewrite Hperm.
Qed.

End retry_list.

Lemma retry_list_round_trip_witness :
  ∃ shards,
    (Main.start (Main.options (one_worker apple_only)) ≤ 1)%Z ∧
    Main.from (Main.options (one_worker apple_only)) = None ∧
    Main.retry_shards (one_worker apple_only) ledger_ab = Some shards ∧
    NoDup (concat shards).
Proof.
  assert (H : ∃ shards, Main.retry_shards (one_worker apple_only) ledger_ab = Some shards).
  { eexists. vm_compute. reflexivity. }
  destruct H as [shards Hshards]. exists shards.
  assert (Hstart : (Main.start (Main.options (one_worker apple_only)) ≤ 1)%Z).
  { simpl. lia. }
  split; [exact Hstart|]. split; [reflexivity|]. split; [exact Hshards|].
  exact (proj1 (proj2 (retry_list_round_trip ledger_ab) _ shards Hstart eq_refl Hshards)).
Defined.

(** ** The ledger after a retry run in which nothing resolves *)

Section ledger_read_back.
Import JS Main.
Implicit Types (rs : list Worker.CheckResult) (entries : list (value * value)).

(** The key of a line: [line.split('\t')[0].trim()]. *)
Definition line_key (line : string) : string := Str.trim (Str.before_tab line).

Lemma filter_none {A} (P : A → Prop) `{∀ x, Decision (P x)} (l : list A) :
  (∀ x, x ∈ l → ¬ P x) → filter P l = [].
Proof.
  induction l as [|x l IH]; [done|]. intros Hall.
  rewrite filter_cons, decide_False by (apply Hall; left).
  apply IH. intros y Hy. apply Hall. by right.
Qed.

Lemma failing_in_origin rs k v :
  failing_in rs k = Some v →
  ∃ r, r ∈ rs ∧ is_bool (Worker.available r) = false ∧
       same_key k (Worker.username r) = true ∧ v = reason_of r.
Proof.
  unfold failing_in. induction rs as [|r rs IH] using rev_ind; [done|].
  rewrite foldl_snoc. unfold note_failure at 1.
  destruct (negb (is_bool (Worker.available r)) && same_key k (Worker.username r)) eqn:Hr.
  - intros [= <-]. apply andb_true_iff in Hr as [Hb%negb_true_iff Hk].
    exists r. split; [apply elem_of_app; right; left|done].
  - intros (r' & ? & ?)%IH. exists r'. split; [apply elem_of_app; by left|done].
Qed.

Lemma distinct_keys_get entries (k : string) v :
  distinct_keys entries → (VStr k, v) ∈ entries → get entries (VStr k) = Some v.
Proof.
  induction entries as [|[k' v'] entries IH]; [by intros _ ?%elem_of_nil|].
  cbn [distinct_keys get]. intros [Hk' Hd] [[= <- <-]|Hin]%elem_of_cons.
  - simpl. by rewrite bool_decide_eq_true_2.
  - assert (Hne : same_key (VStr k) k' = false).
    { apply not_true_is_false. intros Hsame. apply same_key_VStr in Hsame as ->.
      unfold has_key in Hk'. apply not_true_iff_false in Hk'. apply Hk'.
      apply existsb_exists. exists (VStr k, v). split; [by apply list_elem_of_In|].
      simpl. by apply bool_decide_eq_true_2. }
    rewrite Hne. auto.
Qed.

Lemma line_key_written (line x : string) :
  line_key (line_key line +:+ Str.tab +:+ x) = line_key line.
Proof.
  unfold line_key at 1. rewrite before_tab_app; [apply trim_idemp|].
  apply Forall_forall. intros a Ha%trim_elem.
  pose proof (before_tab_no_tab line) as Hno. rewrite Forall_forall in Hno. by apply Hno.
Qed.

Lemma line_key_one_line line : one_line line → one_line (line_key line).
Proof.
  unfold one_line. rewrite !Forall_forall. intros Hline a Ha%trim_elem%before_tab_elem.
  by apply Hline.
Qed.

Lemma written_line_shape (k x : string) :
  one_line k → no_line_break x →
  one_line (k +:+ Str.tab +:+ x) ∧ chomp_cr (k +:+ Str.tab +:+ x) = k +:+ Str.tab +:+ x ∧
  Str.nonempty (k +:+ Str.tab +:+ x) = true.
Proof.
  intros Hk Hx.
  assert (Hchars : chars (k +:+ Str.tab +:+ x) = chars k ++ ascii_of_nat 9 :: chars x).
  { by rewrite !chars_app. }
  split; [|split].
  - unfold one_line. rewrite Hchars. apply Forall_app. split; [done|].
    constructor; [done|]. eapply Forall_impl; [exact Hx|]. by intros a [? _].
  - apply chomp_cr_id. intros l' b Heq. rewrite Hchars in Heq.
    assert (Hlast : last (chars k ++ ascii_of_nat 9 :: chars x) = Some b).
    { by rewrite Heq, last_snoc. }
    rewrite last_app in Hlast.
    destruct (last (ascii_of_nat 9 :: chars x)) as [c|] eqn:Hc.
    + injection Hlast as ->. apply last_Some_elem_of in Hc.
      apply elem_of_cons in Hc as [->|Hc]; [done|].
      unfold no_line_break in Hx. rewrite Forall_forall in Hx. by apply Hx.
    + by apply last_None in Hc.
  - destruct k; done.
Qed.

Lemma retryUsers_lines content k :
  k ∈ retryUsers content ↔
  k ≠ EmptyString ∧ ∃ line, line ∈ lines_of content ∧ line_key line = k.
Proof.
  unfold retryUsers, lines_of. rewrite list_elem_of_filter. split.
  - intros [Hne (line & <- & Hline%list_elem_of_In)%list_elem_of_In%in_map_iff].
    split; [by intros Heq; rewrite Heq in Hne|]. exists line. split; [|done].
    apply list_elem_of_filter. split; [|done]. by destruct line.
  - intros [Hne (line & [_ Hline]%list_elem_of_filter & <-)].
    split; [by destruct (line_key line)|].
    apply list_elem_of_In, in_map_iff. exists line. split; [done|by apply list_elem_of_In].
Qed.

(** The entries of a map whose keys are keys of lines: the lines written
    for them with the key [k]. *)
Lemma written_lines_of_key entries (k : string) v :
  distinct_keys entries →
  (∀ entry, entry ∈ entries → ∃ line, fst entry = VStr (line_key line)) →
  (VStr k, v) ∈ entries →
  filter (λ l, line_key l = k) (map error_line entries) =
  [k +:+ Str.tab +:+ to_string v].
Proof.
  induction entries as [|[k' v'] entries IH]; [by intros _ _ ?%elem_of_nil|].
  cbn [distinct_keys]. intros [Hk' Hd] Hkeys Hin. rewrite map_cons, filter_cons.
  destruct (Hkeys (k', v')) as [line Hline]; [left|]. simpl in Hline. subst k'.
  assert (Hkey : line_key (error_line (VStr (line_key line), v')) = line_key line).
  { unfold error_line. simpl. apply line_key_written. }
  assert (Htail : ∀ entry, entry ∈ entries → ∃ line, fst entry = VStr (line_key line)).
  { intros entry He. apply Hkeys. by right. }
  rewrite Hkey. destruct (decide (line_key line = k)) as [Heq|Hne].
  - assert (Hnone : filter (λ l, line_key l = k) (map error_line entries) = []).
    { apply filter_none.
      intros l (entry & <- & He%list_elem_of_In)%list_elem_of_In%in_map_iff.
      destruct entry as [k1 v1]. destruct (Htail _ He) as [line1 Hk1]. simpl in Hk1. subst k1.
      unfold error_line. simpl. rewrite line_key_written. intros Hsame.
      unfold has_key in Hk'. apply not_true_iff_false in Hk'. apply Hk'.
      apply existsb_exists. exists (VStr (line_key line1), v1).
      split; [by apply list_elem_of_In|]. simpl. apply bool_decide_eq_true_2. congruence. }
    rewrite Hnone. apply elem_of_cons in Hin as [[= Hk Hv]|Hin].
    + subst v'. unfold error_line. simpl. by rewrite Heq.
    + exfalso. unfold has_key in Hk'. apply not_true_iff_false in Hk'. apply Hk'.
      apply existsb_exists. exists (VStr k, v). split; [by apply list_elem_of_In|].
      simpl. by apply bool_decide_eq_true_2.
  - apply elem_of_cons in Hin as [[= Hk Hv]|Hin]; [done|]. by apply IH.
Qed.

(** C8, amended.  Take a completed retry run in which nothing resolves:
    every result reports a key of the ledger failing, with a reason that
    holds no line break.  Then the new [errors.txt], read back line by
    line, holds the old lines whose key no result reported (a line that
    ended with a carriage return has lost it) and after them one line
    [key<TAB>reason] for every key reported.  So the keys of the ledger
    are the same as before; every key reported has exactly one line, which
    carries the reason of this run; and a line whose key was not reported
    is kept as it was. *)
Theorem retry_ledger_failing_again (env : environment) (errContent content : string) :
  retry_run env errContent = Some content →
  ∃ shards ends msgs entries,
    retry_shards env errContent = Some shards ∧
    mapM id (workers_of env shards) = Some ends ∧
    deliver (schedule env) (map (λ e, Worker.posted (snd e)) ends) = Some msgs ∧
    let rs := concat (map Worker.results_of msgs) in
    (∀ r, r ∈ rs →
       is_bool (Worker.available r) = false ∧
       (∃ line, line ∈ lines_of errContent ∧ Worker.username r = VStr (line_key line)) ∧
       no_line_break (to_string (reason_of r))) →
    distinct_keys entries ∧
    (∀ k, get entries k = failing_in rs k) ∧
    lines_of content =
      filter (λ l, Str.nonempty l = true)
        (map chomp_cr
           (filter (λ line, ¬ is_Some (failing_in rs (VStr (line_key line))))
                   (lines_of errContent))) ++
      map (λ entry, to_string (fst entry) +:+ Str.tab +:+ to_string (snd entry)) entries ∧
    (∀ k, k ∈ retryUsers content ↔ k ∈ retryUsers errContent) ∧
    (∀ (k : string) reason,
       failing_in rs (VStr k) = Some reason →
       filter (λ l, line_key l = k) (lines_of content) =
         [k +:+ Str.tab +:+ to_string reason]) ∧
    (∀ line, line ∈ lines_of errContent →
       failing_in rs (VStr (line_key line)) = None → chomp_cr line = line →
       line ∈ lines_of content).
Proof.
  intros Hrun.
  destruct (retry_run_completed _ _ _ Hrun) as (shards & ends & msgs & ? & ? & _ & ? & ->).
  set (s := foldl (on_message true) init msgs).
  exists shards, ends, msgs, (newErrors s).
  destruct (finalErrors_results errContent msgs) as (Hlines & Hdistinct & Hget).
  fold s in Hlines, Hdistinct, Hget.
  split; [done|]. split; [done|]. split; [done|]. simpl. intros Hfail.
  set (rs := concat (map Worker.results_of msgs)) in *.
  set (kept := filter (λ line, ¬ is_Some (failing_in rs (VStr (line_key line))))
                      (lines_of errContent)).
  assert (Hnone : ∀ k, resolved_in rs k = false).
  { intros k. unfold resolved_in. apply not_true_is_false. intros Hex.
    apply existsb_exists in Hex as (r & Hr & Hb). apply list_elem_of_In in Hr.
    destruct (Hfail r Hr) as [Hav _]. by rewrite Hav in Hb. }
  assert (Hfinal : finalErrors errContent s = kept ++ map error_line (newErrors s)).
  { rewrite Hlines. f_equal. apply list_filter_iff. intros line. rewrite Hnone.
    split; [by intros [_ ?]|done]. }
  assert (Hentries : ∀ entry, entry ∈ newErrors s →
            ∃ line, line ∈ lines_of errContent ∧ fst entry = VStr (line_key line) ∧
                    no_line_break (to_string (snd entry))).
  { intros [k v] Hin. unfold s in Hin. rewrite on_message_results in Hin. fold rs in Hin.
    pose proof Hin as Hkey. apply results_keys in Hkey as [(e & He & _)|(r & Hr & _ & Heq)];
      [by apply elem_of_nil in He|].
    destruct (Hfail r Hr) as (_ & (line & Hline & Hu) & _). simpl in Heq.
    rewrite Hu in Heq. subst k.
    exists line. split; [done|]. split; [done|]. simpl.
    assert (Hv : get (newErrors s) (VStr (line_key line)) = Some v).
    { apply distinct_keys_get; [done|]. unfold s. by rewrite on_message_results. }
    rewrite Hget in Hv. apply failing_in_origin in Hv as (r' & Hr' & _ & _ & ->).
    by destruct (Hfail r' Hr') as (_ & _ & ?). }
  assert (Hkept_line : Forall one_line kept).
  { apply Forall_forall. intros line [_ [_ Hline]%list_elem_of_filter]%list_elem_of_filter.
    pose proof (split_lines_one_line errContent) as Hall.
    rewrite Forall_forall in Hall. by apply Hall. }
  assert (Hnew : ∀ entry, entry ∈ newErrors s →
            one_line (error_line entry) ∧ chomp_cr (error_line entry) = error_line entry ∧
            Str.nonempty (error_line entry) = true).
  { intros [k v] Hin. destruct (Hentries _ Hin) as (line & Hline & Hk & Hv).
    simpl in Hk, Hv. subst k. unfold error_line. simpl.
    apply written_line_shape; [|done]. apply line_key_one_line.
    apply list_elem_of_filter in Hline as [_ Hline].
    pose proof (split_lines_one_line errContent) as Hall.
    rewrite Forall_forall in Hall. by apply Hall. }
  assert (Hread : lines_of (rewritten errContent s) =
                  filter (λ l, Str.nonempty l = true) (map chomp_cr kept) ++
                  map error_line (newErrors s)).
  { unfold rewritten. rewrite Hfinal, lines_of_written.
    - rewrite map_app, filter_app. f_equal.
      generalize Hnew. generalize (newErrors s). clear. intros entries Hnew.
      induction entries as [|entry entries IH]; [done|].
      destruct (Hnew entry) as (_ & Hid & Hne); [left|].
      rewrite !map_cons, filter_cons, Hid, decide_True by done.
      f_equal. apply IH. intros e He. apply Hnew. by right.
    - apply Forall_app. split; [done|]. apply Forall_forall.
      intros l (entry & <- & He%list_elem_of_In)%list_elem_of_In%in_map_iff.
      by apply Hnew. }
  assert (Hkeys : ∀ entry, entry ∈ newErrors s → ∃ line, fst entry = VStr (line_key line)).
  { intros entry Hin. destruct (Hentries _ Hin) as (line & _ & ? & _). by exists line. }
  split; [done|]. split; [done|]. split; [exact Hread|]. rewrite Hread. split; [|split].
  - intros k. rewrite !retryUsers_lines, Hread. split.
    + intros [Hne (l & Hl & <-)]. split; [done|].
      apply elem_of_app in Hl as [Hl|Hl].
      * apply list_elem_of_filter in Hl as [_ Hl].
        apply list_elem_of_In, in_map_iff in Hl as (l0 & <- & Hl0%list_elem_of_In).
        apply list_elem_of_filter in Hl0 as [_ Hl0]. exists l0. split; [done|].
        unfold line_key. by rewrite key_chomp_cr.
      * apply list_elem_of_In, in_map_iff in Hl as ([k0 v0] & <- & He%list_elem_of_In).
        destruct (Hentries _ He) as (line & Hline & Hk & _). simpl in Hk. subst k0.
        exists line. split; [done|]. unfold error_line. simpl. by rewrite line_key_written.
    + intros [Hne (line & Hline & <-)]. split; [done|].
      destruct (failing_in rs (VStr (line_key line))) as [reason|] eqn:Hreason.
      * exists (error_line (VStr (line_key line), reason)). split.
        -- apply elem_of_app. right.
           apply list_elem_of_In, (in_map error_line), list_elem_of_In.
           apply get_VStr_elem. by rewrite Hget.
        -- unfold error_line. simpl. apply line_key_written.
      * exists (chomp_cr line). split; [|unfold line_key; by rewrite key_chomp_cr].
        apply elem_of_app. left. apply list_elem_of_filter. split.
        -- destruct (chomp_cr line) eqn:Hchomp; [|done].
           exfalso. apply Hne. unfold line_key. by rewrite <-key_chomp_cr, Hchomp.
        -- apply list_elem_of_In, in_map, list_elem_of_In.
           apply list_elem_of_filter. split; [|done]. rewrite Hreason. by intros [??].
  - intros k reason Hreason. rewrite filter_app.
    assert (Hold : filter (λ l, line_key l = k)
                     (filter (λ l, Str.nonempty l = true) (map chomp_cr kept)) = []).
    { apply filter_none. intros l [_ Hl]%list_elem_of_filter.
      apply list_elem_of_In, in_map_iff in Hl as (l0 & <- & Hl0%list_elem_of_In).
      apply list_elem_of_filter in Hl0 as [Hno _]. intros Hk. apply Hno.
      unfold line_key in Hk. rewrite key_chomp_cr in Hk. fold (line_key l0) in Hk.
      rewrite Hk, Hreason. by eexists. }
    rewrite Hold. simpl. apply written_lines_of_key; [done|done|].
    apply get_VStr_elem. by rewrite Hget.
  - intros line Hline Hnot Hid. apply elem_of_app. left.
    apply list_elem_of_filter. split.
    + apply list_elem_of_filter in Hline as [? _]. done.
    + rewrite <-Hid. apply list_elem_of_In, in_map, list_elem_of_In.
      apply list_elem_of_filter. split; [|done]. rewrite Hnot. by intros [??].
Qed.

End ledger_read_back.

(** [ab<TAB>timeout] and [apple<TAB>timeout]: the first key is too short to
    be retried. *)
Definition ledger_short_apple : string := "ab" +:+ Str.tab +:+ "timeout" +:+ Str.nl +:+ ledger_a.

Example retry_kept_failing :
  Main.retry_run (single_task refusing) ledger_short_apple =
  Some ("ab" +:+ Str.tab +:+ "timeout" +:+ Str.nl +:+
        "apple" +:+ Str.tab +:+ "HTTP 404" +:+ Str.nl).
Proof. vm_compute. reflexivity. Qed.

Lemma retry_ledger_failing_again_witness :
  ∃ content,
    Main.retry_run (single_task refusing) ledger_short_apple = Some content ∧
    lines_of content = ["ab" +:+ Str.tab +:+ "timeout"; "apple" +:+ Str.tab +:+ "HTTP 404"] ∧
    (∀ k, k ∈ Main.retryUsers content ↔ k ∈ Main.retryUsers ledger_short_apple) ∧
    filter (λ l, line_key l = "apple") (lines_of content) =
      ["apple" +:+ Str.tab +:+ "HTTP 404"] ∧
    "ab" +:+ Str.tab +:+ "timeout" ∈ lines_of content.
Proof.
  eexists. split; [exact retry_kept_failing|].
  destruct (retry_ledger_failing_again (single_task refusing) ledger_short_apple _
              retry_kept_failing)
    as (shards & ends & msgs & entries & Hshards & Hends & Hmsgs & Hrest).
  vm_compute in Hshards. injection Hshards as <-.
  vm_compute in Hends. injection Hends as <-.
  vm_compute in Hmsgs. injection Hmsgs as <-.
  destruct Hrest as (_ & Hget & Hread & Hsame & Hone & Hkeep).
  { intros r Hr. simpl in Hr. apply list_elem_of_singleton in Hr as ->.
    split; [reflexivity|]. split.
    - exists ("apple" +:+ Str.tab +:+ "timeout"). split; [|reflexivity].
      apply (bool_decide_unpack _). vm_compute. reflexivity.
    - apply (bool_decide_unpack _). vm_compute. reflexivity. }
  split; [vm_compute; reflexivity|]. split; [exact Hsame|]. split.
  - apply (Hone "apple" (JS.VStr "HTTP 404")). vm_compute. reflexivity.
  - apply Hkeep; [|vm_compute; reflexivity|vm_compute; reflexivity].
    apply (bool_decide_unpack _). vm_compute. reflexivity.
Defined.

(** A reason with a line feed in it.  The connection fails with a message
    of two lines, which is neither retried nor changed on its way to the
    ledger; the new file, read back, has a key [zebra] that the old one
    did not have. *)
Definition two_line_failure : Worker.oracle :=
  Worker.Oracle (λ _ _, Worker.NetError ("refused" +:+ Str.nl +:+ "zebra"))
                (λ _, 0%Q) (λ n, Z.of_nat n).

Example retry_reason_of_two_lines :
  Main.retry_run (single_task two_line_failure) ledger_a =
    Some ("apple" +:+ Str.tab +:+ "refused" +:+ Str.nl +:+ "zebra" +:+ Str.nl) ∧
  Main.retryUsers ledger_a = ["apple"] ∧
  Main.retryUsers ("apple" +:+ Str.tab +:+ "refused" +:+ Str.nl +:+ "zebra" +:+ Str.nl) =
    ["apple"; "zebra"].
Proof. repeat split; vm_compute; reflexivity. Qed.

(** ** The names on the command line *)

Section input_facts.
Import Str Main Input.

(** No white space in the string. *)
Definition solid (s : string) : Prop := Forall (λ a, is_js_space a = false) (chars s).

Lemma solid_trimmed s : solid s → trimmed (chars s).
Proof.
  unfold solid. intros Hs. apply trimmed_ends. split.
  - intros a l' Heq. rewrite Heq in Hs. by apply Forall_cons in Hs as [? _].
  - intros l' b Heq. rewrite Heq in Hs. apply Forall_app in Hs as [_ Hb].
    by apply Forall_cons in Hb as [? _].
Qed.

Lemma solid_trim s : solid s → trim s = s.
Proof.
  intros Hs. apply chars_inj. rewrite chars_trim. by apply trimmed_fixed, solid_trimmed.
Qed.

Lemma solid_one_line s : solid s → one_line s.
Proof.
  unfold solid, one_line. intros Hs. eapply Forall_impl; [exact Hs|]. intros a Ha Hcode.
  unfold is_js_space in Ha. rewrite Hcode in Ha. done.
Qed.

Lemma split_spaces_solid gap s : Forall solid (split_spaces_from gap s).
Proof.
  revert gap. induction s as [|a s IH]; intros gap; simpl.
  - repeat constructor.
  - destruct (is_js_space a) eqn:Ha.
    + destruct gap; [apply IH|]. constructor; [constructor|apply IH].
    + specialize (IH false). destruct (split_spaces_from false s) as [|l ls].
      * repeat constructor. done.
      * apply Forall_cons in IH as [Hl Hls]. constructor; [|done]. by constructor.
Qed.

Lemma names_elem l u : u ∈ names l ↔ u ≠ EmptyString ∧ ∃ x, x ∈ l ∧ u = trim x.
Proof.
  unfold names. rewrite list_elem_of_filter. split.
  - intros [Hne (x & <- & Hx%list_elem_of_In)%list_elem_of_In%in_map_iff].
    split; [by destruct (trim x)|]. eauto.
  - intros [Hne (x & Hx & ->)]. split; [by destruct (trim x)|].
    apply list_elem_of_In, in_map, list_elem_of_In. done.
Qed.

Lemma names_trimmed l u : u ∈ names l → u ≠ EmptyString ∧ trim u = u.
Proof. intros [Hne (x & _ & ->)]%names_elem. split; [done|apply trim_idemp]. Qed.

Lemma names_solid l : Forall solid l → names l = filter (λ u, nonempty u = true) l ∧
                                       Forall tidy (names l).
Proof.
  intros Hl. assert (Hmap : map trim l = l).
  { induction Hl as [|x l Hx _ IH]; simpl; [done|]. by rewrite IH, solid_trim. }
  unfold names. rewrite Hmap. split; [done|].
  apply Forall_forall. intros u [Hne Hu]%list_elem_of_filter.
  rewrite Forall_forall in Hl. specialize (Hl u Hu).
  split; [by destruct u|]. split; [by apply solid_trim|by apply solid_one_line].
Qed.

Lemma parseUsernames_names_trimmed (J : string → option (list string)) (input : string) :
  ∀ u, u ∈ parseUsernames J input → u ≠ EmptyString ∧ trim u = u.
Proof.
  intros u. unfold parseUsernames.
  destruct (if _ && _ then J input else None); [apply names_trimmed|].
  destruct (includes "," input); [apply names_trimmed|].
  destruct (_ || _); apply names_trimmed.
Qed.

(** X15. [parseUsernames] never yields an empty name or a name with white
    space at an end; every name it yields is a trimmed element of the JSON
    array, or a trimmed piece of the text.  When the text is split at white
    space (no JSON array, no comma, a space or a tab in it), no name holds
    white space at all, and the names are the pieces that are not empty.  A
    text with none of these is one name, trimmed, whatever else it holds. *)
Theorem parseUsernames_names (J : string → option (list string)) (input : string) :
  (∀ u, u ∈ parseUsernames J input → u ≠ EmptyString ∧ trim u = u) ∧
  (∀ parsed, starts_with "[" (trim input) && ends_with "]" (trim input) = true →
     J input = Some parsed → parseUsernames J input = names parsed) ∧
  ((starts_with "[" (trim input) && ends_with "]" (trim input) = false ∨ J input = None) →
     (includes "," input = true → parseUsernames J input = names (split_at ","%char input)) ∧
     (includes "," input = false → includes " " input || includes tab input = true →
        parseUsernames J input = filter (λ u, nonempty u = true) (split_spaces input) ∧
        Forall (λ u, solid u ∧ tidy u) (parseUsernames J input)) ∧
     (includes "," input = false → includes " " input || includes tab input = false →
        parseUsernames J input = if nonempty (trim input) then [trim input] else [])).
Proof.
  split; [apply parseUsernames_names_trimmed|split].
  - intros parsed Hshape HJ. unfold parseUsernames. by rewrite Hshape, HJ.
  - intros Hno. unfold parseUsernames.
    assert ((if starts_with "[" (trim input) && ends_with "]" (trim input)
             then J input else None) = None) as ->.
    { destruct Hno as [->| ->]; [done|]. by destruct (_ && _). }
    split; [by intros ->|]. split.
    + intros -> ->. pose proof (split_spaces_solid false input) as Hl.
      fold (split_spaces input) in Hl.
      destruct (names_solid _ Hl) as [Heq Htidy]. split; [done|].
      apply Forall_forall. intros u Hu. split; [|by eapply Forall_forall in Htidy].
      rewrite Heq in Hu. apply list_elem_of_filter in Hu as [_ Hu].
      by eapply Forall_forall in Hl.
    + intros -> ->. unfold names. simpl. rewrite filter_cons, filter_nil.
      by destruct (trim input).
Qed.

End input_facts.

(** ** Names or a file *)

Section selection_facts.
Import Str Main Input.

Lemma valid_names_tidy (parsed : list string) :
  (∀ u, u ∈ parsed → u ≠ EmptyString ∧ trim u = u) → Forall one_line parsed →
  Forall tidy (filter (λ u, valid_length u = true) parsed).
Proof.
  intros Hnames Hlines. apply Forall_forall. intros u [_ Hu]%list_elem_of_filter.
  destruct (Hnames u Hu) as [Hne Htrim]. rewrite Forall_forall in Hlines.
  split; [done|]. split; [done|]. by apply Hlines.
Qed.

(** X16. How [main] takes the text of the command line.  A text that
    parses to two names or more is never opened as a file, whether a file
    of that name exists or not: the valid names are written to a temporary
    list (the run is refused when there is none).  A text that parses to
    one name at most is opened as a file whenever that file exists; when it
    does not, and the text is one valid name that does not look like a
    path, the name is written to a temporary list; anything else is
    refused.  No file is opened that does not exist.  A temporary list is
    never empty, and as long as no name holds a line feed it is read back
    as the valid names, each once. *)
Theorem select_input_cases (p : platform) (list : string) :
  let parsed := parseUsernames (JSON_names p) list in
  let valid := filter (λ u, valid_length u = true) parsed in
  match select_input p list with
  | File path =>
      path = list ∧ existsSync p list = true ∧ length parsed ≤ 1
  | Names file content =>
      valid ≠ [] ∧ content = join_lines valid +:+ nl ∧
      (length parsed = 1 → existsSync p list = false ∧ looksLikeFile p list = false) ∧
      (Forall one_line parsed → raw content = dedupe [] valid)
  | Refused =>
      list = EmptyString ∨
      (length parsed ≤ 1 ∧ existsSync p list = false ∧
       (valid = [] ∨ looksLikeFile p list = true)) ∨
      (2 ≤ length parsed ∧ valid = [])
  end.
Proof.
  intros parsed valid. unfold select_input.
  destruct (nonempty list) eqn:Hlist; [|left; by destruct list].
  pose proof (parseUsernames_names_trimmed (JSON_names p) list) as Hnames.
  fold parsed in Hnames. fold parsed.
  assert (Hback : Forall one_line parsed → raw (join_lines valid +:+ nl) = dedupe [] valid).
  { intros Hlines. apply raw_join_lines. by apply valid_names_tidy. }
  unfold valid in *. clearbody parsed.
  destruct parsed as [|u [|u' parsed]].
  - destruct (existsSync p list) eqn:Hex; [repeat split; simpl; lia|].
    right. left. simpl. auto.
  - rewrite filter_cons, filter_nil.
    destruct (valid_length u) eqn:Hvalid; simpl.
    + destruct (looksLikeFile p list) eqn:Hlooks; simpl.
      * destruct (existsSync p list) eqn:Hex; [repeat split; simpl; lia|].
        right. left. auto.
      * destruct (existsSync p list) eqn:Hex; simpl; [repeat split; simpl; lia|].
        repeat split; try done.
        intros Hlines. specialize (Hback Hlines).
        rewrite filter_cons, filter_nil, decide_True in Hback by done. done.
    + destruct (existsSync p list) eqn:Hex; [repeat split; simpl; lia|].
      right. left. auto.
  - destruct (filter _ (u :: u' :: parsed)) as [|v vs] eqn:Hfilter.
    + right. right. simpl. split; [lia|done].
    + split; [done|]. split; [done|]. split; [simpl; lia|done].
Qed.

End selection_facts.

(** ** From the arguments to the names *)

Section args_facts.
Import Str Input.
Context {number : Type} (Number : option string → number).
Implicit Types (r : Cli.parsed (number := number)) (args nf : list string).

Lemma scan_list r nf args : Cli.list (fst (Cli.scan Number r nf args)) = Cli.list r.
Proof.
  assert (H : ∀ n args r nf, length args ≤ n →
                Cli.list (fst (Cli.scan Number r nf args)) = Cli.list r).
  { clear. intros n. induction n as [|n IH]; intros [|a rest] r nf Hn; simpl in *;
      try done; try lia.
    destruct (Cli.classify a) as [s|s| |].
    - rewrite IH by lia. by destruct s.
    - destruct rest as [|v rest']; [by destruct s|].
      rewrite IH by (simpl in *; lia). by destruct s.
    - by rewrite IH by lia.
    - by rewrite IH by lia. }
  by apply (H (length args)).
Qed.

Lemma scan_names r r' nf args :
  snd (Cli.scan Number r nf args) = nf ++ snd (Cli.scan Number r' [] args).
Proof.
  assert (H : ∀ n args r r' nf, length args ≤ n →
                snd (Cli.scan Number r nf args) = nf ++ snd (Cli.scan Number r' [] args)).
  { clear. intros n. induction n as [|n IH]; intros [|a rest] r r' nf Hn; simpl in *;
      rewrite ?app_nil_r; try done; try lia.
    destruct (Cli.classify a) as [s|s| |].
    - apply IH. lia.
    - destruct rest as [|v rest']; [by rewrite app_nil_r|]. apply IH. simpl in *. lia.
    - rewrite (IH rest r r' (nf ++ [a])) by lia. rewrite (IH rest r' r' [a]) by lia.
      by rewrite <-(assoc_L (++)).
    - apply IH. lia. }
  by apply (H (length args)).
Qed.

(** The names among the arguments: what [nonFlagArgs] holds at the end. *)
Definition nonFlagArgs (args : list string) : list string :=
  snd (Cli.scan Number Cli.initial [] args).

Lemma parseArgs_list args :
  Cli.list (Cli.parseArgs Number args) =
  match nonFlagArgs args with
  | [] => None
  | l => Some (Cli.join_spaces l)
  end.
Proof.
  unfold Cli.parseArgs, nonFlagArgs. pose proof (scan_list Cli.initial [] args) as Hlist.
  destruct (Cli.scan Number Cli.initial [] args) as [r [|x l]]; simpl in *; done.
Qed.

Lemma classify_name a : starts_with "-" a = false → Cli.classify a = Cli.Name.
Proof.
  intros Ha. unfold Cli.classify, Cli.is_one_of.
  repeat (rewrite bool_decide_eq_false_2;
          [|intros Hin; repeat (apply elem_of_cons in Hin as [->|Hin]; [done|]);
            by apply elem_of_nil in Hin]).
  by rewrite Ha.
Qed.

Lemma nonFlagArgs_names args :
  Forall (λ a, starts_with "-" a = false) args → nonFlagArgs args = args.
Proof.
  unfold nonFlagArgs. induction 1 as [|a args Ha _ IH]; [done|]. simpl.
  rewrite classify_name by done. by rewrite (scan_names _ Cli.initial), IH.
Qed.

Lemma includes_char c s : includes (String c EmptyString) s = true ↔ c ∈ chars s.
Proof.
  induction s as [|b s IH]; simpl.
  - split; [done|]. by intros ?%elem_of_nil.
  - change (chars (String b s)) with (b :: chars s). rewrite elem_of_cons.
    destruct (decide (c = b)) as [->|Hne].
    + split; [by left|]. by destruct s.
    + simpl. rewrite IH. split; [by right|]. by intros [?|?].
Qed.

Lemma app_empty_r s : s +:+ EmptyString = s.
Proof. apply chars_inj. by rewrite chars_app, app_nil_r. Qed.

Lemma concat_cons x xs :
  String.concat EmptyString (x :: xs) = x +:+ String.concat EmptyString xs.
Proof.
  destruct xs as [|y xs]; simpl.
  - by rewrite app_empty_r.
  - done.
Qed.

Lemma split_spaces_nonempty gap s : split_spaces_from gap s ≠ [].
Proof.
  revert gap. induction s as [|a s IH]; intros gap; simpl; [done|].
  destruct (is_js_space a); [destruct gap; [apply IH|done]|].
  by destruct (split_spaces_from false s).
Qed.

(** A piece without white space stays at the head of the pieces. *)
Lemma split_spaces_solid_app gap a rest l ls :
  solid a → a ≠ EmptyString → split_spaces_from false rest = l :: ls →
  split_spaces_from gap (a +:+ rest) = (a +:+ l) :: ls.
Proof.
  intros Ha Hne Hrest. revert gap Hne. induction a as [|c a IH]; intros gap Hne; [done|].
  rewrite app_String. simpl. apply Forall_cons in Ha as [Hc Ha]. rewrite Hc.
  destruct a as [|c' a].
  - rewrite app_empty, Hrest. done.
  - by rewrite (IH Ha false).
Qed.

Lemma split_spaces_tail (rest : list string) :
  Forall (λ a, a ≠ EmptyString ∧ solid a) rest →
  split_spaces_from false (String.concat EmptyString (map (λ q, " " +:+ q) rest)) =
  EmptyString :: rest.
Proof.
  induction 1 as [|q rest [Hne Hq] _ IH]; [done|].
  rewrite map_cons, concat_cons.
  change ((" " +:+ q) +:+ ?t) with (String " "%char (q +:+ t)).
  simpl. rewrite (split_spaces_solid_app true q _ EmptyString rest); [|done|done|done].
  by rewrite app_empty_r.
Qed.

Lemma split_spaces_join (args : list string) :
  Forall (λ a, a ≠ EmptyString ∧ solid a) args → args ≠ [] →
  split_spaces (Cli.join_spaces args) = args.
Proof.
  intros Hargs Hne. destruct args as [|a rest]; [done|].
  apply Forall_cons in Hargs as [[Ha Hsolid] Hrest].
  unfold split_spaces, Cli.join_spaces, JS.join_with.
  rewrite (split_spaces_solid_app false a _ EmptyString rest);
    [|done|done|by apply split_spaces_tail].
  by rewrite app_empty_r.
Qed.

Lemma chars_join_spaces (args : list string) c :
  c ∈ chars (Cli.join_spaces args) →
  (c = " "%char ∧ 2 ≤ length args) ∨ ∃ a, a ∈ args ∧ c ∈ chars a.
Proof.
  destruct args as [|a rest]; [by intros ?%elem_of_nil|].
  unfold Cli.join_spaces, JS.join_with. rewrite chars_app, elem_of_app.
  intros [Hc|Hc]; [right; exists a; split; [left|done]|].
  assert (Htail : (c = " "%char ∧ rest ≠ []) ∨ ∃ b, b ∈ rest ∧ c ∈ chars b).
  { clear a. induction rest as [|q rest IH]; [by apply elem_of_nil in Hc|].
    rewrite map_cons, concat_cons, !chars_app in Hc.
    apply elem_of_app in Hc as [[Hc|Hc]%elem_of_app|Hc].
    - left. apply list_elem_of_singleton in Hc. done.
    - right. exists q. split; [left|done].
    - destruct (IH Hc) as [[-> _]|(b & Hb & Hcb)]; [by left|].
      right. exists b. split; [by right|done]. }
  destruct Htail as [[-> Hrest]|(b & Hb & Hcb)].
  - left. split; [done|]. destruct rest; simpl; [done|lia].
  - right. exists b. split; [by right|done].
Qed.

(** X17. Names given as arguments of their own are the names of the run.
    When every argument is a name (not empty, no leading dash, no comma and
    no white space in it) and the text is not read as a JSON array,
    [Cli.parseArgs] joins them with spaces and [parseUsernames] gives back
    exactly these arguments, in order.  Options do not get into the
    names: a switch or an unknown option is skipped, and an option that
    takes a value takes the next argument with it, whatever that is. *)
Theorem args_round_trip (J : string → option (list string))
    (args : list string) :
  args ≠ [] →
  Forall (λ a, a ≠ EmptyString ∧ solid a ∧ starts_with "-" a = false ∧
               includes "," a = false) args →
  (starts_with "[" (trim (Cli.join_spaces args)) && ends_with "]" (trim (Cli.join_spaces args))
     = false ∨ J (Cli.join_spaces args) = None) →
  Cli.list (Cli.parseArgs Number args) = Some (Cli.join_spaces args) ∧
  parseUsernames J (Cli.join_spaces args) = args ∧
  (∀ a v rest,
     (∃ s, Cli.classify a = Cli.Setting s) →
     Cli.list (Cli.parseArgs Number (a :: v :: rest)) = Cli.list (Cli.parseArgs Number rest)) ∧
  (∀ a rest,
     (∃ s, Cli.classify a = Cli.Switch s) ∨ Cli.classify a = Cli.Unknown →
     Cli.list (Cli.parseArgs Number (a :: rest)) = Cli.list (Cli.parseArgs Number rest)).
Proof.
  intros Hne Hargs Hjson.
  assert (Hnames : nonFlagArgs args = args).
  { apply nonFlagArgs_names. eapply Forall_impl; [exact Hargs|]. by intros a (_ & _ & ? & _). }
  assert (Hsolid : Forall (λ a, a ≠ EmptyString ∧ solid a) args).
  { eapply Forall_impl; [exact Hargs|]. by intros a (? & ? & _). }
  split; [|split; [|split]].
  - rewrite parseArgs_list, Hnames. by destruct args.
  - unfold parseUsernames.
    assert ((if starts_with "[" (trim (Cli.join_spaces args)) &&
                ends_with "]" (trim (Cli.join_spaces args))
             then J (Cli.join_spaces args) else None) = None) as ->.
    { destruct Hjson as [->| ->]; [done|]. by destruct (_ && _). }
    assert (Hcomma : includes "," (Cli.join_spaces args) = false).
    { apply not_true_is_false. intros Hin%includes_char%chars_join_spaces.
      destruct Hin as [[? _]|(a & Ha & Hc)]; [done|].
      rewrite Forall_forall in Hargs. destruct (Hargs a Ha) as (_ & _ & _ & Hno).
      apply includes_char in Hc. congruence. }
    rewrite Hcomma.
    assert (Hkeep : names args = args).
    { destruct (names_solid args) as [-> _].
      - eapply Forall_impl; [exact Hsolid|]. by intros a [_ ?].
      - clear -Hsolid. induction Hsolid as [|a args [Ha _] _ IH]; [done|].
        rewrite filter_cons, IH. by destruct a. }
    destruct (includes " " (Cli.join_spaces args) || includes tab (Cli.join_spaces args)) eqn:Hspace.
    + by rewrite split_spaces_join.
    + destruct args as [|a [|b rest]]; [done| |].
      * unfold Cli.join_spaces, JS.join_with. simpl.
        by rewrite app_empty_r.
      * apply orb_false_iff in Hspace as [Hsp _]. exfalso.
        apply not_true_iff_false in Hsp. apply Hsp, includes_char.
        unfold Cli.join_spaces, JS.join_with. rewrite map_cons, concat_cons, !chars_app.
        apply elem_of_app. right. apply elem_of_app. left. apply elem_of_app. left. left.
  - intros a v rest [s Hs]. rewrite !parseArgs_list. unfold nonFlagArgs. simpl.
    rewrite Hs. by rewrite (scan_names _ Cli.initial []).
  - intros a rest [[s Hs]|Hs]; rewrite !parseArgs_list; unfold nonFlagArgs; simpl;
      rewrite Hs; by rewrite (scan_names _ Cli.initial []).
Qed.

End args_facts.

Lemma args_round_trip_witness :
  Input.parseUsernames (λ _, None) (Cli.join_spaces ["apple"; "pear"]) = ["apple"; "pear"].
Proof.
  refine (proj1 (proj2 (args_round_trip (λ _ : option string, 0) (λ _, None)
                          ["apple"; "pear"] _ _ _))).
  - done.
  - repeat constructor; try done; vm_compute; done.
  - by right.
Defined.

(** ** Every name is reported once *)

Section conservation.
Import JS Main Check.

Lemma concat_insert_cons {A} (queues : list (list A)) i m q :
  queues !! i = Some (m :: q) → concat queues ≡ₚ m :: concat (<[i := q]> queues).
Proof.
  revert i. induction queues as [|q0 queues IH]; intros [|i] Hi; simpl in *; try done.
  - by injection Hi as ->.
  - change (list_insert i q queues) with (<[i := q]> queues).
    rewrite (IH i Hi). by rewrite Permutation_middle.
Qed.

(** The messages that arrive are the messages posted. *)
Lemma deliver_Permutation sched (queues : list (list Worker.message)) msgs :
  deliver sched queues = Some msgs → msgs ≡ₚ concat queues.
Proof.
  revert queues msgs. induction sched as [|i sched IH]; intros queues msgs; simpl.
  - destruct (forallb _ queues) eqn:Hall; [|done]. intros [= <-].
    induction queues as [|q queues IHq]; [done|]. simpl in *.
    apply andb_true_iff in Hall as [->%bool_decide_eq_true Hall]. by apply IHq.
  - destruct (queues !! i) as [[|m q]|] eqn:Hi; try done.
    destruct (deliver sched (<[i:=q]> queues)) as [rest|] eqn:Hrest; [|done].
    simpl. intros [= <-]. rewrite (concat_insert_cons queues i m q Hi).
    by rewrite (IH _ _ Hrest).
Qed.

(** A worker that asks for one key at a time exits with code 0, and its
    results carry the keys of its shard, once each. *)
Lemma run_single_keys cfg order o code w :
  Worker.httpBatchSize cfg = 1 → Worker.run cfg order o = Some (code, w) →
  code = 0%Z ∧
  map Worker.username (concat (map Worker.results_of (Worker.posted w)))
    ≡ₚ map VStr (Worker.usernames cfg).
Proof.
  intros Hsize Hrun.
  destruct (httpBatches_concat cfg ltac:(lia)) as (bs & Hbs & Hconcat & Hlens).
  unfold Worker.run in Hrun. rewrite Hbs in Hrun. destruct bs as [|b0 bs].
  - simpl in Hrun. injection Hrun as <- <-. by rewrite <-Hconcat.
  - destruct (decide (Worker.concurrency cfg = 0)); [done|].
    destruct (decide (order ≡ₚ _)) as [Horder|]; [|done].
    set (tasks := omap (λ i, (b0 :: bs) !! i) order) in *.
    assert (Htasks : tasks ≡ₚ b0 :: bs) by by apply settled_tasks.
    destruct (tasks_run_honest cfg tasks o Worker.start) as (w1 & rs & Hfor & Hall & Hrs).
    { intros b a Hb Hlen. rewrite Htasks in Hb. rewrite Forall_forall in Hlens.
      specialize (Hlens b Hb). lia. }
    destruct (flush_run o w1) as (w' & Hflush & Hall' & Hempty & _).
    unfold Worker.bind in Hrun. rewrite Hfor, Hflush in Hrun. injection Hrun as <- <-.
    split; [done|].
    assert (Hposted : concat (map Worker.results_of (Worker.posted w')) = rs).
    { unfold all_results in Hall', Hall. rewrite Hempty, app_nil_r in Hall'.
      by rewrite Hall', Hall. }
    by rewrite Hposted, Hrs, Htasks, Hconcat.
Qed.

Lemma workers_results env (shards : list (list string)) ends :
  batch (options env) = 1 →
  mapM id (workers_of env shards) = Some ends →
  map Worker.username
      (concat (map Worker.results_of (concat (map (λ e, Worker.posted (snd e)) ends))))
    ≡ₚ map VStr (concat shards).
Proof.
  intros Hbatch Hends. apply mapM_Some in Hends. unfold workers_of in Hends.
  assert (Hgen : ∀ k (shards : list (list string)) ends,
            Forall2 (λ x y, id x = Some y)
              (imap (λ idx shard,
                       Worker.run (workerData (options env) (k + idx) shard)
                                  (settle_order env (k + idx)) (service env (k + idx)))
                    shards) ends →
            map Worker.username
                (concat (map Worker.results_of
                           (concat (map (λ e, Worker.posted (snd e)) ends))))
              ≡ₚ map VStr (concat shards)).
  { clear shards ends Hends. intros k shards. revert k.
    induction shards as [|shard shards IH]; intros k ends Hall; simpl in Hall.
    - by apply Forall2_nil_inv_l in Hall as ->.
    - apply Forall2_cons_inv_l in Hall as ([code w] & ends' & Hrun & Hrest & ->).
      simpl in Hrun. rewrite Nat.add_0_r in Hrun.
      apply run_single_keys in Hrun as [_ Hkeys]; [|done]. simpl in Hkeys.
      simpl. rewrite map_app, concat_app, !map_app, Hkeys. f_equiv.
      apply (IH (S k)).
      assert (Hext : imap (λ idx shard0,
                       Worker.run (workerData (options env) (S k + idx) shard0)
                         (settle_order env (S k + idx)) (service env (S k + idx))) shards =
                     imap ((λ idx shard0,
                       Worker.run (workerData (options env) (k + idx) shard0)
                         (settle_order env (k + idx)) (service env (k + idx))) ∘ S) shards).
      { apply imap_ext. intros i x _. simpl.
        by replace (k + S i) with (S (k + i)) by lia. }
      rewrite Hext. exact Hrest. }
  apply (Hgen 0). exact Hends.
Qed.

(** X18. A run with the default batch size that completes reports every
    name of its list exactly once.  The results that arrive carry the names
    of the list, each once; [checked] ends at the length of the list; and
    every result goes to one file: [available.txt] when the name is
    available, [taken.txt] when it is taken, [errors.txt] with its reason
    in every other case. *)
Theorem check_run_conservation (env : environment) (content : string) (s : state) :
  batch (options env) = 1 → check_run env content = Some s →
  ∃ us rs,
    usernames (localeCompare env) (options env) content = Some us ∧
    map Worker.username rs ≡ₚ map VStr us ∧
    checked s = length us ∧
    avail s + taken s + errs s = length us ∧
    availStream s = map name_line (select (is_verdict true) rs) ∧
    takenStream s = map name_line (select (is_verdict false) rs) ∧
    errStream s = map failure_line (select is_failure rs) ∧
    select (is_verdict true) rs ++ select (is_verdict false) rs ++ select is_failure rs ≡ₚ rs.
Proof.
  intros Hbatch Hrun. unfold check_run in Hrun.
  destruct (usernames _ _ _) as [us|] eqn:Hus; [|done]. simpl in Hrun.
  destruct (Shard.shardArray us _) as [shards|] eqn:Hshards; [|done]. simpl in Hrun.
  destruct (mapM id (workers_of env shards)) as [ends|] eqn:Hends; [|done]. simpl in Hrun.
  destruct (forallb _ ends); [|done].
  destruct (deliver _ _) as [msgs|] eqn:Hmsgs; [|done]. simpl in Hrun.
  injection Hrun as <-.
  set (rs := concat (map Worker.results_of msgs)).
  assert (Hrs : map Worker.username rs ≡ₚ map VStr us).
  { unfold rs. rewrite (deliver_Permutation _ _ _ Hmsgs).
    rewrite (workers_results env shards ends Hbatch Hends).
    by rewrite (shardArray_Permutation _ _ _ Hshards). }
  exists us, rs. split; [done|]. split; [done|].
  rewrite on_message_processResult. fold rs.
  destruct (accounted_results false rs) as [Hc Ha Ht He Has Hts Hes _ _]. simpl in *.
  assert (Hsplit : select (is_verdict true) rs ++ select (is_verdict false) rs ++
                   select is_failure rs ≡ₚ rs) by apply select_partition.
  assert (Hlen : length rs = length us).
  { apply Permutation_length in Hrs. by rewrite !length_map in Hrs. }
  assert (Hsum : length rs = length (select (is_verdict true) rs) +
                             length (select (is_verdict false) rs) +
                             length (select is_failure rs)).
  { rewrite <-Hsplit at 1. rewrite !length_app. lia. }
  repeat split; try done; lia.
Qed.

End conservation.

(** Two names, one per line. *)
Definition apple_banana : string :=
  "apple" +:+ Str.nl +:+ "banana" +:+ Str.nl.

Lemma check_run_conservation_witness :
  ∃ s,
    Main.batch (Main.options (one_worker apple_only)) = 1 ∧
    Check.check_run (one_worker apple_only) apple_banana = Some s ∧
    Main.checked s = 2 ∧
    Main.availStream s = ["apple" +:+ Str.nl] ∧
    Main.errStream s = ["banana" +:+ Str.tab +:+ "HTTP 404" +:+ Str.nl].
Proof.
  assert (H : ∃ s, Check.check_run (one_worker apple_only) apple_banana = Some s ∧
                   Main.availStream s = ["apple" +:+ Str.nl] ∧
                   Main.errStream s = ["banana" +:+ Str.tab +:+ "HTTP 404" +:+ Str.nl]).
  { eexists. split; [vm_compute; reflexivity|]. split; vm_compute; reflexivity. }
  destruct H as (s & Hrun & Havail & Herr). exists s.
  split; [reflexivity|]. split; [exact Hrun|]. split; [|split; [exact Havail|exact Herr]].
  destruct (check_run_conservation (one_worker apple_only) apple_banana s eq_refl Hrun)
    as (us & rs & Hus & _ & Hchecked & _).
  rewrite Hchecked. vm_compute in Hus. by injection Hus as <-.
Defined.
